(** * Campus Cart V2: order interpretation and aggregation engine

    A shallow embedding of the decision logic of [Code.js]
    ([determineOrderField], [parseOrderItemsEnhanced],
    [calculateDeliveryFee], the order assembly of [onFormSubmit], the
    accumulation loop of [sendDailySummary] and the in-place sort of the
    dispatch generators), with the properties of the specification proved
    or refuted on it.

    Modelling conventions.
    - A JavaScript string is a sequence of UTF-16 code units; the model
      covers the code units below 256 (Latin-1) and writes a string as a
      [list ascii].
    - A JavaScript number is an IEEE 754 double.  A finite double is
      written [Fin q] with [q] its exact value, the results of arithmetic
      and of reading a numeral are rounded to the nearest double (ties to
      the even significand, overflow to an infinity), and the two zeros
      are one value: no operation of the code tells them apart.
    - Regular expressions are run by a backtracking matcher with the
      priorities of ECMAScript (greedy and lazy quantifiers, capture
      groups, negative lookahead); the two patterns of the parser are
      terms of the regex type.
    - [onFormSubmit] receives a row of texts; [sendDailySummary] reads
      typed cells, and a [TypeError] ends its run.  The loop is given on
      rows of texts ([dailySummary]) and on typed cells
      ([Sheet.sendDailySummary]), and the two are related. *)

From Stdlib Require Import Ascii String List Bool Arith ZArith QArith Lia.
From Stdlib Require Import Qround Qpower Qreduction.
From Stdlib Require Import Permutation Sorted.
Import ListNotations.

Local Open Scope list_scope.

(** ** Strings as code-unit sequences *)

Definition str := list ascii.

Definition lit (s : string) : str := list_ascii_of_string s.

Definition code (a : ascii) : N := N_of_ascii a.

Definition in_range (lo hi : N) (a : ascii) : bool :=
  (N.leb lo (code a) && N.leb (code a) hi)%bool.

(** [\d] *)
Definition is_digit (a : ascii) : bool := in_range 48 57 a.

(** [\s] and the characters removed by [String.prototype.trim]: TAB, LF,
    VT, FF, CR, SPACE and NBSP are the ones below 256. *)
Definition is_ws (a : ascii) : bool :=
  (in_range 9 13 a || N.eqb (code a) 32 || N.eqb (code a) 160)%bool.

Definition is_upper (a : ascii) : bool := in_range 65 90 a.
Definition is_lower (a : ascii) : bool := in_range 97 122 a.
Definition is_letter (a : ascii) : bool := (is_upper a || is_lower a)%bool.

(** [\w]; the [i] flag without the [u] flag adds nothing to it. *)
Definition is_word (a : ascii) : bool :=
  (is_letter a || is_digit a || N.eqb (code a) 95)%bool.

(** [[\w\s]] *)
Definition is_word_or_ws (a : ascii) : bool := (is_word a || is_ws a)%bool.

Definition is_char (c : ascii) (a : ascii) : bool := Ascii.eqb c a.

(** [String.prototype.toLowerCase] on Latin-1 code units. *)
Definition lower_char (a : ascii) : ascii :=
  if (is_upper a
      || (in_range 192 222 a && negb (N.eqb (code a) 215)))%bool
  then ascii_of_N (code a + 32) else a.

Definition toLowerCase (s : str) : str := map lower_char s.

Fixpoint dropWhile (p : ascii -> bool) (s : str) : str :=
  match s with
  | a :: s' => if p a then dropWhile p s' else s
  | [] => []
  end.

(** [String.prototype.trim] *)
Definition trim (s : str) : str :=
  rev (dropWhile is_ws (rev (dropWhile is_ws s))).

Fixpoint starts_with (p s : str) : bool :=
  match p, s with
  | [], _ => true
  | a :: p', b :: s' => (Ascii.eqb a b && starts_with p' s')%bool
  | _ :: _, [] => false
  end.

(** [String.prototype.includes] *)
Fixpoint includes (s sub : str) : bool :=
  (starts_with sub s ||
   match s with
   | [] => false
   | _ :: s' => includes s' sub
   end)%bool.

Definition str_eqb (s t : str) : bool :=
  (Nat.eqb (length s) (length t) && starts_with s t)%bool.

(** ** Numbers *)

Inductive num : Type :=
| Fin (q : Q)     (* a finite double, by its exact value *)
| PInf            (* Infinity *)
| NInf            (* -Infinity *)
| NaN.

(** The exponent [e] of the binade of a positive rational:
    [2^e <= x < 2^(e+1)]. *)
Definition floor_log2 (x : Q) : Z :=
  let e0 := (Z.log2 (Qnum x) - Z.log2 (Zpos (Qden x)))%Z in
  if Qle_bool (2 ^ e0) x then e0 else (e0 - 1)%Z.

(** The integer nearest to a non-negative rational, a tie going to the
    even one. *)
Definition round_half_even (y : Q) : Z :=
  let f := Qfloor y in
  match Qcompare (y - inject_Z f) (1 # 2) with
  | Lt => f
  | Gt => (f + 1)%Z
  | Eq => if Z.even f then f else (f + 1)%Z
  end.

(** The exponent of the unit in the last place of the doubles of the
    binade of [x]: 53 significant bits, and no exponent below that of the
    subnormal numbers. *)
Definition ulp_exponent (x : Q) : Z := Z.max (floor_log2 x - 52) (-1074).

(** The double nearest to a positive rational; [None] when it is beyond
    the largest finite double. *)
Definition round_pos (x : Q) : option Q :=
  let k := ulp_exponent x in
  let r := inject_Z (round_half_even (x * 2 ^ (- k))) * 2 ^ k in
  if Qle_bool (2 ^ 1024) r then None else Some (Qred r).

(** The Number value of a rational: the nearest double, ties to even.
    Finite results are in lowest terms, so that equal numbers are equal
    terms. *)
Definition round_double (x : Q) : num :=
  let x := Qred x in
  match Qcompare x 0 with
  | Eq => Fin 0
  | Gt => match round_pos x with Some q => Fin q | None => PInf end
  | Lt => match round_pos (- x) with Some q => Fin (- q) | None => NInf end
  end.

(** The number an integer is when it is exactly a double. *)
Definition num_of_N (n : N) : num := Fin (inject_Z (Z.of_N n)).

(** [a + b] *)
Definition num_add (a b : num) : num :=
  match a, b with
  | NaN, _ | _, NaN => NaN
  | PInf, NInf | NInf, PInf => NaN
  | PInf, _ | _, PInf => PInf
  | NInf, _ | _, NInf => NInf
  | Fin x, Fin y => round_double (x + y)
  end.

(** The product of an infinity and a finite number, by the sign of the
    finite number; [positive] is the sign of the infinity. *)
Definition inf_times (positive : bool) (x : Q) : num :=
  match Qcompare x 0 with
  | Eq => NaN
  | Gt => if positive then PInf else NInf
  | Lt => if positive then NInf else PInf
  end.

(** [a * b] *)
Definition num_mul (a b : num) : num :=
  match a, b with
  | NaN, _ | _, NaN => NaN
  | Fin x, Fin y => round_double (x * y)
  | Fin x, PInf | PInf, Fin x => inf_times true x
  | Fin x, NInf | NInf, Fin x => inf_times false x
  | PInf, PInf | NInf, NInf => PInf
  | PInf, NInf | NInf, PInf => NInf
  end.

(** [a > 0] and [a >= 0]; both are false on [NaN]. *)
Definition num_gt0 (a : num) : bool :=
  match a with
  | Fin x => negb (Qle_bool x 0)
  | PInf => true
  | NInf | NaN => false
  end.

Definition num_ge0 (a : num) : bool :=
  match a with
  | Fin x => Qle_bool 0 x
  | PInf => true
  | NInf | NaN => false
  end.

(** Truthiness of a number: [0] and [NaN] are falsy. *)
Definition num_truthy (a : num) : bool :=
  match a with
  | Fin x => negb (Qeq_bool x 0)
  | PInf | NInf => true
  | NaN => false
  end.

(** [a || b] on numbers *)
Definition num_or (a b : num) : num := if num_truthy a then a else b.

Definition digit_val (a : ascii) : N := code a - 48.

(** Value of a run of decimal digits, most significant first. *)
Fixpoint digits_value (acc : N) (s : str) : N :=
  match s with
  | a :: s' => digits_value (10 * acc + digit_val a) s'
  | [] => acc
  end.

Fixpoint takeWhile (p : ascii -> bool) (s : str) : str :=
  match s with
  | a :: s' => if p a then a :: takeWhile p s' else []
  | [] => []
  end.

(** [parseInt(s)] on an unsigned decimal numeral: the longest prefix of
    digits is read, its Number value is returned, and no digit at all gives
    [NaN].  (Leading white space, a sign or a [0x] prefix cannot occur in
    what [\d+] captures.) *)
Definition parseInt (s : str) : num :=
  match takeWhile is_digit s with
  | [] => NaN
  | ds => round_double (inject_Z (Z.of_N (digits_value 0 ds)))
  end.

(** The value of a decimal numeral with integer digits [ip] and fraction
    digits [fp]. *)
Definition decimal_value (ip fp : str) : Q :=
  inject_Z (Z.of_N (digits_value 0 ip))
  + Qmake (Z.of_N (digits_value 0 fp)) (Z.to_pos (10 ^ Z.of_nat (length fp))).

(** [parseFloat(s)] on an unsigned decimal literal: integer digits, then an
    optional point and fraction digits, read as the Number value of the
    decimal; no digit at all gives [NaN]. *)
Definition parseFloat (s : str) : num :=
  let ip := takeWhile is_digit s in
  let rest := dropWhile is_digit s in
  let fp := match rest with
            | a :: r => if is_char "."%char a then takeWhile is_digit r else []
            | [] => []
            end in
  match ip, fp with
  | [], [] => NaN
  | _, _ => round_double (decimal_value ip fp)
  end.

(** ** A backtracking regular-expression matcher

    The constructors are the ones the two patterns of the parser use.  A
    quantifier ranges over a character class, as it does in both patterns. *)

Inductive regex : Type :=
| Cls (p : ascii -> bool)          (* one character of a class, or a literal *)
| Cat (r1 r2 : regex)              (* r1 r2 *)
| PlusGreedy (p : ascii -> bool)   (* p+ *)
| PlusLazy (p : ascii -> bool)     (* p+? *)
| StarGreedy (p : ascii -> bool)   (* p* *)
| Opt (r : regex)                  (* (?:r)? *)
| Group (i : nat) (r : regex)      (* capture group number i *)
| NegLookahead (r : regex).        (* (?!r) *)

(** Captures: group number to captured text. *)
Definition captures := list (nat * str).

Fixpoint capture (i : nat) (c : captures) : str :=
  match c with
  | (j, s) :: c' => if Nat.eqb i j then s else capture i c'
  | [] => []
  end.

(** A match state: the input not yet consumed and the captures so far. *)
Definition mstate := (str * captures)%type.
Definition cont := str -> captures -> option mstate.

Section Quantifiers.
Variable p : ascii -> bool.
Variable k : cont.

(** [p*] greedy: as many characters as possible first, giving them back
    one at a time while the continuation fails. *)
Fixpoint star_greedy (s : str) (c : captures) : option mstate :=
  match s with
  | a :: s' =>
      if p a then
        match star_greedy s' c with
        | Some m => Some m
        | None => k s c
        end
      else k s c
  | [] => k s c
  end.

(** [p*?] lazy: the continuation first, one more character each time it
    fails. *)
Fixpoint star_lazy (s : str) (c : captures) : option mstate :=
  match k s c with
  | Some m => Some m
  | None =>
      match s with
      | a :: s' => if p a then star_lazy s' c else None
      | [] => None
      end
  end.
End Quantifiers.

Fixpoint run (r : regex) (k : cont) (s : str) (c : captures)
  : option mstate :=
  match r with
  | Cls p =>
      match s with
      | a :: s' => if p a then k s' c else None
      | [] => None
      end
  | Cat r1 r2 => run r1 (run r2 k) s c
  | PlusGreedy p =>
      match s with
      | a :: s' => if p a then star_greedy p k s' c else None
      | [] => None
      end
  | PlusLazy p =>
      match s with
      | a :: s' => if p a then star_lazy p k s' c else None
      | [] => None
      end
  | StarGreedy p => star_greedy p k s c
  | Opt r' =>
      match run r' k s c with
      | Some m => Some m
      | None => k s c
      end
  | Group i r' =>
      run r' (fun s' c' => k s' ((i, firstn (length s - length s') s) :: c'))
          s c
  | NegLookahead r' =>
      match run r' (fun s' c' => Some (s', c')) s c with
      | Some _ => None
      | None => k s c
      end
  end.

(** One attempt at the current position. *)
Definition match_here (r : regex) (s : str) : option mstate :=
  run r (fun s' c' => Some (s', c')) s [].

(** [RegExp.prototype.exec] from the current position: the leftmost start
    at which an attempt succeeds. *)
Fixpoint search (r : regex) (s : str) : option mstate :=
  match match_here r s with
  | Some m => Some m
  | None =>
      match s with
      | _ :: s' => search r s'
      | [] => None
      end
  end.

(** [[...text.matchAll(r)]] for a global pattern: successive searches, each
    from the end of the previous match, and one character further after an
    empty match.  The input left shrinks at each step, so its length plus
    one bounds the number of steps. *)
Fixpoint matchAll_from (fuel : nat) (r : regex) (s : str) : list captures :=
  match fuel with
  | O => []
  | S fuel' =>
      match search r s with
      | None => []
      | Some (rest, c) =>
          c :: (if Nat.ltb (length rest) (length s)
                then matchAll_from fuel' r rest
                else match rest with
                     | _ :: rest' => matchAll_from fuel' r rest'
                     | [] => []
                     end)
      end
  end.

Definition matchAll (r : regex) (s : str) : list captures :=
  matchAll_from (S (length s)) r s.

(** [/([\w\s]+?)\s+(\d+)\s*@\s*(\d+(?:\.\d{2})?)/gi] *)
Definition itemizedPattern : regex :=
  Cat (Group 1 (PlusLazy is_word_or_ws))
  (Cat (PlusGreedy is_ws)
  (Cat (Group 2 (PlusGreedy is_digit))
  (Cat (StarGreedy is_ws)
  (Cat (Cls (is_char "@"))
  (Cat (StarGreedy is_ws)
       (Group 3 (Cat (PlusGreedy is_digit)
                     (Opt (Cat (Cls (is_char "."))
                          (Cat (Cls is_digit) (Cls is_digit))))))))))).

(** [/([\w\s]+?)\s+(\d+)(?!\s*@)/gi] *)
Definition prepaidPattern : regex :=
  Cat (Group 1 (PlusLazy is_word_or_ws))
  (Cat (PlusGreedy is_ws)
  (Cat (Group 2 (PlusGreedy is_digit))
       (NegLookahead (Cat (StarGreedy is_ws) (Cls (is_char "@")))))).

(** ** Order parser: [parseOrderItemsEnhanced] *)

(** The values a form field or a sheet cell can hold; a date is given by
    its time value in milliseconds. *)
Inductive value : Type :=
| VUndefined
| VNull
| VBoolean (b : bool)
| VNumber (n : num)
| VString (s : str)
| VDate (t : Z).

Record Item : Type := mkItem {
  name : str;
  quantity : num;
  price : num
}.

Inductive OrderType : Type := itemized | prepaid.

Inductive ParseError : Type :=
| empty_order
| invalid_itemized_format
| invalid_prepaid_format
| unrecognizable_format.

Record ParseResult : Type := mkParseResult {
  success : bool;
  error : option ParseError;
  items : list Item;
  type : option OrderType
}.

Definition failure (e : ParseError) : ParseResult :=
  mkParseResult false (Some e) [] None.

Definition parsed (t : OrderType) (l : list Item) : ParseResult :=
  mkParseResult true None l (Some t).

(** Truthiness of a string: the empty string is falsy. *)
Definition str_truthy (s : str) : bool :=
  match s with
  | [] => false
  | _ :: _ => true
  end.

Definition itemized_item (m : captures) : Item :=
  mkItem (trim (capture 1 m)) (parseInt (capture 2 m))
         (parseFloat (capture 3 m)).

Definition prepaid_item (m : captures) : Item :=
  mkItem (trim (capture 1 m)) (parseInt (capture 2 m)) (Fin 0).

Definition itemized_valid (it : Item) : bool :=
  (str_truthy (name it) && num_gt0 (quantity it) && num_ge0 (price it))%bool.

Definition prepaid_valid (it : Item) : bool :=
  (str_truthy (name it) && num_gt0 (quantity it))%bool.

(** The classification at the end of the parser, when neither format
    produced a result. *)
Definition classify_failure (cleanText : str) : ParseError :=
  if includes cleanText (lit "@") then invalid_itemized_format
  else if existsb is_digit cleanText then invalid_prepaid_format
  else unrecognizable_format.

(** One format attempt: [None] when the attempt falls through. *)
Definition attempt (r : regex) (mk : captures -> Item)
    (valid : Item -> bool) (cleanText : str) : option (list Item) :=
  let matches := matchAll r cleanText in
  if Nat.ltb 0 (length matches) then
    let its := map mk matches in
    let validItems := filter valid its in
    if Nat.eqb (length validItems) (length its) then Some validItems
    else None
  else None.

Definition parseOrderText (text : str) : ParseResult :=
  let cleanText := trim text in
  match attempt itemizedPattern itemized_item itemized_valid cleanText with
  | Some validItems => parsed itemized validItems
  | None =>
      match attempt prepaidPattern prepaid_item prepaid_valid cleanText with
      | Some validItems => parsed prepaid validItems
      | None => failure (classify_failure cleanText)
      end
  end.

Definition parseOrderItemsEnhanced (text : value) : ParseResult :=
  match text with
  | VString [] => failure empty_order
  | VString s => parseOrderText s
  | _ => failure empty_order
  end.

(** ** Field selector: [determineOrderField]

    A field is a string or absent ([None] for [null] and [undefined]). *)

Definition truthy (v : option str) : bool :=
  match v with
  | Some s => str_truthy s
  | None => false
  end.

Definition text_of (v : option str) : str :=
  match v with
  | Some s => s
  | None => []
  end.

(** The hint taken from the selected order type, when it gives one. *)
Definition type_hint (field1 field2 selectedType : option str)
  : option (option str) :=
  if truthy selectedType then
    let typeHint := toLowerCase (text_of selectedType) in
    if (includes typeHint (lit "pickup")
        || includes typeHint (lit "delivery"))%bool
    then Some field2
    else if includes typeHint (lit "order") then Some field1
    else None
  else None.

Definition determineOrderField (field1 field2 selectedType : option str)
  : option str :=
  if (negb (truthy field1) && negb (truthy field2))%bool then None
  else if (truthy field1 && negb (truthy field2))%bool then field1
  else if (truthy field2 && negb (truthy field1))%bool then field2
  else if (truthy field1 && truthy field2)%bool then
    match type_hint field1 field2 selectedType with
    | Some chosen => chosen
    | None =>
        if Nat.ltb (length (text_of field2)) (length (text_of field1))
        then field1 else field2
    end
  else if truthy field1 then field1 else field2.

Inductive Source : Type := source_field1 | source_field2.

(** [rawOrder === orderField1 ? 'field1' : 'field2'], as both callers
    compute the source tag. *)
Definition orderSource (rawOrder orderField1 : str) : Source :=
  if str_eqb rawOrder orderField1 then source_field1 else source_field2.

(** ** Fee classifier: [calculateDeliveryFee] *)

Definition near : list str := map lit [
  "Store Near AUP"; "Dali Putting Kahoy"; "Local Sari Sari Store"; "Dante's";
  "Canteen"; "AUP Cafeteria"; "Loading Snacks"; "Kusina ni Ate";
  "Chooks-to-Go (Puting Kahoy)";
  "Burgers & Fries Stalls (near trike terminal)" ]%string.

Definition far : list str := map lit [
  "Santa Rosa Heights"; "Wet Market"; "Dali Santa Rosa"; "Safe More";
  "Andok's Santa Rosa"; "Mini Stop"; "7-Eleven"; "7 Eleven" ]%string.

Definition veryFar : list str := map lit [
  "Paseo"; "Nuvali"; "Fresh Market"; "South Mall"; "Robinson";
  "All Home"; "SM City Sta. Rosa" ]%string.

(** [zones.some(zone => normalized.includes(zone.toLowerCase()))] *)
Definition zone_match (zones : list str) (normalized : str) : bool :=
  existsb (fun zone => includes normalized (toLowerCase zone)) zones.

Definition calculateDeliveryFee (store : value) : num :=
  match store with
  | VString [] => Fin 0
  | VString s =>
      let normalized := toLowerCase s in
      if zone_match veryFar normalized then Fin 199
      else if zone_match far normalized then Fin 99
      else if zone_match near normalized then Fin 69
      else Fin 0
  | _ => Fin 0
  end.

(** ** Order builder: the decisions of [onFormSubmit] *)

(** One row of answers as [onFormSubmit] receives it in [e.values]: every
    column is a text; the time stamp is given by its time value in
    milliseconds. *)
Record Row : Type := mkRow {
  r_timestamp : Z;
  r_name : str;
  r_email : str;
  r_phone : str;
  r_location : str;
  r_room : str;
  r_orderType : str;
  r_orderField1 : str;
  r_orderField2 : str;
  r_store : str;
  r_paymentMethod : str;
  r_gcashRef : str;
  r_termsAccepted : str
}.

(** [items.reduce((sum, item) => sum + (item.quantity * (item.price || 0)), 0)] *)
Definition subtotal_of (its : list Item) : num :=
  fold_left
    (fun sum item =>
       num_add sum (num_mul (quantity item) (num_or (price item) (Fin 0))))
    its (Fin 0).

Record OrderDetails : Type := mkOrderDetails {
  od_timestamp : Z;
  od_name : str;
  od_email : str;
  od_phone : str;
  od_location : str;
  od_room : str;
  od_items : list Item;
  od_subtotal : num;
  od_deliveryFee : num;
  od_total : num;
  od_store : str;
  od_paymentMethod : str;
  od_gcashRef : str;
  od_orderType : option OrderType;
  od_selectedOrderType : str;
  od_orderSource : Source
}.

(** What [onFormSubmit] decides for a submission; sending the messages and
    the receipt are the collaborators' work. *)
Inductive Outcome : Type :=
| SkippedDuplicate
| IncompleteSubmission
| NoOrderProvided
| FormatCorrection (e : option ParseError) (originalOrder : str)
| Accepted (orderDetails : OrderDetails).

Definition onFormSubmit (alreadyReceipted : bool) (data : Row) : Outcome :=
  if alreadyReceipted then SkippedDuplicate
  else
    let rawOrder :=
      determineOrderField (Some (r_orderField1 data))
        (Some (r_orderField2 data)) (Some (r_orderType data)) in
    if (negb (str_truthy (r_termsAccepted data))
        || negb (includes (toLowerCase (r_termsAccepted data)) (lit "agree"))
        || negb (includes (r_email data) (lit "@")))%bool
    then IncompleteSubmission
    else if negb (truthy rawOrder) then NoOrderProvided
    else
      let parseResult := parseOrderItemsEnhanced (VString (text_of rawOrder)) in
      if negb (success parseResult)
      then FormatCorrection (error parseResult) (text_of rawOrder)
      else
        let subtotal := subtotal_of (items parseResult) in
        let deliveryFee := calculateDeliveryFee (VString (r_store data)) in
        let total := num_add subtotal deliveryFee in
        Accepted
          (mkOrderDetails (r_timestamp data) (r_name data) (r_email data)
             (r_phone data) (r_location data) (r_room data)
             (items parseResult) subtotal deliveryFee total
             (r_store data) (r_paymentMethod data) (r_gcashRef data)
             (type parseResult) (r_orderType data)
             (orderSource (text_of rawOrder) (r_orderField1 data))).

(** ** Daily aggregator: the summary of [sendDailySummary]

    This section is the loop of [sendDailySummary] on rows of texts, for
    the runs that complete; [Sheet.sendDailySummary] below is the loop on
    the typed cells of [getValues()], with the throws that end a run, and
    [text_rows_run] relates the two. *)

Record OrderData : Type := mkOrderData {
  o_timestamp : Z;
  o_name : str;
  o_email : str;
  o_phone : str;
  o_location : str;
  o_room : str;
  o_store : str;
  o_items : list Item;
  o_subtotal : num;
  o_deliveryFee : num;
  o_paymentMethod : str;
  o_gcashRef : str;
  o_orderType : option OrderType;
  o_selectedOrderType : str;
  o_orderSource : Source
}.

(** [storeGroups] is an object used as a map from store name to an array
    of orders: here, its own properties in the order of their creation
    (the code never enumerates them; an enumeration would list the names
    that are array indices first). *)
Record Summary : Type := mkSummary {
  totalOrders : nat;
  totalRevenue : num;
  totalDelivery : num;
  orders : list OrderData;
  storeGroups : list (str * list OrderData)
}.

(** [if (!g[store]) { g[store] = []; }  g[store].push(o)] for a store name
    that is not the name of a member of [Object.prototype] (for such a
    name the statement throws: see [Sheet.push]). *)
Fixpoint group_push (store : str) (o : OrderData)
    (g : list (str * list OrderData)) : list (str * list OrderData) :=
  match g with
  | [] => [(store, [o])]
  | (k, l) :: g' =>
      if str_eqb k store then (k, l ++ [o]) :: g'
      else (k, l) :: group_push store o g'
  end.

(** The body of [todayOrders.forEach] on a row of texts: a [return] leaves
    the summary as it is and goes on with the next row. *)
Definition process_row (summary : Summary) (row : Row) : Summary :=
  let rawOrder :=
    determineOrderField (Some (r_orderField1 row))
      (Some (r_orderField2 row)) (Some (r_orderType row)) in
  if negb (truthy rawOrder) then summary
  else
    let parseResult := parseOrderItemsEnhanced (VString (text_of rawOrder)) in
    if negb (success parseResult) then summary
    else
      let subtotal := subtotal_of (items parseResult) in
      let deliveryFee := calculateDeliveryFee (VString (r_store row)) in
      let orderData :=
        mkOrderData (r_timestamp row) (r_name row) (r_email row)
          (r_phone row) (r_location row) (r_room row) (r_store row)
          (items parseResult) subtotal deliveryFee
          (r_paymentMethod row) (r_gcashRef row) (type parseResult)
          (r_orderType row)
          (orderSource (text_of rawOrder) (r_orderField1 row)) in
      mkSummary (totalOrders summary)
        (num_add (totalRevenue summary) subtotal)
        (num_add (totalDelivery summary) deliveryFee)
        (orders summary ++ [orderData])
        (group_push (r_store row) orderData (storeGroups summary)).

(** The summary [sendDailySummary] builds from the rows of the sheet;
    [start] and [end_] bound the current day. *)
Definition dailySummary (start end_ : Z) (rows : list Row) : Summary :=
  let todayOrders :=
    filter (fun row => (Z.leb start (r_timestamp row)
                        && Z.leb (r_timestamp row) end_)%bool) rows in
  fold_left process_row todayOrders
    (mkSummary (length todayOrders) (Fin 0) (Fin 0) [] []).

(** ** Dispatch generators

    [orders.sort((a, b) => new Date(a.timestamp) - new Date(b.timestamp))]
    sorts the array it is called on, and [orders] is the array of the
    summary itself.  The sort of ECMAScript is stable, which fixes its
    result for a consistent comparator. *)

Fixpoint insert_by_time (o : OrderData) (l : list OrderData)
  : list OrderData :=
  match l with
  | [] => [o]
  | x :: l' =>
      if Z.leb (o_timestamp o - o_timestamp x) 0 then o :: l
      else x :: insert_by_time o l'
  end.

Definition sort_by_time (l : list OrderData) : list OrderData :=
  fold_right insert_by_time [] l.

(** [generateDispatchText]: the entries of the listing in the order they
    are written, and the summary as the call leaves it. *)
Definition generateDispatchText (summary : Summary)
  : list OrderData * Summary :=
  if Nat.eqb (totalOrders summary) 0 then ([], summary)
  else
    let sorted := sort_by_time (orders summary) in
    (sorted,
     mkSummary (totalOrders summary) (totalRevenue summary)
       (totalDelivery summary) sorted (storeGroups summary)).

(** [generateDispatchPDF]: the rows of the orders table in the order they
    are appended, and the summary as the call leaves it. *)
Definition generateDispatchPDF (summaryData : Summary)
  : list OrderData * Summary :=
  if Nat.eqb (totalOrders summaryData) 0 then ([], summaryData)
  else
    let sorted := sort_by_time (orders summaryData) in
    (sorted,
     mkSummary (totalOrders summaryData) (totalRevenue summaryData)
       (totalDelivery summaryData) sorted (storeGroups summaryData)).

(** [generateDispatchHTML]: the entries in the order they are written, and
    the summary as the call leaves it. *)
Definition generateDispatchHTML (summary : Summary)
  : list OrderData * Summary :=
  if Nat.eqb (totalOrders summary) 0 then ([], summary)
  else
    let sorted := sort_by_time (orders summary) in
    (sorted,
     mkSummary (totalOrders summary) (totalRevenue summary)
       (totalDelivery summary) sorted (storeGroups summary)).

(** How a run of [generateDispatchPDF] ends: the calls to the document
    service can throw before the sort or after it. *)
Inductive PdfRun : Type :=
| pdf_done
| pdf_throws_before_sort
| pdf_throws_after_sort.

(** [generateDispatchPDFWithFallback]: the fallback flag, the rows of the
    PDF when there is one, and the summary as the call leaves it. *)
Definition generateDispatchPDFWithFallback (run : PdfRun)
    (summaryData : Summary) : bool * option (list OrderData) * Summary :=
  match run with
  | pdf_done =>
      (false, Some (fst (generateDispatchPDF summaryData)),
       snd (generateDispatchPDF summaryData))
  | pdf_throws_before_sort => (true, None, summaryData)
  | pdf_throws_after_sort =>
      (true, None,
       if Nat.eqb (totalOrders summaryData) 0 then summaryData
       else snd (generateDispatchPDF summaryData))
  end.

(** The views [sendDailySummary] generates from its summary, in the order
    of the calls: PDF, text, HTML; and the summary at the end. *)
Definition dispatch_views (run : PdfRun) (summary : Summary)
  : option (list OrderData) * list OrderData * list OrderData * Summary :=
  let '(_, pdf, s1) := generateDispatchPDFWithFallback run summary in
  let '(text, s2) := generateDispatchText s1 in
  let '(html, s3) := generateDispatchHTML s2 in
  (pdf, text, html, s3).

(** The array [storeGroups] holds under a name as a property of its own,
    if it holds one. *)
Fixpoint store_group (g : list (str * list OrderData)) (store : str)
  : option (list OrderData) :=
  match g with
  | [] => None
  | (k, l) :: g' => if str_eqb k store then Some l else store_group g' store
  end.

(** The help text [sendFormatCorrectionEmail] chooses in its [switch]. *)
Inductive HelpMessage : Type :=
| help_no_items       (* "We didn't receive any order items ..." *)
| help_prices         (* "... trying to include prices, but the format ..." *)
| help_quantities     (* "We detected quantities but couldn't understand ..." *)
| help_any_format.    (* "We couldn't understand your order format." *)

(** [sendFormatCorrectionEmail]: nothing is sent to an empty address;
    otherwise the message carries the help text chosen by the error type
    (the [default] branch takes every other value) and the original
    order. *)
Definition sendFormatCorrectionEmail (email : str)
    (errorType : option ParseError) (originalOrder : str)
  : option (HelpMessage * str) :=
  if negb (str_truthy email) then None
  else
    Some (match errorType with
          | Some empty_order => help_no_items
          | Some invalid_itemized_format => help_prices
          | Some invalid_prepaid_format => help_quantities
          | _ => help_any_format
          end, originalOrder).

(** [(item.quantity || 0) * (item.price || 0)], the total on the line of an
    item of an itemized receipt in [generateReceiptPDF]. *)
Definition receipt_item_total (item : Item) : num :=
  num_mul (num_or (quantity item) (Fin 0)) (num_or (price item) (Fin 0)).

(** ** The daily run on the cells of the sheet

    [onFormSubmit] receives the answers as texts ([e.values]), and the
    sections above read a row as texts.  [sendDailySummary] reads the
    sheet with [getValues()], which gives every cell by its type: a text,
    a number, a boolean or a date.  This section is the loop of
    [sendDailySummary] on such cells, with the [TypeError]s it can throw;
    nothing catches them, so a throw ends the run before any view is
    generated. *)

Module Sheet.

(** What a call yields: a value, or a [TypeError] thrown. *)
Inductive result (A : Type) : Type :=
| Returned (a : A)
| Threw.

Arguments Returned {A} a.
Arguments Threw {A}.

(** What the platform decides: the time value [Date.parse] reads in a
    text ([None] for [NaN]), and the texts of a number and of a date. *)
Record Platform : Type := mkPlatform {
  Date_parse : str -> option Z;
  Number_toString : num -> str;
  Date_toString : Z -> str
}.

(** Truthiness of a value; a date is an object. *)
Definition truthy (v : value) : bool :=
  match v with
  | VUndefined | VNull => false
  | VBoolean b => b
  | VNumber n => num_truthy n
  | VString s => str_truthy s
  | VDate _ => true
  end.

(** [field1.length > field2.length]: a text has a length, a number, a
    boolean and a date have none, and a comparison with [undefined] is
    false. *)
Definition longer (field1 field2 : value) : bool :=
  match field1, field2 with
  | VString a, VString b => Nat.ltb (length b) (length a)
  | _, _ => false
  end.

(** [determineOrderField] on cells: [selectedType.toLowerCase()] throws
    when the selected type is truthy and not a text. *)
Definition determineOrderField (field1 field2 selectedType : value)
  : result value :=
  if (negb (truthy field1) && negb (truthy field2))%bool then Returned VNull
  else if (truthy field1 && negb (truthy field2))%bool then Returned field1
  else if (truthy field2 && negb (truthy field1))%bool then Returned field2
  else if (truthy field1 && truthy field2)%bool then
    let fallback :=
      Returned (if longer field1 field2 then field1 else field2) in
    if truthy selectedType then
      match selectedType with
      | VString st =>
          let typeHint := toLowerCase st in
          if (includes typeHint (lit "pickup")
              || includes typeHint (lit "delivery"))%bool
          then Returned field2
          else if includes typeHint (lit "order") then Returned field1
          else fallback
      | _ => Threw
      end
    else fallback
  else Returned (if truthy field1 then field1 else field2).

(** [rawOrder === orderField1 ? 'field1' : 'field2'], evaluated once the
    parse of [rawOrder] succeeded, that is on a text: a text is strictly
    equal to an equal text and to nothing else. *)
Definition orderSource (rawOrder orderField1 : value) : Source :=
  match rawOrder, orderField1 with
  | VString a, VString b =>
      if str_eqb a b then source_field1 else source_field2
  | _, _ => source_field2
  end.

(** [TimeClip]: the time value of a number, truncated to an integer; no
    time value beyond 8.64e15 ms. *)
Definition time_clip (n : num) : option Z :=
  match n with
  | Fin q =>
      if (Qle_bool (- (8640000000000000)) q
          && Qle_bool q 8640000000000000)%bool
      then Some (Z.quot (Qnum q) (Zpos (Qden q)))
      else None
  | _ => None
  end.

(** The time value of [new Date(v)]; [None] for an invalid date. *)
Definition new_Date (P : Platform) (v : value) : option Z :=
  match v with
  | VDate t => Some t
  | VString s => Date_parse P s
  | VNumber n => time_clip n
  | VBoolean b => Some (if b then 1 else 0)%Z
  | VNull => Some 0%Z
  | VUndefined => None
  end.

(** A row of [getValues()]: the twelve cells the loop destructures. *)
Record Row : Type := mkRow {
  r_timestamp : value;
  r_name : value;
  r_email : value;
  r_phone : value;
  r_location : value;
  r_room : value;
  r_orderType : value;
  r_orderField1 : value;
  r_orderField2 : value;
  r_store : value;
  r_paymentMethod : value;
  r_gcashRef : value
}.

Record OrderData : Type := mkOrderData {
  o_timestamp : value;
  o_name : value;
  o_email : value;
  o_phone : value;
  o_location : value;
  o_room : value;
  o_store : value;
  o_items : list Item;
  o_subtotal : num;
  o_deliveryFee : num;
  o_paymentMethod : value;
  o_gcashRef : value;
  o_orderType : option OrderType;
  o_selectedOrderType : value;
  o_orderSource : Source
}.

(** The key a value is as a property name. *)
Definition to_key (P : Platform) (v : value) : str :=
  match v with
  | VString s => s
  | VNumber n => Number_toString P n
  | VBoolean b => if b then lit "true" else lit "false"
  | VDate t => Date_toString P t
  | VNull => lit "null"
  | VUndefined => lit "undefined"
  end.

(** [storeGroups] is a plain object whose own properties are arrays of
    orders: it is given by the array under each key.  (The order of its
    keys plays no part: the code never enumerates them.) *)
Definition object : Type := str -> option (list OrderData).

Definition empty : object := fun _ => None.

(** The names every plain object inherits from [Object.prototype]. *)
Definition Object_prototype : list str := map lit [
  "constructor"; "hasOwnProperty"; "isPrototypeOf"; "propertyIsEnumerable";
  "toLocaleString"; "toString"; "valueOf"; "__proto__";
  "__defineGetter__"; "__defineSetter__"; "__lookupGetter__";
  "__lookupSetter__" ]%string.

Definition inherited (key : str) : bool :=
  existsb (str_eqb key) Object_prototype.

(** What [g[key]] is: an array of the object's own, a member of the
    prototype (a function or, for [__proto__], the prototype itself), or
    [undefined]. *)
Inductive member : Type :=
| array (l : list OrderData)
| prototype_member
| undefined.

Definition get (g : object) (key : str) : member :=
  match g key with
  | Some l => array l
  | None => if inherited key then prototype_member else undefined
  end.

Definition set (g : object) (key : str) (l : list OrderData) : object :=
  fun k => if str_eqb k key then Some l else g k.

(** [if (!g[key]) { g[key] = []; }  g[key].push(o)]: an array and a member
    of the prototype are truthy, and a member of the prototype has no
    [push]. *)
Definition push (key : str) (o : OrderData) (g : object) : result object :=
  match get g key with
  | undefined => Returned (set g key [o])
  | array l => Returned (set g key (l ++ [o]))
  | prototype_member => Threw
  end.

Record Summary : Type := mkSummary {
  totalOrders : nat;
  totalRevenue : num;
  totalDelivery : num;
  orders : list OrderData;
  storeGroups : object
}.

(** The body of [todayOrders.forEach]. *)
Definition process_row (P : Platform) (summary : Summary) (row : Row)
  : result Summary :=
  match determineOrderField (r_orderField1 row) (r_orderField2 row)
          (r_orderType row) with
  | Threw => Threw
  | Returned rawOrder =>
      if negb (truthy rawOrder) then Returned summary
      else
        let parseResult := parseOrderItemsEnhanced rawOrder in
        if negb (success parseResult) then Returned summary
        else
          let subtotal := subtotal_of (items parseResult) in
          let deliveryFee := calculateDeliveryFee (r_store row) in
          let orderData :=
            mkOrderData (r_timestamp row) (r_name row) (r_email row)
              (r_phone row) (r_location row) (r_room row) (r_store row)
              (items parseResult) subtotal deliveryFee
              (r_paymentMethod row) (r_gcashRef row) (type parseResult)
              (r_orderType row)
              (orderSource rawOrder (r_orderField1 row)) in
          match push (to_key P (r_store row)) orderData
                  (storeGroups summary) with
          | Threw => Threw
          | Returned groups =>
              Returned
                (mkSummary (totalOrders summary)
                   (num_add (totalRevenue summary) subtotal)
                   (num_add (totalDelivery summary) deliveryFee)
                   (orders summary ++ [orderData])
                   groups)
          end
  end.

(** [time >= start && time <= end] for [time = new Date(row[0])]. *)
Definition in_day (P : Platform) (start end_ : Z) (row : Row) : bool :=
  match new_Date P (r_timestamp row) with
  | Some time => (Z.leb start time && Z.leb time end_)%bool
  | None => false
  end.

(** One more row of [forEach]; a throw ends the loop. *)
Definition step (P : Platform) (acc : result Summary) (row : Row)
  : result Summary :=
  match acc with
  | Returned summary => process_row P summary row
  | Threw => Threw
  end.

(** The summary [sendDailySummary] builds from the rows of the sheet, or
    the throw that ends the run. *)
Definition sendDailySummary (P : Platform) (start end_ : Z)
    (rows : list Row) : result Summary :=
  let todayOrders := filter (in_day P start end_) rows in
  fold_left (step P) todayOrders
    (Returned (mkSummary (length todayOrders) (Fin 0) (Fin 0) [] empty)).

(** The amount on the line of an order: the text and the HTML show
    [subtotal + deliveryFee] for an itemized order and the fee alone
    otherwise; the PDF shows [subtotal + deliveryFee] for every order. *)
Definition text_collect (order : OrderData) : num :=
  match o_orderType order with
  | Some itemized => num_add (o_subtotal order) (o_deliveryFee order)
  | _ => o_deliveryFee order
  end.

Definition html_collect (order : OrderData) : num :=
  match o_orderType order with
  | Some itemized => num_add (o_subtotal order) (o_deliveryFee order)
  | _ => o_deliveryFee order
  end.

Definition pdf_total (order : OrderData) : num :=
  num_add (o_subtotal order) (o_deliveryFee order).

(** [totalRevenue + totalDelivery], the total collection of the header of
    every view. *)
Definition total_collection (summary : Summary) : num :=
  num_add (totalRevenue summary) (totalDelivery summary).

End Sheet.

(** ** Vocabulary of the properties *)

Definition final : cont := fun s c => Some (s, c).

Definition head_is (p : ascii -> bool) (s : str) : bool :=
  match s with
  | a :: _ => p a
  | [] => false
  end.

(** A quantity is ahead when the first character after leading white space
    is a digit. *)
Definition quantity_ahead (s : str) : bool :=
  head_is is_digit (dropWhile is_ws s).

Definition all (p : ascii -> bool) (s : str) : Prop :=
  Forall (fun a => p a = true) s.

(** The part of both patterns after the name group, up to the quantity. *)
Definition quantity_tail (R : regex) : regex :=
  Cat (PlusGreedy is_ws) (Cat (Group 2 (PlusGreedy is_digit)) R).

(** The rest of the itemized pattern: the price mark and the price. *)
Definition price_tail : regex :=
  Cat (StarGreedy is_ws)
  (Cat (Cls (is_char "@"))
  (Cat (StarGreedy is_ws)
       (Group 3 (Cat (PlusGreedy is_digit)
                     (Opt (Cat (Cls (is_char "."))
                          (Cat (Cls is_digit) (Cls is_digit)))))))).

(** The rest of the prepaid pattern. *)
Definition no_price_ahead : regex :=
  NegLookahead (Cat (StarGreedy is_ws) (Cls (is_char "@"))).

(** The text of a price: the integer digits, and a point before the
    fraction digits when there are some. *)
Definition price_text (ip fp : str) : str :=
  match fp with
  | [] => ip
  | _ :: _ => ip ++ "."%char :: fp
  end.

(** A pattern that needs the price mark fails on a text without one. *)
Definition needs_mark (K : cont) : Prop :=
  forall s c, ~ In "@"%char s -> K s c = None.

(** The characters of a name: letters, the underscore and white space. *)
Definition name_char (a : ascii) : bool :=
  ((is_word a && negb (is_digit a)) || is_ws a)%bool.

Definition non_ws (a : ascii) : Prop := is_ws a = false.

(** A pattern yields a fully valid item set on a text when it has at
    least one match and every match gives a valid item. *)
Definition valid_set (r : regex) (mk : captures -> Item)
    (valid : Item -> bool) (cleanText : str) : Prop :=
  matchAll r cleanText <> [] /\
  Forall (fun m => valid (mk m) = true) (matchAll r cleanText).

(** A store name mentions a zone list when the lower-cased name of one of
    its zones occurs inside the lower-cased store name. *)
Definition mentions_zone (zones : list str) (store : str) : Prop :=
  exists zone pre post,
    In zone zones /\ toLowerCase store = pre ++ toLowerCase zone ++ post.

(** The declared type mentions a word when the word occurs in it, letter
    case aside. *)
Definition mentions (selectedType : option str) (word : string) : Prop :=
  exists pre post,
    toLowerCase (text_of selectedType) = pre ++ lit word ++ post.

Definition by_time (a b : OrderData) : Prop :=
  (o_timestamp a <= o_timestamp b)%Z.

Definition at_time (t : Z) (o : OrderData) : bool :=
  Z.eqb (o_timestamp o) t.

(** The order a row of the sheet gives, when its text is selected and
    parsed. *)
Definition row_order (row : Row) : option OrderData :=
  let rawOrder :=
    determineOrderField (Some (r_orderField1 row))
      (Some (r_orderField2 row)) (Some (r_orderType row)) in
  if negb (truthy rawOrder) then None
  else
    let parseResult := parseOrderItemsEnhanced (VString (text_of rawOrder)) in
    if negb (success parseResult) then None
    else
      Some (mkOrderData (r_timestamp row) (r_name row) (r_email row)
              (r_phone row) (r_location row) (r_room row) (r_store row)
              (items parseResult) (subtotal_of (items parseResult))
              (calculateDeliveryFee (VString (r_store row)))
              (r_paymentMethod row) (r_gcashRef row) (type parseResult)
              (r_orderType row)
              (orderSource (text_of rawOrder) (r_orderField1 row))).

Definition in_day (start end_ : Z) (row : Row) : bool :=
  (Z.leb start (r_timestamp row) && Z.leb (r_timestamp row) end_)%bool.

Fixpoint orders_of_rows (rows : list Row) : list OrderData :=
  match rows with
  | [] => []
  | row :: rows' =>
      match row_order row with
      | Some o => o :: orders_of_rows rows'
      | None => orders_of_rows rows'
      end
  end.

Definition from_store (store : str) (o : OrderData) : bool :=
  str_eqb (o_store o) store.

Definition sum_of (l : list num) : num := fold_left num_add l (Fin 0).

(** The summary with its orders list replaced. *)
Definition with_orders (summary : Summary) (l : list OrderData) : Summary :=
  mkSummary (totalOrders summary) (totalRevenue summary)
    (totalDelivery summary) l (storeGroups summary).

(** The field of a row that a source tag names. *)
Definition tagged_field (data : Row) (tag : Source) : str :=
  match tag with
  | source_field1 => r_orderField1 data
  | source_field2 => r_orderField2 data
  end.

(** The terms are accepted and the address has an ['@']. *)
Definition complete (data : Row) : Prop :=
  r_termsAccepted data <> [] /\
  (exists pre post,
      toLowerCase (r_termsAccepted data) = pre ++ lit "agree" ++ post) /\
  In "@"%char (r_email data).

(** The total of one line of the subtotal:
    [item.quantity * (item.price || 0)]. *)
Definition line_total (item : Item) : num :=
  num_mul (quantity item) (num_or (price item) (Fin 0)).

(** An item whose line total is not a number: a quantity that reads as
    [Infinity], times a price of zero. *)
Definition overflowed (item : Item) : Prop :=
  quantity item = PInf /\ num_truthy (price item) = false.

(** The Number value of a run of digits and of a decimal numeral. *)
Definition integer_number (q : str) : num :=
  round_double (inject_Z (Z.of_N (digits_value 0 q))).

Definition decimal_number (ip fp : str) : num :=
  round_double (decimal_value ip fp).

(** A continuation that fails on every input without a character of the
    class [p]. *)
Definition fails_without (p : ascii -> bool) (K : cont) : Prop :=
  forall s c, existsb p s = false -> K s c = None.

(** The shape of a price the itemized pattern captures: digits, alone or
    followed by a point and two digits. *)
Definition price_shaped (p : str) : Prop :=
  exists ip fp,
    p = price_text ip fp /\ ip <> [] /\ all is_digit ip /\ all is_digit fp
    /\ (fp = [] \/ length fp = 2%nat).

(** The captures of a match of one of the two patterns. *)
Definition line_captures (priced : bool) (c : captures) : Prop :=
  exists u q,
    u <> [] /\ all is_word_or_ws u /\ q <> [] /\ all is_digit q /\
    if priced
    then exists p, price_shaped p /\
                   c = [(3%nat, p); (2%nat, q); (1%nat, u)]
    else c = [(2%nat, q); (1%nat, u)].

(** A name as the parser returns it: not empty, of letters, digits,
    underscores and white space, with no white space at either end. *)
Definition clean_name (s : str) : Prop :=
  s <> [] /\ all is_word_or_ws s /\ trim s = s.

(** A line item as the data model wants it, up to the range of the
    doubles: a clean name, a quantity that is a positive integer or
    [Infinity], and a price that is not negative or is [Infinity]. *)
Definition well_formed_item (it : Item) : Prop :=
  clean_name (name it)
  /\ (quantity it = PInf \/ exists n, (0 < n)%N /\ quantity it = num_of_N n)
  /\ (price it = PInf \/ exists p, 0 <= p /\ price it = Fin p).

(** Lines of an order text joined by commas. *)
Fixpoint join_lines (texts : list str) : str :=
  match texts with
  | [] => []
  | [t] => t
  | t :: ts => t ++ ","%char :: join_lines ts
  end.

(** What may follow a line: the end of the text or a comma. *)
Definition line_end (more : str) : Prop :=
  more = [] \/ exists more', more = ","%char :: more'.

(** A priced line: a name, white space, a quantity, the mark ['@'] with
    optional white space on either side, and a price. *)
Record PricedLine : Type := mkPricedLine {
  pl_name : str;
  pl_gap : str;
  pl_qty : str;
  pl_before : str;
  pl_after : str;
  pl_int : str;
  pl_frac : str
}.

Definition priced_text (e : PricedLine) : str :=
  pl_name e ++ pl_gap e ++ pl_qty e ++ pl_before e
  ++ "@"%char :: pl_after e ++ price_text (pl_int e) (pl_frac e).

Definition priced_ok (e : PricedLine) : Prop :=
  all name_char (pl_name e) /\ Exists non_ws (pl_name e)
  /\ pl_gap e <> [] /\ all is_ws (pl_gap e)
  /\ pl_qty e <> [] /\ all is_digit (pl_qty e)
  /\ (0 < digits_value 0 (pl_qty e))%N
  /\ all is_ws (pl_before e) /\ all is_ws (pl_after e)
  /\ pl_int e <> [] /\ all is_digit (pl_int e)
  /\ all is_digit (pl_frac e)
  /\ (pl_frac e = [] \/ length (pl_frac e) = 2%nat).

Definition priced_item (e : PricedLine) : Item :=
  mkItem (trim (pl_name e)) (integer_number (pl_qty e))
         (decimal_number (pl_int e) (pl_frac e)).

(** A plain line: a name, white space and a quantity. *)
Record PlainLine : Type := mkPlainLine {
  ql_name : str;
  ql_gap : str;
  ql_qty : str
}.

Definition plain_text (e : PlainLine) : str :=
  ql_name e ++ ql_gap e ++ ql_qty e.

Definition plain_ok (e : PlainLine) : Prop :=
  all name_char (ql_name e) /\ Exists non_ws (ql_name e)
  /\ ql_gap e <> [] /\ all is_ws (ql_gap e)
  /\ ql_qty e <> [] /\ all is_digit (ql_qty e)
  /\ (0 < digits_value 0 (ql_qty e))%N.

Definition plain_item (e : PlainLine) : Item :=
  mkItem (trim (ql_name e)) (integer_number (ql_qty e)) (Fin 0).

(** The order a row of cells gives, when its text is selected and
    parsed. *)
Definition cells_order (row : Sheet.Row) : option Sheet.OrderData :=
  match Sheet.determineOrderField (Sheet.r_orderField1 row)
          (Sheet.r_orderField2 row) (Sheet.r_orderType row) with
  | Sheet.Threw => None
  | Sheet.Returned rawOrder =>
      if negb (Sheet.truthy rawOrder) then None
      else
        let parseResult := parseOrderItemsEnhanced rawOrder in
        if negb (success parseResult) then None
        else
          Some (Sheet.mkOrderData (Sheet.r_timestamp row) (Sheet.r_name row)
                  (Sheet.r_email row) (Sheet.r_phone row)
                  (Sheet.r_location row) (Sheet.r_room row)
                  (Sheet.r_store row) (items parseResult)
                  (subtotal_of (items parseResult))
                  (calculateDeliveryFee (Sheet.r_store row))
                  (Sheet.r_paymentMethod row) (Sheet.r_gcashRef row)
                  (type parseResult) (Sheet.r_orderType row)
                  (Sheet.orderSource rawOrder (Sheet.r_orderField1 row)))
  end.

Fixpoint orders_of_cells (rows : list Sheet.Row) : list Sheet.OrderData :=
  match rows with
  | [] => []
  | row :: rows' =>
      match cells_order row with
      | Some o => o :: orders_of_cells rows'
      | None => orders_of_cells rows'
      end
  end.

(** A row on which the body of the loop throws: the selector throws, or
    the row gives an order whose store, as a key, names a member of
    [Object.prototype]. *)
Definition row_throws (P : Sheet.Platform) (row : Sheet.Row) : bool :=
  match Sheet.determineOrderField (Sheet.r_orderField1 row)
          (Sheet.r_orderField2 row) (Sheet.r_orderType row) with
  | Sheet.Threw => true
  | Sheet.Returned _ =>
      match cells_order row with
      | Some o => Sheet.inherited (Sheet.to_key P (Sheet.o_store o))
      | None => false
      end
  end.

(** The orders filed under a key of [storeGroups]. *)
Definition under_key (P : Sheet.Platform) (key : str) (o : Sheet.OrderData)
  : bool :=
  str_eqb (Sheet.to_key P (Sheet.o_store o)) key.

(** The sum of a list of whole amounts. *)
Definition total_of (l : list N) : N := fold_right N.add 0%N l.

(** The own properties of an object are not names of the prototype. *)
Definition own_ok (g : Sheet.object) : Prop :=
  forall key l, g key = Some l -> Sheet.inherited key = false.

(** A row of texts, as a row of cells: the time stamp is a date. *)
Definition cells_of (row : Row) : Sheet.Row :=
  Sheet.mkRow (VDate (r_timestamp row)) (VString (r_name row))
    (VString (r_email row)) (VString (r_phone row))
    (VString (r_location row)) (VString (r_room row))
    (VString (r_orderType row)) (VString (r_orderField1 row))
    (VString (r_orderField2 row)) (VString (r_store row))
    (VString (r_paymentMethod row)) (VString (r_gcashRef row)).

Definition cells_of_order (o : OrderData) : Sheet.OrderData :=
  Sheet.mkOrderData (VDate (o_timestamp o)) (VString (o_name o))
    (VString (o_email o)) (VString (o_phone o)) (VString (o_location o))
    (VString (o_room o)) (VString (o_store o)) (o_items o) (o_subtotal o)
    (o_deliveryFee o) (VString (o_paymentMethod o))
    (VString (o_gcashRef o)) (o_orderType o)
    (VString (o_selectedOrderType o)) (o_orderSource o).

(** ** Sample data *)

Definition sample_row : Row :=
  mkRow 0 (lit "Ana") (lit "ana@aup.edu") (lit "0917") (lit "Dorm A")
    (lit "101") (lit "Order") (lit "Burger 2 @80, Fries 1 @45.50")
    (lit "") (lit "AUP Cafeteria") (lit "GCash") (lit "REF1")
    (lit "I agree").

Definition sample_order : OrderDetails :=
  mkOrderDetails 0 (lit "Ana") (lit "ana@aup.edu") (lit "0917")
    (lit "Dorm A") (lit "101")
    [mkItem (lit "Burger") (Fin 2) (Fin 80);
     mkItem (lit "Fries") (Fin 1) (Fin (91 # 2))]
    (Fin (411 # 2)) (Fin 69) (Fin (549 # 2))
    (lit "AUP Cafeteria") (lit "GCash") (lit "REF1")
    (Some itemized) (lit "Order") source_field1.

(** A quantity of 309 digits, and a submission that orders it. *)
Definition huge_quantity : str := repeat "9"%char 309.

Definition huge_row : Row :=
  mkRow 0 (lit "Ana") (lit "ana@aup.edu") (lit "0917") (lit "Dorm A")
    (lit "101") (lit "") (lit "Burger " ++ huge_quantity)
    (lit "") (lit "AUP Cafeteria") (lit "GCash") (lit "REF1")
    (lit "I agree").

(** Three rows of one day: the second has text that neither pattern
    matches, and the rows are not in the order of their time stamps. *)
Definition day_row (t : Z) (who order store : string) : Row :=
  mkRow t (lit who) (lit "student@aup.edu") (lit "0917") (lit "Dorm A")
    (lit "101") (lit "") (lit order) (lit "") (lit store) (lit "COD")
    (lit "") (lit "I agree").

Definition day_rows : list Row :=
  [ day_row 30 "Ana" "Burger 2 @80" "AUP Cafeteria";
    day_row 20 "Ben" "Invalid format here" "Paseo";
    day_row 10 "Cy" "Fries 1" "Mini Stop" ].

(** Two rows of one day, the second from a store named as a member of
    [Object.prototype]. *)
Definition prototype_rows : list Row :=
  [ day_row 30 "Ana" "Burger 2 @80" "AUP Cafeteria";
    day_row 20 "Ben" "Fries 1" "constructor" ].

(** Two orders of one item at 0.10, from stores of fee 0 and 69. *)
Definition dime_rows : list Row :=
  [ day_row 10 "Ana" "Gum 1 @0.10" "Random Unknown Shop";
    day_row 20 "Ben" "Gum 1 @0.10" "AUP Cafeteria" ].

(** A platform for the examples: it reads no text as a date and writes
    numbers and dates as the empty text. *)
Definition sample_platform : Sheet.Platform :=
  Sheet.mkPlatform (fun _ => None) (fun _ => []) (fun _ => []).

Definition day_cells : list Sheet.Row := map cells_of day_rows.

(** * Properties *)

(** ** Character classes *)

Ltac by_cases_on_char a :=
  destruct a as [[] [] [] [] [] [] [] []]; vm_compute; congruence.

Lemma digit_not_ws (a : ascii) : is_digit a = true -> is_ws a = false.
Proof. by_cases_on_char a. Qed.

Lemma at_not_ws (a : ascii) : is_char "@" a = true -> is_ws a = false.
Proof. by_cases_on_char a. Qed.

Lemma at_not_digit (a : ascii) : is_char "@" a = true -> is_digit a = false.
Proof. by_cases_on_char a. Qed.

Lemma digit_word_or_ws (a : ascii) :
  is_digit a = true -> is_word_or_ws a = true.
Proof. by_cases_on_char a. Qed.

Lemma ws_word_or_ws (a : ascii) : is_ws a = true -> is_word_or_ws a = true.
Proof. by_cases_on_char a. Qed.

Lemma is_char_eq (c a : ascii) : is_char c a = true <-> a = c.
Proof.
  unfold is_char. rewrite Ascii.eqb_eq. split; congruence.
Qed.

(** ** Strings *)

Lemma starts_with_app (p s : str) : starts_with p (p ++ s) = true.
Proof.
  induction p as [|a p IH]; simpl; [reflexivity|].
  now rewrite Ascii.eqb_refl, IH.
Qed.

Lemma starts_with_prefix (p s : str) :
  starts_with p s = true -> exists post, s = p ++ post.
Proof.
  revert s. induction p as [|a p IH]; intros s H.
  - now exists s.
  - destruct s as [|b s]; simpl in H; [discriminate|].
    apply andb_true_iff in H. destruct H as [Hab H].
    apply Ascii.eqb_eq in Hab. subst b.
    destruct (IH _ H) as [post ->]. now exists post.
Qed.

(** [includes] decides the occurrence of [sub] somewhere in [s]. *)
Lemma includes_spec (s sub : str) :
  includes s sub = true <-> exists pre post, s = pre ++ sub ++ post.
Proof.
  split.
  - induction s as [|a s IH]; simpl; intros H.
    + rewrite orb_false_r in H.
      destruct (starts_with_prefix _ _ H) as [post ->]. now exists [], post.
    + apply orb_true_iff in H. destruct H as [H|H].
      * destruct (starts_with_prefix _ _ H) as [post ->]. now exists [], post.
      * destruct (IH H) as (pre & post & ->). now exists (a :: pre), post.
  - intros (pre & post & ->). induction pre as [|a pre IH].
    + simpl app. destruct (sub ++ post) eqn:E; simpl;
        rewrite <- ?E, starts_with_app; reflexivity.
    + simpl. rewrite IH. apply orb_true_r.
Qed.

Lemma includes_char (c : ascii) (s : str) :
  includes s [c] = existsb (is_char c) s.
Proof.
  induction s as [|a s IH]; [reflexivity|].
  simpl. rewrite <- IH. unfold is_char.
  now rewrite andb_true_r.
Qed.

Lemma str_eqb_eq (s t : str) : str_eqb s t = true <-> s = t.
Proof.
  unfold str_eqb. split.
  - intros H. apply andb_true_iff in H. destruct H as [Hl Hp].
    apply Nat.eqb_eq in Hl.
    destruct (starts_with_prefix _ _ Hp) as [post E]. subst t.
    rewrite length_app in Hl.
    destruct post; [now rewrite app_nil_r | simpl in Hl; lia].
  - intros <-. rewrite Nat.eqb_refl. simpl.
    rewrite <- (app_nil_r s) at 2. apply starts_with_app.
Qed.

Lemma dropWhile_all (p : ascii -> bool) (s : str) :
  Forall (fun a => p a = true) s -> dropWhile p s = [].
Proof.
  induction 1 as [|a s Ha _ IH]; simpl; [reflexivity|]. now rewrite Ha.
Qed.

Lemma dropWhile_app (p : ascii -> bool) (w s : str) :
  Forall (fun a => p a = true) w -> dropWhile p (w ++ s) = dropWhile p s.
Proof.
  induction 1 as [|a w Ha _ IH]; simpl; [reflexivity|]. now rewrite Ha.
Qed.

Lemma dropWhile_head (p : ascii -> bool) (a : ascii) (s : str) :
  p a = false -> dropWhile p (a :: s) = a :: s.
Proof. intros H. simpl. now rewrite H. Qed.

Lemma trim_all_ws (s : str) :
  Forall (fun a => is_ws a = true) s -> trim s = [].
Proof.
  intros H. unfold trim. now rewrite (dropWhile_all _ _ H).
Qed.

(** Trimming removes white space only, so it keeps every occurrence of a
    character that is not white space. *)
Lemma existsb_dropWhile (q : ascii -> bool) (s : str) :
  (forall a, q a = true -> is_ws a = false) ->
  existsb q (dropWhile is_ws s) = existsb q s.
Proof.
  intros Hq. induction s as [|a s IH]; [reflexivity|].
  simpl. destruct (is_ws a) eqn:Ha; [|reflexivity].
  rewrite IH. destruct (q a) eqn:Hqa; [|reflexivity].
  apply Hq in Hqa. congruence.
Qed.

Lemma existsb_rev (q : ascii -> bool) (s : str) :
  existsb q (rev s) = existsb q s.
Proof.
  induction s as [|a s IH]; [reflexivity|].
  simpl. rewrite existsb_app, IH. simpl.
  rewrite orb_false_r. apply orb_comm.
Qed.

Lemma existsb_trim (q : ascii -> bool) (s : str) :
  (forall a, q a = true -> is_ws a = false) ->
  existsb q (trim s) = existsb q s.
Proof.
  intros Hq. unfold trim.
  now rewrite existsb_rev, existsb_dropWhile, existsb_rev, existsb_dropWhile.
Qed.

(** ** Numbers: the nearest double *)

Lemma two_pow_pos (k : Z) : 0 < 2 ^ k.
Proof. apply Qpower_0_lt. reflexivity. Qed.

Lemma two_pow_plus (a b : Z) : 2 ^ (a + b) == 2 ^ a * 2 ^ b.
Proof. apply Qpower_plus. discriminate. Qed.

Lemma two_pow_cancel (k : Z) : 2 ^ k * 2 ^ (- k) == 1.
Proof.
  rewrite <- two_pow_plus. replace (k + - k)%Z with 0%Z by lia. reflexivity.
Qed.

Lemma two_pow_Z (j : Z) : (0 <= j)%Z -> 2 ^ j == inject_Z (2 ^ j).
Proof. intros H. now rewrite Zpower_Qpower. Qed.

Lemma two_pow_le (a b : Z) : (a <= b)%Z -> 2 ^ a <= 2 ^ b.
Proof. intros H. apply Qpower_le_compat_l; [assumption | discriminate]. Qed.

Lemma Qred_inject_Z (z : Z) : Qred (inject_Z z) = inject_Z z.
Proof.
  unfold Qred, inject_Z.
  generalize (Z.ggcd_gcd z 1) (Z.ggcd_correct_divisors z 1).
  destruct (Z.ggcd z 1) as (g, (r1, r2)). cbn [fst snd].
  intros Hg [H1 H2]. rewrite Z.gcd_1_r in Hg. subst g.
  rewrite Z.mul_1_l in H1, H2. subst. reflexivity.
Qed.

(** [floor_log2 x] is the exponent of the binade of [x]. *)
Lemma floor_log2_le (x : Q) : 0 < x -> 2 ^ floor_log2 x <= x.
Proof.
  intros Hx. unfold floor_log2.
  destruct (Qle_bool _ x) eqn:E; [now apply Qle_bool_iff|].
  destruct x as [n d]. cbn [Qnum Qden].
  assert (Hn : (0 < n)%Z) by (unfold Qlt in Hx; simpl in Hx; lia).
  set (a := Z.log2 n). set (b := Z.log2 (Z.pos d)).
  assert (Ha : (0 <= a)%Z) by apply Z.log2_nonneg.
  assert (Hb : (0 <= b)%Z) by apply Z.log2_nonneg.
  destruct (Z.log2_spec n Hn) as [Hn1 _]. fold a in Hn1.
  destruct (Z.log2_spec (Z.pos d) eq_refl) as [_ Hd2]. fold b in Hd2.
  rewrite (Qmake_Qdiv n d). apply Qle_shift_div_l; [reflexivity|].
  apply (Qle_trans _ (2 ^ (a - b - 1) * 2 ^ (b + 1))).
  - apply Qmult_le_l; [apply two_pow_pos|].
    rewrite (two_pow_Z (b + 1)) by lia. rewrite <- Zle_Qle.
    unfold Z.succ in Hd2. lia.
  - rewrite <- two_pow_plus. replace (a - b - 1 + (b + 1))%Z with a by lia.
    rewrite (two_pow_Z a) by lia. now rewrite <- Zle_Qle.
Qed.

Lemma floor_log2_lt (x : Q) : 0 < x -> x < 2 ^ (floor_log2 x + 1).
Proof.
  intros Hx. unfold floor_log2.
  destruct (Qle_bool _ x) eqn:E.
  - destruct x as [n d]. cbn [Qnum Qden].
    assert (Hn : (0 < n)%Z) by (unfold Qlt in Hx; simpl in Hx; lia).
    set (a := Z.log2 n). set (b := Z.log2 (Z.pos d)).
    assert (Ha : (0 <= a)%Z) by apply Z.log2_nonneg.
    assert (Hb : (0 <= b)%Z) by apply Z.log2_nonneg.
    destruct (Z.log2_spec n Hn) as [_ Hn2]. fold a in Hn2.
    destruct (Z.log2_spec (Z.pos d) eq_refl) as [Hd1 _]. fold b in Hd1.
    rewrite (Qmake_Qdiv n d). apply Qlt_shift_div_r; [reflexivity|].
    apply (Qlt_le_trans _ (2 ^ (a - b + 1) * 2 ^ b)).
    + rewrite <- two_pow_plus. replace (a - b + 1 + b)%Z with (a + 1)%Z by lia.
      rewrite (two_pow_Z (a + 1)) by lia. rewrite <- Zlt_Qlt.
      unfold Z.succ in Hn2. lia.
    + apply Qmult_le_l; [apply two_pow_pos|].
      rewrite (two_pow_Z b) by lia. now rewrite <- Zle_Qle.
  - replace (Z.log2 (Qnum x) - Z.log2 (Z.pos (Qden x)) - 1 + 1)%Z
      with (Z.log2 (Qnum x) - Z.log2 (Z.pos (Qden x)))%Z by lia.
    apply Qnot_le_lt. intros H. apply Qle_bool_iff in H. congruence.
Qed.

Lemma Qle_Qred (a x : Q) : a <= x -> a <= Qred x.
Proof.
  intros H. apply (Qle_trans _ x); [assumption|].
  apply Qle_lteq. right. apply Qeq_sym. apply Qred_correct.
Qed.

Lemma round_half_even_ge (z : Z) (y : Q) :
  inject_Z z <= y -> (z <= round_half_even y)%Z.
Proof.
  intros H. unfold round_half_even.
  assert (Hf : (z <= Qfloor y)%Z).
  { rewrite <- (Qfloor_Z z). now apply Qfloor_resp_le. }
  destruct (Qcompare _ _); [destruct (Z.even _)| |]; lia.
Qed.

Lemma round_half_even_int (z : Z) (y : Q) :
  y == inject_Z z -> round_half_even y = z.
Proof.
  intros H. unfold round_half_even.
  rewrite (Qfloor_comp _ _ H), Qfloor_Z.
  assert (E : Qcompare (y - inject_Z z) (1 # 2) = Lt).
  { apply Qlt_alt. rewrite H. unfold Qminus. rewrite Qplus_opp_r. reflexivity. }
  now rewrite E.
Qed.

Lemma round_pos_unfold (x : Q) :
  round_pos x =
  let k := ulp_exponent x in
  let r := inject_Z (round_half_even (x * 2 ^ (- k))) * 2 ^ k in
  if Qle_bool (2 ^ 1024) r then None else Some (Qred r).
Proof. reflexivity. Qed.

Ltac some_inv E q :=
  apply (f_equal (fun o => match o with Some v => v | None => q end)) in E;
  cbv beta iota in E; subst q.

Lemma round_pos_nonneg (x q : Q) :
  0 <= x -> round_pos x = Some q -> 0 <= q.
Proof.
  intros Hx. rewrite round_pos_unfold. cbv zeta.
  destruct (Qle_bool _ _); [discriminate|].
  intros E. some_inv E q. apply Qle_Qred.
  apply Qmult_le_0_compat; [|apply Qlt_le_weak, two_pow_pos].
  change 0 with (inject_Z 0). rewrite <- Zle_Qle.
  apply round_half_even_ge. change (inject_Z 0) with 0.
  apply Qmult_le_0_compat; [assumption | apply Qlt_le_weak, two_pow_pos].
Qed.

Lemma ulp_le (x : Q) : 1 <= x -> 2 ^ ulp_exponent x <= x.
Proof.
  intros Hx.
  assert (H0 : 0 < x) by (apply (Qlt_le_trans _ 1); [reflexivity | assumption]).
  pose proof (floor_log2_le x H0) as He.
  unfold ulp_exponent.
  destruct (Z.max_spec (floor_log2 x - 52) (-1074)) as [[_ ->]|[_ ->]].
  - apply (Qle_trans _ (2 ^ 0)); [now apply two_pow_le | exact Hx].
  - apply (Qle_trans _ (2 ^ floor_log2 x)); [apply two_pow_le; lia | exact He].
Qed.

Lemma round_pos_pos (x q : Q) :
  1 <= x -> round_pos x = Some q -> 0 < q.
Proof.
  intros Hx. rewrite round_pos_unfold. cbv zeta.
  destruct (Qle_bool _ _); [discriminate|].
  intros E. some_inv E q.
  apply (Qlt_le_trans _ (inject_Z 1 * 2 ^ ulp_exponent x)).
  - rewrite Qmult_1_l. apply two_pow_pos.
  - apply Qle_Qred. apply Qmult_le_compat_r;
      [|apply Qlt_le_weak, two_pow_pos].
    rewrite <- Zle_Qle. apply round_half_even_ge.
    change (inject_Z 1) with 1. rewrite <- (two_pow_cancel (ulp_exponent x)).
    apply Qmult_le_compat_r; [now apply ulp_le|].
    apply Qlt_le_weak, two_pow_pos.
Qed.

Lemma round_double_unfold (x : Q) :
  round_double x =
  match Qcompare x 0 with
  | Eq => Fin 0
  | Gt => match round_pos (Qred x) with Some q => Fin q | None => PInf end
  | Lt => match round_pos (- Qred x) with Some q => Fin (- q) | None => NInf end
  end.
Proof.
  unfold round_double. cbv zeta.
  now rewrite (Qcompare_comp (Qred x) x (Qred_correct x) 0 0 (Qeq_refl 0)).
Qed.

Lemma round_double_comp (x y : Q) : x == y -> round_double x = round_double y.
Proof.
  intros H. unfold round_double. now rewrite (Qred_complete x y H).
Qed.

Lemma round_double_nonneg (x : Q) :
  0 <= x ->
  round_double x = PInf \/ exists q, round_double x = Fin q /\ 0 <= q.
Proof.
  intros Hx. rewrite round_double_unfold.
  destruct (Qcompare_spec x 0) as [E|E|E].
  - right. exists 0. split; [reflexivity | apply Qle_refl].
  - exfalso. apply (Qlt_irrefl x). now apply (Qlt_le_trans _ 0).
  - destruct (round_pos (Qred x)) as [q|] eqn:Eq; [|now left].
    right. exists q. split; [reflexivity|].
    apply (round_pos_nonneg (Qred x)); [|assumption].
    rewrite Qred_correct. assumption.
Qed.

Lemma round_double_pos (x : Q) :
  1 <= x ->
  round_double x = PInf \/ exists q, round_double x = Fin q /\ 0 < q.
Proof.
  intros Hx. rewrite round_double_unfold.
  assert (H0 : 0 < x) by (apply (Qlt_le_trans _ 1); [reflexivity | assumption]).
  destruct (Qcompare_spec x 0) as [E|E|E].
  - exfalso. rewrite E in H0. discriminate.
  - exfalso. apply (Qlt_irrefl x). now apply (Qlt_trans _ 0).
  - destruct (round_pos (Qred x)) as [q|] eqn:Eq; [|now left].
    right. exists q. split; [reflexivity|].
    apply (round_pos_pos (Qred x)); [|assumption].
    rewrite Qred_correct. assumption.
Qed.

(** An integer in the range of the significand is its own double. *)
Lemma round_pos_small_integer (n : Z) :
  (0 < n < 2 ^ 53)%Z -> round_pos (inject_Z n) = Some (inject_Z n).
Proof.
  intros [Hn0 Hn]. rewrite round_pos_unfold. cbv zeta.
  set (x := inject_Z n).
  assert (H0 : 0 < x) by (unfold x; change 0 with (inject_Z 0);
                          now rewrite <- Zlt_Qlt).
  assert (He : (floor_log2 x < 53)%Z).
  { apply (Qpower_lt_compat_l_inv 2); [|reflexivity].
    apply (Qle_lt_trans _ x); [now apply floor_log2_le|].
    rewrite (two_pow_Z 53) by lia. unfold x. now rewrite <- Zlt_Qlt. }
  set (k := ulp_exponent x).
  assert (Hk : (k <= 0)%Z) by (unfold k, ulp_exponent; lia).
  assert (Ey : x * 2 ^ (- k) == inject_Z (n * 2 ^ (- k))).
  { rewrite inject_Z_mult, (two_pow_Z (- k)) by lia. reflexivity. }
  rewrite (round_half_even_int _ _ Ey).
  assert (Er : inject_Z (n * 2 ^ (- k)) * 2 ^ k == x).
  { rewrite inject_Z_mult, <- (two_pow_Z (- k)) by lia.
    rewrite <- Qmult_assoc, (Qmult_comm (2 ^ (- k))), two_pow_cancel.
    apply Qmult_1_r. }
  assert (Ho : Qle_bool (2 ^ 1024) (inject_Z (n * 2 ^ (- k)) * 2 ^ k) = false).
  { destruct (Qle_bool _ _) eqn:E; [|reflexivity].
    apply Qle_bool_iff in E. rewrite Er in E. exfalso.
    apply (Qlt_irrefl x). apply (Qlt_le_trans _ (2 ^ 53)).
    - rewrite (two_pow_Z 53) by lia. unfold x. now rewrite <- Zlt_Qlt.
    - apply (Qle_trans _ (2 ^ 1024)); [apply two_pow_le; lia | exact E]. }
  rewrite Ho. f_equal. rewrite (Qred_complete _ _ Er). apply Qred_inject_Z.
Qed.

Lemma round_double_small_integer (n : Z) :
  (0 <= n < 2 ^ 53)%Z -> round_double (inject_Z n) = Fin (inject_Z n).
Proof.
  intros [Hn0 Hn]. rewrite round_double_unfold, Qred_inject_Z.
  destruct (Qcompare_spec (inject_Z n) 0) as [E|E|E].
  - assert (n = 0)%Z by (unfold Qeq in E; cbn in E; lia). now subst.
  - exfalso. change 0 with (inject_Z 0) in E. rewrite <- Zlt_Qlt in E. lia.
  - change 0 with (inject_Z 0) in E. rewrite <- Zlt_Qlt in E.
    now rewrite round_pos_small_integer by lia.
Qed.

(** The double nearest to a positive integer is a positive integer, or
    the integer overflows. *)
Lemma round_double_integer (n : Z) :
  (0 < n)%Z ->
  round_double (inject_Z n) = PInf
  \/ exists z, (0 < z)%Z /\ round_double (inject_Z n) = Fin (inject_Z z).
Proof.
  intros Hn. destruct (Z.lt_ge_cases n (2 ^ 53)) as [Hs|Hl].
  { right. exists n. split; [assumption|].
    apply round_double_small_integer. lia. }
  rewrite round_double_unfold, Qred_inject_Z.
  set (x := inject_Z n).
  assert (H0 : 0 < x) by (unfold x; change 0 with (inject_Z 0);
                          now rewrite <- Zlt_Qlt).
  destruct (Qcompare_spec x 0) as [E|E|E].
  - exfalso. rewrite E in H0. discriminate.
  - exfalso. apply (Qlt_irrefl x). now apply (Qlt_trans _ 0).
  - clear E. rewrite round_pos_unfold. cbv zeta.
    destruct (Qle_bool _ _); [now left|]. right.
    assert (He : (53 <= floor_log2 x)%Z).
    { assert (53 < floor_log2 x + 1)%Z; [|lia].
      apply (Qpower_lt_compat_l_inv 2); [|reflexivity].
      apply (Qle_lt_trans _ x); [|now apply floor_log2_lt].
      rewrite (two_pow_Z 53) by lia. unfold x. now rewrite <- Zle_Qle. }
    set (k := ulp_exponent x).
    assert (Hk : (0 < k)%Z) by (unfold k, ulp_exponent; lia).
    set (m := round_half_even (x * 2 ^ (- k))).
    assert (Hm : (1 <= m)%Z).
    { apply round_half_even_ge. change (inject_Z 1) with 1.
      rewrite <- (two_pow_cancel k).
      apply Qmult_le_compat_r; [|apply Qlt_le_weak, two_pow_pos].
      apply ulp_le. apply (Qle_trans _ (2 ^ 53)); [discriminate|].
      rewrite (two_pow_Z 53) by lia. unfold x. now rewrite <- Zle_Qle. }
    exists (m * 2 ^ k)%Z. split.
    + apply Z.mul_pos_pos; [lia|]. apply Z.pow_pos_nonneg; lia.
    + f_equal. rewrite <- (Qred_inject_Z (m * 2 ^ k)). apply Qred_complete.
      rewrite inject_Z_mult, (two_pow_Z k) by lia. reflexivity.
Qed.

(** A rational from [2^1024] on is beyond the doubles. *)
Lemma round_pos_overflow (x : Q) : 2 ^ 1024 <= x -> round_pos x = None.
Proof.
  intros Hx.
  assert (H0 : 0 < x)
    by (apply (Qlt_le_trans _ (2 ^ 1024)); [apply two_pow_pos | exact Hx]).
  rewrite round_pos_unfold. cbv zeta.
  pose proof (floor_log2_le x H0) as Hlo.
  pose proof (floor_log2_lt x H0) as Hhi.
  set (e := floor_log2 x) in *.
  assert (He : (1024 <= e)%Z).
  { assert (1024 < e + 1)%Z; [|lia].
    apply (Qpower_lt_compat_l_inv 2); [|reflexivity].
    now apply (Qle_lt_trans _ x). }
  assert (Ek : ulp_exponent x = (e - 52)%Z)
    by (unfold ulp_exponent; fold e; lia).
  rewrite Ek.
  assert (Hm : (2 ^ 52 <= round_half_even (x * 2 ^ (- (e - 52))))%Z).
  { apply round_half_even_ge. rewrite <- (two_pow_Z 52) by lia.
    apply (Qle_trans _ (2 ^ e * 2 ^ (- (e - 52)))).
    - rewrite <- two_pow_plus. apply two_pow_le. lia.
    - apply Qmult_le_compat_r; [exact Hlo|].
      apply Qlt_le_weak, two_pow_pos. }
  assert (Hr : 2 ^ 1024
               <= inject_Z (round_half_even (x * 2 ^ (- (e - 52))))
                  * 2 ^ (e - 52)).
  { apply (Qle_trans _ (2 ^ 52 * 2 ^ (e - 52))).
    - rewrite <- two_pow_plus. apply two_pow_le. lia.
    - apply Qmult_le_compat_r; [|apply Qlt_le_weak, two_pow_pos].
      rewrite (two_pow_Z 52) by lia. now rewrite <- Zle_Qle. }
  apply Qle_bool_iff in Hr. now rewrite Hr.
Qed.

Lemma round_double_overflow (x : Q) : 2 ^ 1024 <= x -> round_double x = PInf.
Proof.
  intros Hx. rewrite round_double_unfold.
  assert (H0 : 0 < x)
    by (apply (Qlt_le_trans _ (2 ^ 1024)); [apply two_pow_pos | exact Hx]).
  destruct (Qcompare_spec x 0) as [E|E|E].
  - exfalso. rewrite E in H0. discriminate.
  - exfalso. apply (Qlt_irrefl x). now apply (Qlt_trans _ 0).
  - rewrite round_pos_overflow; [reflexivity|].
    now apply Qle_Qred.
Qed.

Lemma num_gt0_cases (a : num) :
  num_gt0 a = true -> a = PInf \/ exists q, a = Fin q /\ 0 < q.
Proof.
  destruct a as [q| | |]; simpl; try discriminate; [|now left].
  intros H. right. exists q. split; [reflexivity|].
  apply negb_true_iff in H. apply Qnot_le_lt. intros Hle.
  apply Qle_bool_iff in Hle. congruence.
Qed.

Lemma num_ge0_cases (a : num) :
  num_ge0 a = true -> a = PInf \/ exists q, a = Fin q /\ 0 <= q.
Proof.
  destruct a as [q| | |]; simpl; try discriminate; [|now left].
  intros H. right. exists q. split; [reflexivity|]. now apply Qle_bool_iff.
Qed.

Lemma num_gt0_truthy (a : num) : num_gt0 a = true -> num_truthy a = true.
Proof.
  intros H. destruct (num_gt0_cases a H) as [->|(q & -> & Hq)];
    [reflexivity|]. cbn [num_truthy]. apply negb_true_iff.
  destruct (Qeq_bool q 0) eqn:E; [|reflexivity].
  apply Qeq_bool_iff in E. rewrite E in Hq. discriminate.
Qed.

Lemma num_ge0_round (x : Q) : 0 <= x -> num_ge0 (round_double x) = true.
Proof.
  intros H. destruct (round_double_nonneg x H) as [->|(q & -> & Hq)];
    [reflexivity|]. now apply Qle_bool_iff.
Qed.

Lemma num_gt0_round (x : Q) : 1 <= x -> num_gt0 (round_double x) = true.
Proof.
  intros H. destruct (round_double_pos x H) as [->|(q & -> & Hq)];
    [reflexivity|]. cbn [num_gt0]. apply negb_true_iff.
  destruct (Qle_bool q 0) eqn:E; [|reflexivity].
  apply Qle_bool_iff in E. exfalso. apply (Qlt_irrefl q).
  now apply (Qle_lt_trans _ 0).
Qed.

Lemma num_add_nonneg (a b : num) :
  num_ge0 a = true -> num_ge0 b = true -> num_ge0 (num_add a b) = true.
Proof.
  intros Ha Hb.
  destruct (num_ge0_cases a Ha) as [->|(x & -> & Hx)];
    destruct (num_ge0_cases b Hb) as [->|(y & -> & Hy)]; try reflexivity.
  cbn [num_add]. apply num_ge0_round.
  apply (Qle_trans _ (0 + 0)); [apply Qle_refl|].
  now apply Qplus_le_compat.
Qed.

Lemma inf_times_pos (x : Q) : 0 < x -> inf_times true x = PInf.
Proof.
  intros H. unfold inf_times. apply Qgt_alt in H. now rewrite H.
Qed.

Lemma round_double_zero (x : Q) : x == 0 -> round_double x = Fin 0.
Proof. intros H. now rewrite (round_double_comp x 0 H). Qed.

(** ** All-or-nothing validation of a format attempt *)

Lemma filter_length_le {A : Type} (f : A -> bool) (l : list A) :
  (length (filter f l) <= length l)%nat.
Proof.
  induction l as [|x l IH]; simpl; [lia|].
  destruct (f x); simpl; lia.
Qed.

Lemma filter_all {A : Type} (f : A -> bool) (l : list A) :
  length (filter f l) = length l <-> forallb f l = true.
Proof.
  induction l as [|x l IH]; simpl; [tauto|].
  destruct (f x) eqn:Hx; simpl.
  - rewrite <- IH. split; lia.
  - pose proof (filter_length_le f l). split; [lia | discriminate].
Qed.

Lemma filter_id {A : Type} (f : A -> bool) (l : list A) :
  forallb f l = true -> filter f l = l.
Proof.
  induction l as [|x l IH]; simpl; [reflexivity|].
  intros H. apply andb_true_iff in H. destruct H as [Hx Hl].
  now rewrite Hx, IH.
Qed.

Lemma attempt_some (r : regex) (mk : captures -> Item)
    (valid : Item -> bool) (t : str) (its : list Item) :
  attempt r mk valid t = Some its ->
  valid_set r mk valid t /\ its = map mk (matchAll r t).
Proof.
  unfold attempt, valid_set.
  destruct (matchAll r t) as [|m ms] eqn:E; [discriminate|].
  remember (m :: ms) as l eqn:El.
  assert (Hlt : Nat.ltb 0 (length l) = true) by (subst l; reflexivity).
  rewrite Hlt.
  destruct (Nat.eqb _ _) eqn:Hlen; [|discriminate].
  intros [= <-]. apply Nat.eqb_eq, filter_all in Hlen.
  split; [split; [subst l; discriminate|] | now apply filter_id].
  apply Forall_forall. intros c Hc.
  rewrite forallb_forall in Hlen. apply Hlen. now apply in_map.
Qed.

Lemma attempt_none (r : regex) (mk : captures -> Item)
    (valid : Item -> bool) (t : str) :
  attempt r mk valid t = None <-> ~ valid_set r mk valid t.
Proof.
  split.
  - intros H [Hne Hall]. unfold attempt in H.
    destruct (matchAll r t) as [|m ms] eqn:E; [now apply Hne|].
    remember (m :: ms) as l eqn:El.
    assert (Hlt : Nat.ltb 0 (length l) = true) by (subst l; reflexivity).
    rewrite Hlt in H.
    destruct (Nat.eqb _ _) eqn:Hlen; [discriminate|].
    apply Nat.eqb_neq in Hlen. apply Hlen, filter_all, forallb_forall.
    intros it Hit. apply in_map_iff in Hit. destruct Hit as (c & <- & Hc).
    rewrite Forall_forall in Hall. now apply Hall.
  - intros H. destruct (attempt r mk valid t) as [its|] eqn:E; [|reflexivity].
    now apply attempt_some in E.
Qed.

(** ** The parser's outcomes *)

Lemma parseOrderText_cases (s : str) :
  (exists its,
      attempt itemizedPattern itemized_item itemized_valid (trim s) = Some its
      /\ parseOrderText s = parsed itemized its) \/
  (exists its,
      attempt itemizedPattern itemized_item itemized_valid (trim s) = None
      /\ attempt prepaidPattern prepaid_item prepaid_valid (trim s) = Some its
      /\ parseOrderText s = parsed prepaid its) \/
  (attempt itemizedPattern itemized_item itemized_valid (trim s) = None
   /\ attempt prepaidPattern prepaid_item prepaid_valid (trim s) = None
   /\ parseOrderText s = failure (classify_failure (trim s))).
Proof.
  unfold parseOrderText.
  destruct (attempt itemizedPattern _ _ _) as [its|]; [left; eauto|].
  destruct (attempt prepaidPattern _ _ _) as [its|]; [right; left; eauto|].
  right; right; auto.
Qed.

Lemma classify_failure_trim (s : str) :
  classify_failure (trim s) = classify_failure s.
Proof.
  unfold classify_failure, lit. simpl list_ascii_of_string.
  rewrite !includes_char.
  rewrite (existsb_trim _ s at_not_ws), (existsb_trim _ s digit_not_ws).
  reflexivity.
Qed.

Lemma existsb_is_char (c : ascii) (s : str) :
  existsb (is_char c) s = true <-> In c s.
Proof.
  rewrite existsb_exists. split.
  - intros (a & Ha & E). apply is_char_eq in E. now subst a.
  - intros H. exists c. split; [assumption | now apply is_char_eq].
Qed.

Lemma existsb_Exists (p : ascii -> bool) (s : str) :
  existsb p s = true <-> Exists (fun a => p a = true) s.
Proof.
  rewrite existsb_exists, Exists_exists. reflexivity.
Qed.

(** C5: empty or non-string input yields [empty_order]; for any other
    input, when neither pattern yields a fully valid item set, the result
    is [invalid_itemized_format] if the input contains ['@'], else
    [invalid_prepaid_format] if it contains a digit, else
    [unrecognizable_format]; and every failure is one of these cases. *)
Theorem parse_failure_classification :
  (forall v : value,
      (forall a s, v <> VString (a :: s)) ->
      parseOrderItemsEnhanced v = failure empty_order) /\
  (forall s : str,
      s <> [] ->
      ~ valid_set itemizedPattern itemized_item itemized_valid (trim s) ->
      ~ valid_set prepaidPattern prepaid_item prepaid_valid (trim s) ->
      (In "@"%char s ->
       parseOrderItemsEnhanced (VString s) = failure invalid_itemized_format)
      /\ (~ In "@"%char s -> Exists (fun a => is_digit a = true) s ->
          parseOrderItemsEnhanced (VString s) = failure invalid_prepaid_format)
      /\ (~ In "@"%char s -> ~ Exists (fun a => is_digit a = true) s ->
          parseOrderItemsEnhanced (VString s) = failure unrecognizable_format))
  /\
  (forall v : value,
      success (parseOrderItemsEnhanced v) = false ->
      (forall a s, v <> VString (a :: s)) \/
      (exists s, v = VString s /\ s <> [] /\
         ~ valid_set itemizedPattern itemized_item itemized_valid (trim s) /\
         ~ valid_set prepaidPattern prepaid_item prepaid_valid (trim s))).
Proof.
  split; [|split].
  - intros v Hv. destruct v as [| | | |[|a s]|]; try reflexivity.
    now destruct (Hv a s).
  - intros s Hne H1 H2.
    apply attempt_none in H1, H2.
    assert (E : parseOrderItemsEnhanced (VString s)
                = failure (classify_failure s)).
    { destruct s as [|a s]; [congruence|]. simpl.
      unfold parseOrderText. rewrite H1, H2.
      now rewrite classify_failure_trim. }
    rewrite E. unfold classify_failure, lit. simpl list_ascii_of_string.
    rewrite includes_char.
    repeat split.
    + intros Hat. apply existsb_is_char in Hat. now rewrite Hat.
    + intros Hat Hd. apply existsb_Exists in Hd. rewrite Hd.
      destruct (existsb (is_char "@") s) eqn:X; [|reflexivity].
      apply existsb_is_char in X. contradiction.
    + intros Hat Hd.
      destruct (existsb (is_char "@") s) eqn:X;
        [apply existsb_is_char in X; contradiction|].
      destruct (existsb is_digit s) eqn:Y; [|reflexivity].
      apply existsb_Exists in Y. contradiction.
  - intros v Hf. destruct v as [| | | |[|a s]|];
      try (left; intros; discriminate).
    right. exists (a :: s). split; [reflexivity|]. split; [discriminate|].
    simpl in Hf.
    destruct (parseOrderText_cases (a :: s))
      as [(its & _ & E)|[(its & _ & _ & E)|(H1 & H2 & _)]].
    + rewrite E in Hf. discriminate.
    + rewrite E in Hf. discriminate.
    + now rewrite <- !attempt_none.
Qed.

Lemma parse_failure_classification_witness :
  parseOrderItemsEnhanced VNull = failure empty_order /\
  parseOrderItemsEnhanced (VString (lit "Burger @80"))
    = failure invalid_itemized_format /\
  parseOrderItemsEnhanced (VString (lit "Burger two"))
    = failure unrecognizable_format.
Proof.
  split; [|split].
  - apply (proj1 parse_failure_classification). intros a s. discriminate.
  - apply (proj1 (proj2 parse_failure_classification) (lit "Burger @80")).
    + discriminate.
    + intros [H _]. apply H. vm_compute. reflexivity.
    + intros [H _]. apply H. vm_compute. reflexivity.
    + vm_compute. tauto.
  - apply (proj1 (proj2 parse_failure_classification) (lit "Burger two")).
    + discriminate.
    + intros [H _]. apply H. vm_compute. reflexivity.
    + intros [H _]. apply H. vm_compute. reflexivity.
    + simpl. intros H.
      repeat (destruct H as [H|H]; [discriminate|]). exact H.
    + intros H. apply existsb_Exists in H. vm_compute in H. discriminate.
Defined.

(** C10: a non-empty string of white space only passes the emptiness test,
    trims to the empty text, matches neither pattern, has no ['@'] and no
    digit, and so yields [unrecognizable_format], not [empty_order]. *)
Theorem whitespace_only_unrecognizable (s : str) :
  s <> [] ->
  Forall (fun a => is_ws a = true) s ->
  parseOrderItemsEnhanced (VString s) = failure unrecognizable_format /\
  error (parseOrderItemsEnhanced (VString s)) <> Some empty_order.
Proof.
  intros Hne Hws.
  assert (E : parseOrderItemsEnhanced (VString s)
              = failure unrecognizable_format).
  { destruct s as [|a s]; [congruence|].
    simpl. unfold parseOrderText. now rewrite (trim_all_ws _ Hws). }
  rewrite E. split; [reflexivity | discriminate].
Qed.

Lemma whitespace_only_unrecognizable_witness :
  parseOrderItemsEnhanced (VString [" "; "009"; " "]%char)
    = failure unrecognizable_format /\
  error (parseOrderItemsEnhanced (VString [" "; "009"; " "]%char))
    <> Some empty_order.
Proof.
  apply whitespace_only_unrecognizable.
  - discriminate.
  - repeat constructor.
Defined.

(** What a successful parse returns: the items of all the matches of one
    pattern, every one of them valid. *)
Lemma parse_success_inv (v : value) :
  success (parseOrderItemsEnhanced v) = true ->
  exists s, v = VString s /\
    ((type (parseOrderItemsEnhanced v) = Some itemized /\
      items (parseOrderItemsEnhanced v)
        = map itemized_item (matchAll itemizedPattern (trim s)) /\
      forallb itemized_valid (items (parseOrderItemsEnhanced v)) = true)
     \/
     (type (parseOrderItemsEnhanced v) = Some prepaid /\
      ~ valid_set itemizedPattern itemized_item itemized_valid (trim s) /\
      items (parseOrderItemsEnhanced v)
        = map prepaid_item (matchAll prepaidPattern (trim s)) /\
      forallb prepaid_valid (items (parseOrderItemsEnhanced v)) = true)).
Proof.
  intros Hs. destruct v as [| | | |[|a s]|]; try discriminate.
  exists (a :: s). split; [reflexivity|]. simpl in *.
  destruct (parseOrderText_cases (a :: s))
    as [(its & H1 & E)|[(its & H1 & H2 & E)|(_ & _ & E)]];
    rewrite E in *; [left|right|discriminate].
  - apply attempt_some in H1. destruct H1 as [[_ Hall] ->].
    repeat split. apply forallb_forall. intros it Hit.
    apply in_map_iff in Hit. destruct Hit as (c & <- & Hc).
    rewrite Forall_forall in Hall. now apply Hall.
  - apply attempt_none in H1.
    apply attempt_some in H2. destruct H2 as [[_ Hall] ->].
    repeat split; [assumption|]. apply forallb_forall. intros it Hit.
    apply in_map_iff in Hit. destruct Hit as (c & <- & Hc).
    rewrite Forall_forall in Hall. now apply Hall.
Qed.




(** ** Fee classifier *)

Lemma zone_match_spec (zones : list str) (store : str) :
  zone_match zones (toLowerCase store) = true <-> mentions_zone zones store.
Proof.
  unfold zone_match, mentions_zone. rewrite existsb_exists. split.
  - intros (zone & Hin & H). apply includes_spec in H.
    destruct H as (pre & post & H). now exists zone, pre, post.
  - intros (zone & pre & post & Hin & H). exists zone.
    split; [assumption|]. apply includes_spec. now exists pre, post.
Qed.

Lemma zone_match_false (zones : list str) (store : str) :
  ~ mentions_zone zones store -> zone_match zones (toLowerCase store) = false.
Proof.
  intros H. destruct (zone_match zones (toLowerCase store)) eqn:E;
    [|reflexivity].
  now apply zone_match_spec in E.
Qed.

Lemma fee_of_string (s : str) :
  calculateDeliveryFee (VString s) =
  if zone_match veryFar (toLowerCase s) then Fin 199
  else if zone_match far (toLowerCase s) then Fin 99
  else if zone_match near (toLowerCase s) then Fin 69
  else Fin 0.
Proof. destruct s; reflexivity. Qed.

(** C7: the fee is decided by case-insensitive containment of a zone name
    in the store name, the very far list first (199), then the far list
    (99), then the near list (69); no match, an empty name or a value that
    is not a string give 0. *)
Theorem fee_by_ordered_zones :
  (forall s : str,
      mentions_zone veryFar s -> calculateDeliveryFee (VString s) = Fin 199)
  /\ (forall s : str,
      ~ mentions_zone veryFar s -> mentions_zone far s ->
      calculateDeliveryFee (VString s) = Fin 99)
  /\ (forall s : str,
      ~ mentions_zone veryFar s -> ~ mentions_zone far s ->
      mentions_zone near s ->
      calculateDeliveryFee (VString s) = Fin 69)
  /\ (forall s : str,
      ~ mentions_zone veryFar s -> ~ mentions_zone far s ->
      ~ mentions_zone near s ->
      calculateDeliveryFee (VString s) = Fin 0)
  /\ (forall v : value,
      (forall a s, v <> VString (a :: s)) -> calculateDeliveryFee v = Fin 0)
  /\ calculateDeliveryFee (VString (lit "SM City Sta. Rosa")) = Fin 199
  /\ calculateDeliveryFee (VString (lit "AUP Cafeteria")) = Fin 69
  /\ calculateDeliveryFee (VString (lit "Random Unknown Shop")) = Fin 0.
Proof.
  split; [|split; [|split; [|split; [|split; [|split; [|split]]]]]].
  - intros s H. rewrite fee_of_string.
    apply zone_match_spec in H. now rewrite H.
  - intros s H1 H2. rewrite fee_of_string.
    apply zone_match_false in H1. apply zone_match_spec in H2.
    now rewrite H1, H2.
  - intros s H1 H2 H3. rewrite fee_of_string.
    apply zone_match_false in H1, H2. apply zone_match_spec in H3.
    now rewrite H1, H2, H3.
  - intros s H1 H2 H3. rewrite fee_of_string.
    apply zone_match_false in H1, H2, H3. now rewrite H1, H2, H3.
  - intros v Hv. destruct v as [| | | |[|a s]|]; try reflexivity.
    now destruct (Hv a s).
  - vm_compute. reflexivity.
  - vm_compute. reflexivity.
  - vm_compute. reflexivity.
Qed.

Lemma fee_by_ordered_zones_witness :
  calculateDeliveryFee (VString (lit "sm city sta. rosa branch")) = Fin 199
  /\ calculateDeliveryFee (VBoolean true) = Fin 0.
Proof.
  split.
  - apply (proj1 fee_by_ordered_zones).
    exists (lit "SM City Sta. Rosa"), [], (lit " branch").
    split; [|reflexivity]. simpl. tauto.
  - apply (proj1 (proj2 (proj2 (proj2 (proj2 fee_by_ordered_zones))))).
    intros a s. discriminate.
Defined.

(** ** Field selector *)

Lemma mentions_includes (selectedType : option str) (word : string) :
  includes (toLowerCase (text_of selectedType)) (lit word) = true
  <-> mentions selectedType word.
Proof. apply includes_spec. Qed.

Lemma mentions_truthy (selectedType : option str) (word : string) :
  lit word <> [] -> mentions selectedType word -> truthy selectedType = true.
Proof.
  intros Hw (pre & post & H).
  destruct selectedType as [[|a s]|]; try reflexivity; simpl in H;
    destruct pre; simpl in H; try discriminate;
    destruct (lit word); simpl in H; congruence.
Qed.

Lemma not_mentions (selectedType : option str) (word : string) :
  ~ mentions selectedType word ->
  includes (toLowerCase (text_of selectedType)) (lit word) = false.
Proof.
  intros H. destruct (includes _ _) eqn:E; [|reflexivity].
  now apply mentions_includes in E.
Qed.

(** C8: no field filled gives [null]; one field filled gives that field,
    and the source computed from it names it; with both filled, a declared
    type that mentions "pickup" or "delivery" selects field 2, otherwise
    one that mentions "order" selects field 1, otherwise the strictly
    longer field is selected and field 2 on equal lengths. *)
Theorem field_selection (field1 field2 selectedType : option str) :
  (truthy field1 = false -> truthy field2 = false ->
   determineOrderField field1 field2 selectedType = None)
  /\ (truthy field1 = true -> truthy field2 = false ->
      determineOrderField field1 field2 selectedType = field1 /\
      orderSource (text_of field1) (text_of field1) = source_field1)
  /\ (truthy field1 = false -> truthy field2 = true ->
      determineOrderField field1 field2 selectedType = field2 /\
      orderSource (text_of field2) (text_of field1) = source_field2)
  /\ (truthy field1 = true -> truthy field2 = true ->
      (mentions selectedType "pickup" \/ mentions selectedType "delivery" ->
       determineOrderField field1 field2 selectedType = field2)
      /\ (~ mentions selectedType "pickup" ->
          ~ mentions selectedType "delivery" ->
          mentions selectedType "order" ->
          determineOrderField field1 field2 selectedType = field1)
      /\ (~ mentions selectedType "pickup" ->
          ~ mentions selectedType "delivery" ->
          ~ mentions selectedType "order" ->
          (length (text_of field2) < length (text_of field1))%nat ->
          determineOrderField field1 field2 selectedType = field1)
      /\ (~ mentions selectedType "pickup" ->
          ~ mentions selectedType "delivery" ->
          ~ mentions selectedType "order" ->
          (length (text_of field1) <= length (text_of field2))%nat ->
          determineOrderField field1 field2 selectedType = field2)).
Proof.
  unfold determineOrderField.
  split; [|split; [|split]]; intros H1 H2; rewrite ?H1, ?H2; simpl.
  - reflexivity.
  - split; [reflexivity|]. unfold orderSource.
    now rewrite (proj2 (str_eqb_eq (text_of field1) (text_of field1)) eq_refl).
  - split; [reflexivity|]. unfold orderSource.
    destruct (str_eqb (text_of field2) (text_of field1)) eqn:E;
      [|reflexivity].
    apply str_eqb_eq in E. unfold truthy in H1, H2.
    destruct field1 as [f1|], field2 as [f2|]; simpl in E; subst;
      try congruence; simpl in *; congruence.
  - split; [|split; [|split]].
    + intros [Hp|Hd]; unfold type_hint.
      * rewrite (mentions_truthy _ "pickup") by (discriminate || assumption).
        apply mentions_includes in Hp. now rewrite Hp.
      * rewrite (mentions_truthy _ "delivery")
          by (discriminate || assumption).
        apply mentions_includes in Hd. rewrite Hd. now rewrite orb_true_r.
    + intros Hp Hd Ho. unfold type_hint.
      rewrite (mentions_truthy _ "order") by (discriminate || assumption).
      rewrite (not_mentions _ _ Hp), (not_mentions _ _ Hd).
      apply mentions_includes in Ho. now rewrite Ho.
    + intros Hp Hd Ho Hlen. unfold type_hint.
      rewrite (not_mentions _ _ Hp), (not_mentions _ _ Hd),
        (not_mentions _ _ Ho).
      apply Nat.ltb_lt in Hlen. rewrite Hlen.
      now destruct (truthy selectedType).
    + intros Hp Hd Ho Hlen. unfold type_hint.
      rewrite (not_mentions _ _ Hp), (not_mentions _ _ Hd),
        (not_mentions _ _ Ho).
      apply Nat.ltb_ge in Hlen. rewrite Hlen.
      now destruct (truthy selectedType).
Qed.

Lemma field_selection_witness :
  determineOrderField (Some (lit "Burger 2 @80")) (Some (lit "")) (Some (lit "Order"))
    = Some (lit "Burger 2 @80")
  /\ determineOrderField (Some (lit "")) (Some (lit "Pickup Fries 1"))
       (Some (lit "Pickup")) = Some (lit "Pickup Fries 1")
  /\ determineOrderField (Some (lit "Short"))
       (Some (lit "A much longer detailed order description")) (Some (lit ""))
     = Some (lit "A much longer detailed order description")
  /\ determineOrderField (Some (lit "Burger 2 @80")) (Some (lit "Fries 1"))
       (Some (lit "PICKUP order")) = Some (lit "Fries 1")
  /\ determineOrderField None (Some (lit "")) None = None.
Proof.
  split; [|split; [|split; [|split]]].
  - apply (proj1 (proj2 (field_selection (Some (lit "Burger 2 @80"))
                           (Some (lit "")) (Some (lit "Order")))));
      reflexivity.
  - apply (proj1 (proj2 (proj2 (field_selection (Some (lit ""))
                                  (Some (lit "Pickup Fries 1"))
                                  (Some (lit "Pickup"))))));
      reflexivity.
  - destruct (proj2 (proj2 (proj2 (field_selection (Some (lit "Short"))
               (Some (lit "A much longer detailed order description"))
               (Some (lit ""))))) eq_refl eq_refl) as (_ & _ & _ & H).
    apply H; try (intros (pre & post & E); destruct pre; discriminate).
    simpl. lia.
  - destruct (proj2 (proj2 (proj2 (field_selection
               (Some (lit "Burger 2 @80")) (Some (lit "Fries 1"))
               (Some (lit "PICKUP order"))))) eq_refl eq_refl) as (H & _).
    apply H. left. exists [], (lit " order"). reflexivity.
  - apply (proj1 (field_selection None (Some (lit "")) None)); reflexivity.
Defined.

(** ** Order builder *)

(** The total of a line of a valid item is not negative, except that an
    infinite quantity times a price of zero is not a number. *)
Lemma line_total_cases (it : Item) :
  num_gt0 (quantity it) = true -> num_ge0 (price it) = true ->
  (overflowed it /\ line_total it = NaN)
  \/ (~ overflowed it /\ num_ge0 (line_total it) = true).
Proof.
  unfold overflowed, line_total, num_or. intros Hq Hp.
  destruct (num_truthy (price it)) eqn:Et.
  - right. split; [intros [_ H]; discriminate|].
    destruct (num_ge0_cases _ Hp) as [Ep|(p & Ep & Hp0)]; rewrite Ep in *;
      destruct (num_gt0_cases _ Hq) as [Eq|(q & Eq & Hq0)]; rewrite Eq.
    + reflexivity.
    + cbn [num_mul]. now rewrite inf_times_pos.
    + cbn [num_mul]. rewrite inf_times_pos; [reflexivity|].
      apply Qle_lteq in Hp0. destruct Hp0 as [Hp0|Hp0]; [assumption|].
      cbn [num_truthy] in Et. apply negb_true_iff in Et.
      assert (Qeq_bool p 0 = true); [|congruence].
      apply Qeq_bool_iff. now symmetry.
    + cbn [num_mul]. apply num_ge0_round.
      apply Qmult_le_0_compat; [now apply Qlt_le_weak | assumption].
  - destruct (num_gt0_cases _ Hq) as [Eq|(q & Eq & Hq0)]; rewrite Eq.
    + left. split; [now split | reflexivity].
    + right. split; [intros [H _]; discriminate|].
      cbn [num_mul]. apply num_ge0_round.
      apply Qmult_le_0_compat; [now apply Qlt_le_weak | apply Qle_refl].
Qed.

Lemma subtotal_of_fold (its : list Item) :
  subtotal_of its
  = fold_left (fun sum item => num_add sum (line_total item)) its (Fin 0).
Proof. reflexivity. Qed.

Lemma fold_line_total_NaN (its : list Item) :
  fold_left (fun sum item => num_add sum (line_total item)) its NaN = NaN.
Proof. induction its as [|it its IH]; [reflexivity | exact IH]. Qed.

(** The subtotal of items with a positive quantity and a price that is
    not negative: not a number exactly when a line overflowed, and not
    negative otherwise. *)
Lemma subtotal_cases (its : list Item) (a : num) :
  num_ge0 a = true ->
  Forall (fun it => num_gt0 (quantity it) = true
                    /\ num_ge0 (price it) = true) its ->
  let r := fold_left (fun sum item => num_add sum (line_total item)) its a in
  (Exists overflowed its /\ r = NaN)
  \/ (~ Exists overflowed its /\ num_ge0 r = true).
Proof.
  intros Ha Hall. revert a Ha.
  induction Hall as [|it its [Hq Hp] _ IH]; intros a Ha; cbv zeta.
  - right. split; [intros H; inversion H | exact Ha].
  - cbn [fold_left].
    destruct (line_total_cases it Hq Hp) as [(Ho & E)|(Ho & Hge)].
    + left. split; [now left|]. rewrite E.
      replace (num_add a NaN) with NaN by now destruct a.
      apply fold_line_total_NaN.
    + destruct (IH (num_add a (line_total it)))
        as [(He & E)|(He & Hr)]; [now apply num_add_nonneg| |].
      * left. split; [now right | exact E].
      * right. split; [|exact Hr].
        intros H. inversion H; subst; contradiction.
Qed.

Lemma valid_items_priced (its : list Item) :
  forallb itemized_valid its = true ->
  Forall (fun it => num_gt0 (quantity it) = true
                    /\ num_ge0 (price it) = true) its.
Proof.
  intros H. apply Forall_forall. intros it Hit.
  rewrite forallb_forall in H. specialize (H it Hit).
  unfold itemized_valid in H.
  apply andb_true_iff in H. destruct H as [H Hp].
  apply andb_true_iff in H. destruct H as [_ Hq]. now split.
Qed.

Lemma prepaid_items_priced (ms : list captures) :
  forallb prepaid_valid (map prepaid_item ms) = true ->
  Forall (fun it => num_gt0 (quantity it) = true
                    /\ num_ge0 (price it) = true) (map prepaid_item ms).
Proof.
  intros H. apply Forall_forall. intros it Hit.
  rewrite forallb_forall in H. specialize (H it Hit).
  unfold prepaid_valid in H. apply andb_true_iff in H. destruct H as [_ Hq].
  apply in_map_iff in Hit. destruct Hit as (m & <- & _). now split.
Qed.

(** The items of a successful parse have a positive quantity and a price
    that is not negative. *)
Lemma parsed_items_priced (v : value) :
  success (parseOrderItemsEnhanced v) = true ->
  Forall (fun it => num_gt0 (quantity it) = true
                    /\ num_ge0 (price it) = true)
    (items (parseOrderItemsEnhanced v)).
Proof.
  intros Hs. destruct (parse_success_inv v Hs) as (s & _ & Hcases).
  destruct Hcases as [(_ & _ & Hv)|(_ & _ & Hi & Hv)].
  - now apply valid_items_priced.
  - rewrite Hi in *. now apply prepaid_items_priced.
Qed.

(** The subtotal of prepaid items is zero while every quantity is finite,
    and is not a number otherwise. *)
Lemma subtotal_prepaid (ms : list captures) (a : num) :
  a = Fin 0 \/ a = NaN ->
  forallb prepaid_valid (map prepaid_item ms) = true ->
  let r := fold_left (fun sum item => num_add sum (line_total item))
             (map prepaid_item ms) a in
  r = Fin 0 \/ r = NaN.
Proof.
  revert a. induction ms as [|m ms IH]; intros a Ha Hv; cbv zeta.
  - exact Ha.
  - cbn [map fold_left]. cbn [map forallb] in Hv.
    apply andb_true_iff in Hv. destruct Hv as [Hit Hv].
    apply IH; [|exact Hv].
    unfold prepaid_valid in Hit. apply andb_true_iff in Hit.
    destruct Hit as [_ Hq].
    unfold line_total. cbn [prepaid_item quantity price] in *.
    change (num_or (Fin 0) (Fin 0)) with (Fin 0).
    destruct Ha as [->| ->]; [|now right].
    destruct (num_gt0_cases _ Hq) as [->|(q & -> & _)].
    + right. reflexivity.
    + left. cbn [num_mul]. rewrite (round_double_zero (q * 0)) by ring.
      reflexivity.
Qed.

Lemma fee_is_number (v : value) :
  exists f, calculateDeliveryFee v = Fin f /\ 0 <= f.
Proof.
  destruct v as [| | | |s|]; try (exists 0; split; [reflexivity|apply Qle_refl]).
  rewrite fee_of_string.
  destruct (zone_match veryFar _);
    [exists 199; split; [reflexivity | discriminate]|].
  destruct (zone_match far _);
    [exists 99; split; [reflexivity | discriminate]|].
  destruct (zone_match near _);
    [exists 69; split; [reflexivity | discriminate]|].
  exists 0. split; [reflexivity | apply Qle_refl].
Qed.

(** The subtotal of the items of a successful parse. *)
Lemma parsed_subtotal (v : value) :
  success (parseOrderItemsEnhanced v) = true ->
  let its := items (parseOrderItemsEnhanced v) in
  (subtotal_of its = NaN <-> Exists overflowed its)
  /\ (subtotal_of its <> NaN -> num_ge0 (subtotal_of its) = true)
  /\ (type (parseOrderItemsEnhanced v) = Some itemized
      \/ (type (parseOrderItemsEnhanced v) = Some prepaid
          /\ (subtotal_of its = Fin 0 \/ subtotal_of its = NaN))).
Proof.
  intros Hs. cbv zeta.
  pose proof (subtotal_cases _ (Fin 0) eq_refl (parsed_items_priced _ Hs))
    as Hsub. cbv zeta in Hsub. rewrite <- subtotal_of_fold in Hsub.
  split; [|split].
  - destruct Hsub as [(He & E)|(He & Hge)]; [tauto|].
    split; [|tauto]. intros E. rewrite E in Hge. discriminate.
  - destruct Hsub as [(He & E)|(He & Hge)]; [congruence | intros _; exact Hge].
  - destruct (parse_success_inv _ Hs) as (s & _ & Hcases).
    destruct Hcases as [(Ht & _)|(Ht & _ & Hi & Hv)]; [now left|].
    right. split; [exact Ht|].
    rewrite subtotal_of_fold, Hi. rewrite Hi in Hv.
    apply (subtotal_prepaid _ (Fin 0)); [now left | exact Hv].
Qed.

(** C9 (amended): for every order the builder assembles, the total is the
    one addition [subtotal + deliveryFee] and the fee is a number that is
    not negative.  The subtotal is not a number exactly when an item has a
    quantity that reads as [Infinity] and a price of zero; otherwise it is
    not negative (it can be [Infinity]).  The subtotal of a prepaid order
    is zero, unless it is not a number. *)
Theorem order_totals (alreadyReceipted : bool) (data : Row)
    (o : OrderDetails) :
  onFormSubmit alreadyReceipted data = Accepted o ->
  od_total o = num_add (od_subtotal o) (od_deliveryFee o)
  /\ (exists f, od_deliveryFee o = Fin f /\ 0 <= f)
  /\ (od_subtotal o = NaN <-> Exists overflowed (od_items o))
  /\ (od_subtotal o <> NaN -> num_ge0 (od_subtotal o) = true)
  /\ (od_orderType o = Some prepaid ->
      od_subtotal o = Fin 0 \/ od_subtotal o = NaN).
Proof.
  unfold onFormSubmit. destruct alreadyReceipted; [discriminate|].
  destruct (_ || _)%bool; [discriminate|].
  destruct (negb (truthy _)); [discriminate|].
  set (raw := text_of _).
  destruct (success (parseOrderItemsEnhanced (VString raw))) eqn:Hs;
    cbn [negb]; [|discriminate].
  intros E.
  apply (f_equal (fun x => match x with Accepted d => d | _ => o end)) in E.
  cbv beta iota in E. subst o.
  cbn [od_total od_subtotal od_deliveryFee od_orderType od_items].
  split; [reflexivity|].
  split; [apply fee_is_number|].
  pose proof (subtotal_cases _ (Fin 0) eq_refl (parsed_items_priced _ Hs))
    as Hsub. cbv zeta in Hsub. rewrite <- subtotal_of_fold in Hsub.
  split; [|split].
  - destruct Hsub as [(He & E)|(He & Hge)]; [tauto|].
    split; [|tauto]. intros E. rewrite E in Hge. discriminate.
  - destruct Hsub as [(He & E)|(He & Hge)]; [congruence | intros _; exact Hge].
  - intros Ht. destruct (parse_success_inv _ Hs) as (s & _ & Hcases).
    destruct Hcases as [(Ht' & _)|(_ & _ & Hi & Hv)]; [congruence|].
    rewrite subtotal_of_fold, Hi. rewrite Hi in Hv.
    apply (subtotal_prepaid _ (Fin 0)); [now left | exact Hv].
Qed.

Lemma sample_order_built :
  onFormSubmit false sample_row = Accepted sample_order.
Proof. vm_compute. reflexivity. Qed.

Lemma order_totals_witness :
  od_total sample_order
    = num_add (od_subtotal sample_order) (od_deliveryFee sample_order).
Proof.
  exact (proj1 (order_totals false sample_row sample_order sample_order_built)).
Defined.

(** C9 (as stated) fails: a quantity of 309 digits reads as [Infinity],
    which is positive, so the line is accepted as a prepaid order; its
    subtotal is [Infinity * 0], which is not a number, and so is its
    total. *)
Lemma prepaid_subtotal_not_a_number :
  parseInt huge_quantity = PInf
  /\ exists o,
       onFormSubmit false huge_row = Accepted o
       /\ od_orderType o = Some prepaid
       /\ od_items o = [mkItem (lit "Burger") PInf (Fin 0)]
       /\ od_subtotal o = NaN
       /\ od_total o = NaN
       /\ num_ge0 (od_subtotal o) = false.
Proof.
  split; [vm_compute; reflexivity|].
  eexists. split; [vm_compute; reflexivity|].
  repeat split.
Qed.

(** ** Daily aggregator *)

Lemma process_row_totalOrders (summary : Summary) (row : Row) :
  totalOrders (process_row summary row) = totalOrders summary.
Proof.
  unfold process_row.
  destruct (negb (truthy _)); [reflexivity|].
  destruct (negb (success _)); reflexivity.
Qed.

Lemma fold_process_row_totalOrders (rows : list Row) (summary : Summary) :
  totalOrders (fold_left process_row rows summary) = totalOrders summary.
Proof.
  revert summary. induction rows as [|row rows IH]; intros summary.
  - reflexivity.
  - simpl. rewrite IH. apply process_row_totalOrders.
Qed.

(** C1 (as the code behaves): [totalOrders] is the number of rows of the
    day, set before the rows are processed and left alone by the rows that
    are skipped; for three rows of which the second has unparsable text
    the summary lists two orders and has [totalOrders = 3]. *)
Theorem totalOrders_counts_skipped_rows :
  (forall start end_ rows,
      totalOrders (dailySummary start end_ rows)
      = length (filter (fun row => (Z.leb start (r_timestamp row)
                                    && Z.leb (r_timestamp row) end_)%bool)
                       rows))
  /\ totalOrders (dailySummary 0 100 day_rows) = 3%nat
  /\ map o_name (orders (dailySummary 0 100 day_rows)) = [lit "Ana"; lit "Cy"]
  /\ map fst (storeGroups (dailySummary 0 100 day_rows))
     = [lit "AUP Cafeteria"; lit "Mini Stop"].
Proof.
  split; [|split; [|split]].
  - intros start end_ rows. unfold dailySummary.
    now rewrite fold_process_row_totalOrders.
  - vm_compute. reflexivity.
  - vm_compute. reflexivity.
  - vm_compute. reflexivity.
Qed.

(** ** Dispatch generators *)

Lemma insert_by_time_perm (o : OrderData) (l : list OrderData) :
  Permutation (o :: l) (insert_by_time o l).
Proof.
  induction l as [|x l IH]; simpl; [apply Permutation_refl|].
  destruct (Z.leb _ 0); [apply Permutation_refl|].
  apply (perm_trans (perm_swap x o l)). now apply perm_skip.
Qed.

Lemma sort_by_time_perm (l : list OrderData) :
  Permutation l (sort_by_time l).
Proof.
  induction l as [|o l IH]; simpl; [apply perm_nil|].
  apply (perm_trans (perm_skip o IH)). apply insert_by_time_perm.
Qed.

Lemma insert_by_time_sorted (o : OrderData) (l : list OrderData) :
  StronglySorted by_time l -> StronglySorted by_time (insert_by_time o l).
Proof.
  induction 1 as [|x l Hl IH Hx]; simpl.
  - constructor; constructor.
  - destruct (Z.leb _ 0) eqn:E.
    + apply Z.leb_le in E. constructor; [now constructor|].
      constructor; [unfold by_time; lia|].
      apply Forall_forall. intros y Hy.
      rewrite Forall_forall in Hx. specialize (Hx y Hy).
      unfold by_time in *. lia.
    + apply Z.leb_gt in E. constructor; [assumption|].
      apply (Permutation_Forall (insert_by_time_perm o l)).
      constructor; [unfold by_time; lia | assumption].
Qed.

Lemma sort_by_time_sorted (l : list OrderData) :
  StronglySorted by_time (sort_by_time l).
Proof.
  induction l as [|o l IH]; simpl; [constructor|].
  now apply insert_by_time_sorted.
Qed.

(** Stability: an order goes in front of the orders that are not earlier
    than it, so orders of one time stamp keep their relative order. *)
Lemma insert_by_time_at_time (t : Z) (o : OrderData) (l : list OrderData) :
  filter (at_time t) (insert_by_time o l) = filter (at_time t) (o :: l).
Proof.
  induction l as [|x l IH]; [reflexivity|].
  simpl insert_by_time. destruct (Z.leb _ 0) eqn:E; [reflexivity|].
  apply Z.leb_gt in E.
  change (filter (at_time t) (x :: insert_by_time o l))
    with (if at_time t x then x :: filter (at_time t) (insert_by_time o l)
          else filter (at_time t) (insert_by_time o l)).
  rewrite IH. simpl. unfold at_time.
  destruct (Z.eqb_spec (o_timestamp x) t), (Z.eqb_spec (o_timestamp o) t);
    try reflexivity; lia.
Qed.

Lemma sort_by_time_stable (t : Z) (l : list OrderData) :
  filter (at_time t) (sort_by_time l) = filter (at_time t) l.
Proof.
  induction l as [|o l IH]; [reflexivity|].
  simpl sort_by_time. rewrite insert_by_time_at_time. simpl. now rewrite IH.
Qed.

Lemma sort_by_time_sorted_id (l : list OrderData) :
  StronglySorted by_time l -> sort_by_time l = l.
Proof.
  induction 1 as [|x l Hl IH Hx]; [reflexivity|].
  simpl. rewrite IH. destruct l as [|y l]; [reflexivity|].
  simpl. apply Forall_inv in Hx. unfold by_time in Hx.
  destruct (Z.leb_spec (o_timestamp x - o_timestamp y) 0); [reflexivity|lia].
Qed.

(** C2 (as stated) fails: on the summary of [day_rows] the orders are
    accumulated with time stamps 30 then 10, and after the dispatch text
    is generated the summary holds them as 10 then 30. *)
Lemma dispatch_text_changes_summary :
  map o_timestamp (orders (dailySummary 0 100 day_rows)) = [30; 10]%Z
  /\ map o_timestamp
       (orders (snd (generateDispatchText (dailySummary 0 100 day_rows))))
     = [10; 30]%Z
  /\ snd (generateDispatchText (dailySummary 0 100 day_rows))
     <> dailySummary 0 100 day_rows.
Proof.
  split; [vm_compute; reflexivity|]. split; [vm_compute; reflexivity|].
  intros E. apply (f_equal (fun s => map o_timestamp (orders s))) in E.
  vm_compute in E. discriminate.
Qed.

(** C2 (amended): generating a dispatch view sorts the orders list of the
    summary itself, and the listing is that list.  The counters and the
    store groups are unchanged.  When [totalOrders] is not zero the list
    left in the summary is a permutation of the accumulated one, in
    non-decreasing order of time stamp, orders of equal time stamp in their
    accumulation order; an already sorted list, or a [totalOrders] of zero,
    leaves the summary as it was. *)
Theorem dispatch_sorts_orders_in_place (summary : Summary) :
  let listing := fst (generateDispatchText summary) in
  let summary' := snd (generateDispatchText summary) in
  generateDispatchPDF summary = generateDispatchText summary
  /\ totalOrders summary' = totalOrders summary
  /\ totalRevenue summary' = totalRevenue summary
  /\ totalDelivery summary' = totalDelivery summary
  /\ storeGroups summary' = storeGroups summary
  /\ (totalOrders summary <> 0%nat ->
      orders summary' = listing
      /\ Permutation (orders summary) listing
      /\ StronglySorted by_time listing
      /\ forall t, filter (at_time t) listing
                   = filter (at_time t) (orders summary))
  /\ (totalOrders summary = 0%nat -> summary' = summary /\ listing = [])
  /\ (StronglySorted by_time (orders summary) -> summary' = summary).
Proof.
  unfold generateDispatchText, generateDispatchPDF.
  destruct (Nat.eqb_spec (totalOrders summary) 0) as [E|E]; cbn [fst snd];
    (split; [reflexivity|]); (split; [reflexivity|]);
    (split; [reflexivity|]); (split; [reflexivity|]);
    (split; [reflexivity|]); (split; [|split]).
  - intros H. contradiction.
  - intros _. split; reflexivity.
  - intros _. reflexivity.
  - intros _. split; [reflexivity|].
    split; [apply sort_by_time_perm|].
    split; [apply sort_by_time_sorted|].
    intros t. apply sort_by_time_stable.
  - intros H. contradiction.
  - intros H. rewrite (sort_by_time_sorted_id _ H).
    now destruct summary.
Qed.

Lemma dispatch_sorts_orders_in_place_witness :
  Permutation (orders (dailySummary 0 100 day_rows))
    (fst (generateDispatchText (dailySummary 0 100 day_rows)))
  /\ StronglySorted by_time
       (fst (generateDispatchText (dailySummary 0 100 day_rows))).
Proof.
  destruct (dispatch_sorts_orders_in_place (dailySummary 0 100 day_rows))
    as (_ & _ & _ & _ & _ & H & _).
  destruct H as (_ & Hp & Hs & _).
  - vm_compute. discriminate.
  - split; assumption.
Defined.

(** ** The matcher on the shapes of an order line *)

Lemma star_lazy_here (p : ascii -> bool) (K : cont) (s : str) (c : captures)
    (m : mstate) :
  K s c = Some m -> star_lazy p K s c = Some m.
Proof. intros H. destruct s; simpl; now rewrite H. Qed.

Lemma star_lazy_scan (p : ascii -> bool) (K : cont) (u s : str)
    (c : captures) :
  all p u ->
  (forall u1 u2, u = u1 ++ u2 -> u2 <> [] -> K (u2 ++ s) c = None) ->
  star_lazy p K (u ++ s) c = star_lazy p K s c.
Proof.
  induction 1 as [|a u Ha _ IH]; intros Hfail; [reflexivity|].
  pose proof (Hfail [] (a :: u) eq_refl) as H0.
  simpl in *. rewrite H0 by discriminate.
  rewrite Ha. apply IH. intros u1 u2 -> Hne.
  now apply (Hfail (a :: u1) u2).
Qed.

Lemma star_greedy_stop (p : ascii -> bool) (K : cont) (s : str)
    (c : captures) :
  head_is p s = false -> star_greedy p K s c = K s c.
Proof. destruct s as [|a s]; simpl; [reflexivity|]. now intros ->. Qed.

Lemma star_greedy_all (p : ascii -> bool) (K : cont) (u s : str)
    (c : captures) (m : mstate) :
  all p u -> head_is p s = false -> K s c = Some m ->
  star_greedy p K (u ++ s) c = Some m.
Proof.
  intros Hu Hs HK. induction Hu as [|a u Ha _ IH]; simpl.
  - now rewrite star_greedy_stop.
  - now rewrite Ha, IH.
Qed.

Lemma firstn_consumed (u s : str) :
  firstn (length (u ++ s) - length s) (u ++ s) = u.
Proof.
  rewrite length_app. replace (length u + length s - length s)%nat
    with (length u + 0)%nat by lia.
  rewrite firstn_app_2. simpl. apply app_nil_r.
Qed.

Lemma run_plus_greedy_then (p : ascii -> bool) (r : regex) (k : cont)
    (s : str) (c : captures) :
  run (Cat (PlusGreedy p) r) k s c =
  match s with
  | a :: s' => if p a then star_greedy p (run r k) s' c else None
  | [] => None
  end.
Proof. reflexivity. Qed.

Lemma run_group_plus_greedy_then (i : nat) (p : ascii -> bool) (r : regex)
    (k : cont) (s : str) (c : captures) :
  run (Cat (Group i (PlusGreedy p)) r) k s c =
  match s with
  | a :: s' =>
      if p a then
        star_greedy p
          (fun s2 c2 =>
             run r k s2 ((i, firstn (length s - length s2) s) :: c2)) s' c
      else None
  | [] => None
  end.
Proof. reflexivity. Qed.

Lemma run_group_plus_lazy_then (i : nat) (p : ascii -> bool) (r : regex)
    (k : cont) (s : str) (c : captures) :
  run (Cat (Group i (PlusLazy p)) r) k s c =
  match s with
  | a :: s' =>
      if p a then
        star_lazy p
          (fun s2 c2 =>
             run r k s2 ((i, firstn (length s - length s2) s) :: c2)) s' c
      else None
  | [] => None
  end.
Proof. reflexivity. Qed.

Lemma run_digits_group_here (i : nat) (r : regex) (k : cont) (s : str)
    (c : captures) :
  head_is is_digit s = false ->
  run (Cat (Group i (PlusGreedy is_digit)) r) k s c = None.
Proof.
  destruct s as [|b s]; simpl; [reflexivity|]. now intros ->.
Qed.

Lemma star_greedy_ws_none (K : cont) (c : captures) :
  (forall s, head_is is_digit s = false -> K s c = None) ->
  forall s, quantity_ahead s = false -> star_greedy is_ws K s c = None.
Proof.
  intros HK. unfold quantity_ahead.
  induction s as [|b s IH]; intros Hb; simpl.
  - now apply HK.
  - simpl in Hb. destruct (is_ws b) eqn:Eb.
    + rewrite (IH Hb). apply HK. simpl.
      destruct (is_digit b) eqn:Ed; [|reflexivity].
      apply digit_not_ws in Ed. congruence.
    + now apply HK.
Qed.

Section QuantityTail.
Variable R : regex.
Variable k : cont.

(** Without a quantity ahead the part of a pattern after the name fails. *)
Lemma quantity_tail_none (s : str) (c : captures) :
  quantity_ahead s = false -> run (quantity_tail R) k s c = None.
Proof.
  intros H. unfold quantity_tail. rewrite run_plus_greedy_then.
  destruct s as [|a s]; [reflexivity|].
  destruct (is_ws a) eqn:Ea; [|reflexivity].
  apply star_greedy_ws_none.
  - intros s'. apply run_digits_group_here.
  - unfold quantity_ahead in *. simpl in H. now rewrite Ea in H.
Qed.

(** White space, then all the digits of the quantity. *)
Lemma quantity_tail_match (w q rest : str) (c : captures) (m : mstate) :
  w <> [] -> all is_ws w -> q <> [] -> all is_digit q ->
  head_is is_digit rest = false ->
  run R k rest ((2%nat, q) :: c) = Some m ->
  run (quantity_tail R) k (w ++ q ++ rest) c = Some m.
Proof.
  intros Hw Hws Hq Hdig Hrest HR.
  destruct w as [|a w]; [congruence|]. inversion Hws as [|? ? Ha Hws']; subst.
  destruct q as [|d q]; [congruence|]. inversion Hdig as [|? ? Hd Hdig']; subst.
  unfold quantity_tail. rewrite run_plus_greedy_then. cbn [app]. rewrite Ha.
  apply star_greedy_all; [assumption | |].
  - simpl. now apply digit_not_ws.
  - rewrite run_group_plus_greedy_then. rewrite Hd.
    apply star_greedy_all; [assumption | assumption |].
    pose proof (firstn_consumed (d :: q) rest) as E. cbn [app] in E.
    now rewrite E.
Qed.

(** The name group stops at the white space before the quantity: nowhere
    earlier is a quantity ahead. *)
Lemma name_then_quantity (x : ascii) (ct w q rest : str) (c : captures)
    (m : mstate) :
  is_word_or_ws x = true -> all is_word_or_ws ct ->
  (forall u1 u2, ct = u1 ++ u2 -> u2 <> [] ->
                 quantity_ahead (u2 ++ w ++ q ++ rest) = false) ->
  w <> [] -> all is_ws w -> q <> [] -> all is_digit q ->
  head_is is_digit rest = false ->
  run R k rest ((2%nat, q) :: (1%nat, x :: ct) :: c) = Some m ->
  run (Cat (Group 1 (PlusLazy is_word_or_ws)) (quantity_tail R)) k
      ((x :: ct) ++ w ++ q ++ rest) c = Some m.
Proof.
  intros Hx Hct Hno Hw Hws Hq Hdig Hrest HR.
  rewrite run_group_plus_lazy_then. cbn [app]. rewrite Hx.
  rewrite star_lazy_scan; [|assumption|].
  - apply star_lazy_here.
    pose proof (firstn_consumed (x :: ct) (w ++ q ++ rest)) as E.
    cbn [app] in E. rewrite E.
    now apply quantity_tail_match.
  - intros u1 u2 E Hne. apply quantity_tail_none. now apply (Hno u1).
Qed.
End QuantityTail.

Lemma itemizedPattern_parts :
  itemizedPattern
  = Cat (Group 1 (PlusLazy is_word_or_ws)) (quantity_tail price_tail).
Proof. reflexivity. Qed.

Lemma prepaidPattern_parts :
  prepaidPattern
  = Cat (Group 1 (PlusLazy is_word_or_ws)) (quantity_tail no_price_ahead).
Proof. reflexivity. Qed.

Lemma run_star_greedy_then (p : ascii -> bool) (r : regex) (k : cont)
    (s : str) (c : captures) :
  run (Cat (StarGreedy p) r) k s c = star_greedy p (run r k) s c.
Proof. reflexivity. Qed.

Lemma run_cls_then (p : ascii -> bool) (r : regex) (k : cont)
    (s : str) (c : captures) :
  run (Cat (Cls p) r) k s c =
  match s with
  | a :: s' => if p a then run r k s' c else None
  | [] => None
  end.
Proof. reflexivity. Qed.

Lemma run_price_group (k : cont) (s : str) (c : captures) :
  run (Group 3 (Cat (PlusGreedy is_digit)
                    (Opt (Cat (Cls (is_char "."))
                         (Cat (Cls is_digit) (Cls is_digit)))))) k s c =
  match s with
  | a :: s' =>
      if is_digit a then
        star_greedy is_digit
          (run (Opt (Cat (Cls (is_char "."))
                    (Cat (Cls is_digit) (Cls is_digit))))
               (fun s2 c2 =>
                  k s2 ((3%nat, firstn (length s - length s2) s) :: c2)))
          s' c
      else None
  | [] => None
  end.
Proof. reflexivity. Qed.

(** After the quantity: the price mark, then the whole price. *)
Lemma price_tail_match (ip fp : str) (c : captures) :
  ip <> [] -> all is_digit ip -> all is_digit fp ->
  (fp = [] \/ length fp = 2%nat) ->
  run price_tail final ("@"%char :: price_text ip fp) c
  = Some ([], (3%nat, price_text ip fp) :: c).
Proof.
  intros Hip Hdig Hfp Hlen. unfold price_tail.
  rewrite run_star_greedy_then, star_greedy_stop by reflexivity.
  rewrite run_cls_then. change (is_char "@" "@") with true. cbv iota.
  destruct ip as [|d ip]; [congruence|].
  inversion Hdig as [|? ? Hd Hdig']; subst.
  assert (Hhead : head_is is_ws (price_text (d :: ip) fp) = false).
  { destruct fp; simpl; now apply digit_not_ws. }
  rewrite run_star_greedy_then, star_greedy_stop by assumption.
  rewrite run_price_group.
  assert (E : price_text (d :: ip) fp
              = d :: ip ++ match fp with [] => [] | _ => "."%char :: fp end).
  { destruct fp; simpl; [now rewrite app_nil_r | reflexivity]. }
  rewrite E at 1. rewrite Hd.
  destruct Hlen as [->|Hlen].
  - rewrite app_nil_r. rewrite <- (app_nil_r ip) at 1.
    apply star_greedy_all; [assumption | reflexivity |].
    rewrite E. cbn [run]. rewrite app_nil_r, Nat.sub_0_r, firstn_all.
    reflexivity.
  - destruct fp as [|d1 [|d2 [|? ?]]]; try discriminate.
    inversion Hfp as [|? ? Hd1 Hfp']; subst.
    inversion Hfp' as [|? ? Hd2 _]; subst.
    apply star_greedy_all; [assumption | reflexivity |].
    cbn [run]. change (is_char "." ".") with true. cbv iota.
    rewrite Hd1, Hd2. rewrite Nat.sub_0_r, firstn_all. reflexivity.
Qed.

Lemma star_greedy_needs_mark (p : ascii -> bool) (K : cont) :
  needs_mark K -> needs_mark (star_greedy p K).
Proof.
  intros HK s. induction s as [|a s IH]; intros c Hs; simpl.
  - now apply HK.
  - rewrite (HK _ c Hs). rewrite IH by (simpl in Hs; tauto).
    now destruct (p a).
Qed.

Lemma star_lazy_needs_mark (p : ascii -> bool) (K : cont) :
  needs_mark K -> needs_mark (star_lazy p K).
Proof.
  intros HK s. induction s as [|a s IH]; intros c Hs; simpl.
  - now rewrite (HK _ c Hs).
  - rewrite (HK _ c Hs). rewrite IH by (simpl in Hs; tauto).
    now destruct (p a).
Qed.

Lemma run_needs_mark (r : regex) :
  forall K, needs_mark K -> needs_mark (run r K).
Proof.
  induction r as [p|r1 IH1 r2 IH2|p|p|p|r IH|i r IH|r IH]; intros K HK.
  - intros [|a s] c Hs; simpl; [reflexivity|].
    destruct (p a); [|reflexivity]. apply HK. simpl in Hs. tauto.
  - simpl. apply IH1. now apply IH2.
  - intros [|a s] c Hs; simpl; [reflexivity|].
    destruct (p a); [|reflexivity].
    apply star_greedy_needs_mark; [assumption | simpl in Hs; tauto].
  - intros [|a s] c Hs; simpl; [reflexivity|].
    destruct (p a); [|reflexivity].
    apply star_lazy_needs_mark; [assumption | simpl in Hs; tauto].
  - simpl. now apply star_greedy_needs_mark.
  - intros s c Hs. simpl. rewrite (IH K HK s c Hs). now apply HK.
  - intros s c Hs. simpl. apply IH; [|assumption].
    intros s' c' Hs'. now apply HK.
  - intros s c Hs. simpl. destruct (run r _ s c); [reflexivity|].
    now apply HK.
Qed.

Lemma mark_needs_mark (r : regex) (k : cont) :
  needs_mark (run (Cat (Cls (is_char "@")) r) k).
Proof.
  intros [|a s] c Hs; [reflexivity|]. rewrite run_cls_then.
  destruct (is_char "@" a) eqn:E; [|reflexivity].
  apply is_char_eq in E. subst a. simpl in Hs. tauto.
Qed.

Lemma cat_needs_mark (r1 r2 : regex) (k : cont) :
  needs_mark (run r2 k) -> needs_mark (run (Cat r1 r2) k).
Proof. intros H. exact (run_needs_mark r1 _ H). Qed.

Lemma itemized_needs_mark (k : cont) : needs_mark (run itemizedPattern k).
Proof.
  unfold itemizedPattern. do 4 apply cat_needs_mark. apply mark_needs_mark.
Qed.

Lemma search_none_without_mark (s : str) :
  ~ In "@"%char s -> search itemizedPattern s = None.
Proof.
  induction s as [|a s IH]; intros Hs; simpl.
  - reflexivity.
  - unfold match_here. rewrite (itemized_needs_mark _ _ _ Hs).
    apply IH. simpl in Hs. tauto.
Qed.

Lemma matchAll_none_without_mark (s : str) :
  ~ In "@"%char s -> matchAll itemizedPattern s = [].
Proof.
  intros Hs. unfold matchAll. cbn [matchAll_from].
  now rewrite search_none_without_mark.
Qed.

Lemma search_here (r : regex) (s : str) (m : mstate) :
  match_here r s = Some m -> search r s = Some m.
Proof. intros H. destruct s; simpl; now rewrite H. Qed.

(** A match at the start of the text that consumes all of it is the only
    match, for a pattern that does not match the empty text. *)
Lemma matchAll_whole (r : regex) (s : str) (c : captures) :
  s <> [] -> match_here r [] = None ->
  match_here r s = Some ([], c) -> matchAll r s = [c].
Proof.
  intros Hs Hnil H. unfold matchAll. cbn [matchAll_from].
  rewrite (search_here _ _ _ H).
  destruct s as [|a s]; [congruence|].
  cbn [length Nat.ltb Nat.leb matchAll_from search]. now rewrite Hnil.
Qed.

(** ** The bound on the steps of [matchAll] *)

(** What a match leaves of the input is no longer than the input. *)
Lemma star_greedy_shrinks (p : ascii -> bool) (K : cont) :
  (forall s c rest c', K s c = Some (rest, c') ->
                       (length rest <= length s)%nat) ->
  forall s c rest c', star_greedy p K s c = Some (rest, c') ->
                      (length rest <= length s)%nat.
Proof.
  intros HK. induction s as [|a s IH]; intros c rest c' H; simpl in H.
  - now apply HK in H.
  - destruct (p a); [|now apply HK in H].
    destruct (star_greedy p K s c) as [[r1 c1]|] eqn:E.
    + injection H as <- <-. apply IH in E. simpl. lia.
    + now apply HK in H.
Qed.

Lemma star_lazy_shrinks (p : ascii -> bool) (K : cont) :
  (forall s c rest c', K s c = Some (rest, c') ->
                       (length rest <= length s)%nat) ->
  forall s c rest c', star_lazy p K s c = Some (rest, c') ->
                      (length rest <= length s)%nat.
Proof.
  intros HK. induction s as [|a s IH]; intros c rest c' H; simpl in H.
  - destruct (K [] c) as [[r1 c1]|] eqn:E; [|discriminate].
    injection H as <- <-. now apply HK in E.
  - destruct (K (a :: s) c) as [[r1 c1]|] eqn:E.
    + injection H as <- <-. now apply HK in E.
    + destruct (p a); [|discriminate]. apply IH in H. simpl. lia.
Qed.

Lemma run_shrinks (r : regex) :
  forall K,
    (forall s c rest c', K s c = Some (rest, c') ->
                         (length rest <= length s)%nat) ->
    forall s c rest c', run r K s c = Some (rest, c') ->
                        (length rest <= length s)%nat.
Proof.
  induction r as [p|r1 IH1 r2 IH2|p|p|p|r IH|i r IH|r IH];
    intros K HK s c rest c' H.
  - destruct s as [|a s]; simpl in H; [discriminate|].
    destruct (p a); [|discriminate]. apply HK in H. simpl. lia.
  - simpl in H. apply (IH1 _ (IH2 _ HK)) in H. exact H.
  - destruct s as [|a s]; simpl in H; [discriminate|].
    destruct (p a); [|discriminate].
    apply (star_greedy_shrinks p K HK) in H. simpl. lia.
  - destruct s as [|a s]; simpl in H; [discriminate|].
    destruct (p a); [|discriminate].
    apply (star_lazy_shrinks p K HK) in H. simpl. lia.
  - simpl in H. now apply (star_greedy_shrinks p K HK) in H.
  - simpl in H. destruct (run r K s c) as [[r1 c1]|] eqn:E.
    + injection H as <- <-. now apply (IH K HK) in E.
    + now apply HK in H.
  - simpl in H. apply (IH _) in H; [exact H|].
    intros s2 c2 rest2 c2' H2. now apply HK in H2.
  - simpl in H. destruct (run r _ s c); [discriminate|]. now apply HK in H.
Qed.

Lemma search_shrinks (r : regex) (s rest : str) (c : captures) :
  search r s = Some (rest, c) -> (length rest <= length s)%nat.
Proof.
  induction s as [|a s IH]; simpl; intros H.
  - destruct (match_here r []) as [[r1 c1]|] eqn:E; [|discriminate].
    injection H as <- <-. unfold match_here in E.
    apply run_shrinks in E; [exact E|].
    intros s2 c2 rest2 c2' [= <- <-]. lia.
  - destruct (match_here r (a :: s)) as [[r1 c1]|] eqn:E.
    + injection H as <- <-. unfold match_here in E.
      apply run_shrinks in E; [exact E|].
      intros s2 c2 rest2 c2' [= <- <-]. lia.
    + apply IH in H. lia.
Qed.

(** The step bound of [matchAll] is never reached: any larger bound gives
    the same matches. *)
Lemma matchAll_from_enough (r : regex) (n : nat) :
  forall m s, (length s < n)%nat -> (length s < m)%nat ->
              matchAll_from n r s = matchAll_from m r s.
Proof.
  induction n as [|n IH]; intros m s Hn Hm; [lia|].
  destruct m as [|m]; [lia|]. simpl.
  destruct (search r s) as [[rest c]|] eqn:E; [|reflexivity].
  apply search_shrinks in E. f_equal.
  destruct (Nat.ltb_spec (length rest) (length s)).
  - apply IH; lia.
  - destruct rest as [|b rest']; [reflexivity|].
    simpl in E, H. apply IH; lia.
Qed.

(** ** Names, quantities and prices as texts *)

Lemma name_char_word_or_ws (a : ascii) :
  name_char a = true -> is_word_or_ws a = true.
Proof. by_cases_on_char a. Qed.

Lemma name_char_not_digit (a : ascii) :
  name_char a = true -> is_ws a = false -> is_digit a = false.
Proof. by_cases_on_char a. Qed.

Lemma all_impl (p p' : ascii -> bool) (s : str) :
  (forall a, p a = true -> p' a = true) -> all p s -> all p' s.
Proof. intros H. apply Forall_impl. exact H. Qed.

Lemma all_app (p : ascii -> bool) (s t : str) :
  all p (s ++ t) <-> all p s /\ all p t.
Proof. apply Forall_app. Qed.

Lemma all_not_in (p : ascii -> bool) (b : ascii) (s : str) :
  all p s -> p b = false -> ~ In b s.
Proof.
  intros Hs Hb Hin. unfold all in Hs. rewrite Forall_forall in Hs.
  apply Hs in Hin. congruence.
Qed.

(** Inside a name that ends with a character other than white space, no
    quantity is ahead: the first character after white space is a letter
    or an underscore. *)
Lemma no_quantity_in_name (u : str) (y : ascii) (more : str) :
  all name_char u -> name_char y = true -> is_ws y = false ->
  quantity_ahead ((u ++ [y]) ++ more) = false.
Proof.
  intros Hu Hy Hws. unfold quantity_ahead.
  induction Hu as [|a u Ha _ IH]; simpl.
  - rewrite Hws. simpl. now apply name_char_not_digit.
  - destruct (is_ws a) eqn:Ea; [exact IH|].
    simpl. now apply name_char_not_digit.
Qed.

Lemma takeWhile_app_all (p : ascii -> bool) (u s : str) :
  all p u -> head_is p s = false -> takeWhile p (u ++ s) = u.
Proof.
  intros Hu Hs. induction Hu as [|a u Ha _ IH]; simpl.
  - destruct s as [|b s]; [reflexivity|]. simpl in *. now rewrite Hs.
  - now rewrite Ha, IH.
Qed.

Lemma dropWhile_app_all (p : ascii -> bool) (u s : str) :
  all p u -> head_is p s = false -> dropWhile p (u ++ s) = s.
Proof.
  intros Hu Hs. rewrite dropWhile_app by exact Hu.
  destruct s as [|b s]; [reflexivity|]. now apply dropWhile_head.
Qed.

Lemma takeWhile_all (p : ascii -> bool) (u : str) :
  all p u -> takeWhile p u = u.
Proof.
  induction 1 as [|a u Ha _ IH]; simpl; [reflexivity|]. now rewrite Ha, IH.
Qed.

Lemma parseInt_digits (q : str) :
  q <> [] -> all is_digit q -> parseInt q = integer_number q.
Proof.
  intros Hq Hdig. unfold parseInt. rewrite takeWhile_all by assumption.
  destruct q; [congruence | reflexivity].
Qed.

Lemma parseFloat_price (ip fp : str) :
  ip <> [] -> all is_digit ip -> all is_digit fp ->
  parseFloat (price_text ip fp) = decimal_number ip fp.
Proof.
  intros Hip Hdig Hfp. unfold parseFloat, price_text.
  destruct fp as [|f fp].
  - rewrite takeWhile_all, dropWhile_all by assumption.
    destruct ip; [congruence | reflexivity].
  - rewrite takeWhile_app_all, dropWhile_app_all
      by (assumption || reflexivity).
    change (is_char "." ".") with true. cbv iota.
    rewrite takeWhile_all by assumption.
    destruct ip; [congruence | reflexivity].
Qed.

Lemma decimal_value_nonneg (ip fp : str) : 0 <= decimal_value ip fp.
Proof.
  unfold decimal_value. apply (Qle_trans _ (0 + 0)); [apply Qle_refl|].
  apply Qplus_le_compat; unfold Qle; simpl; lia.
Qed.

Lemma integer_number_pos (q : str) :
  (0 < digits_value 0 q)%N -> num_gt0 (integer_number q) = true.
Proof.
  intros H. apply num_gt0_round.
  change 1 with (inject_Z 1). rewrite <- Zle_Qle. lia.
Qed.

Lemma decimal_number_nonneg (ip fp : str) :
  num_ge0 (decimal_number ip fp) = true.
Proof. apply num_ge0_round, decimal_value_nonneg. Qed.

(** A run of digits below [2^53] is read exactly. *)
Lemma integer_number_exact (q : str) :
  (digits_value 0 q < 2 ^ 53)%N ->
  integer_number q = num_of_N (digits_value 0 q).
Proof.
  intros H. apply round_double_small_integer.
  split; [lia|]. change (2 ^ 53)%Z with (Z.of_N (2 ^ 53)). lia.
Qed.

(** A run of digits of a value from [2^1024] on is read as [Infinity]. *)
Lemma integer_number_overflow (q : str) :
  (2 ^ 1024 <= digits_value 0 q)%N -> integer_number q = PInf.
Proof.
  intros H. apply round_double_overflow.
  rewrite (two_pow_Z 1024) by lia. rewrite <- Zle_Qle.
  change (2 ^ 1024)%Z with (Z.of_N (2 ^ 1024)). lia.
Qed.

(** A price without decimals below [2^53] is read exactly. *)
Lemma decimal_number_exact (ip : str) :
  (digits_value 0 ip < 2 ^ 53)%N ->
  decimal_number ip [] = num_of_N (digits_value 0 ip).
Proof.
  intros H. unfold decimal_number.
  rewrite (round_double_comp _ (inject_Z (Z.of_N (digits_value 0 ip)))).
  - now apply integer_number_exact.
  - unfold decimal_value. cbn [length digits_value].
    change (0 # Z.to_pos (10 ^ Z.of_nat 0)) with 0. apply Qplus_0_r.
Qed.

(** ** Trimming *)

Lemma trim_strip (w0 : str) (x : ascii) (mid body : str) (z : ascii) :
  all is_ws w0 -> is_ws x = false ->
  x :: mid = body ++ [z] -> is_ws z = false ->
  trim (w0 ++ x :: mid) = x :: mid.
Proof.
  intros Hw0 Hx Eb Hz. unfold trim.
  rewrite dropWhile_app by exact Hw0.
  rewrite dropWhile_head by assumption.
  rewrite Eb, rev_app_distr. cbn [rev app].
  rewrite dropWhile_head by assumption.
  cbn [rev]. now rewrite rev_involutive.
Qed.

Lemma leading_ws (n : str) :
  Exists non_ws n ->
  exists w0 x r, n = w0 ++ x :: r /\ all is_ws w0 /\ is_ws x = false.
Proof.
  induction 1 as [a n Ha|a n _ IH].
  - exists [], a, n. split; [reflexivity|]. split; [constructor | exact Ha].
  - destruct (is_ws a) eqn:Ea.
    + destruct IH as (w0 & x & r & -> & Hw0 & Hx).
      exists (a :: w0), x, r. split; [reflexivity|].
      split; [now constructor | exact Hx].
    + exists [], a, n. split; [reflexivity|]. split; [constructor | exact Ea].
Qed.

(** A name with a character other than white space is its trimmed text
    between two runs of white space. *)
Lemma name_parts (n : str) :
  Exists non_ws n ->
  exists w0 x ct w1 body y,
    n = w0 ++ (x :: ct) ++ w1 /\ all is_ws w0 /\ all is_ws w1 /\
    is_ws x = false /\ x :: ct = body ++ [y] /\ is_ws y = false.
Proof.
  intros Hn. destruct (leading_ws n Hn) as (w0 & x & r & -> & Hw0 & Hx).
  assert (Hr : Exists non_ws (rev (x :: r))).
  { apply Exists_exists. exists x. split; [|exact Hx].
    apply in_rev. rewrite rev_involutive. now left. }
  destruct (leading_ws _ Hr) as (w1r & y & br & E & Hw1 & Hy).
  apply (f_equal (@rev ascii)) in E. rewrite rev_involutive in E.
  rewrite rev_app_distr in E. simpl rev in E. rewrite <- app_assoc in E.
  simpl app in E.
  assert (Hcore : exists ct, rev br ++ [y] = x :: ct).
  { destruct (rev br) as [|b l] eqn:Eb.
    - simpl in E. injection E as -> _. now exists [].
    - simpl in E. injection E as -> _. now exists (l ++ [y]). }
  destruct Hcore as [ct Ect].
  exists w0, x, ct, (rev w1r), (rev br), y.
  split; [|split; [|split; [|split; [|split]]]]; try assumption.
  - f_equal. rewrite <- Ect, <- app_assoc. exact E.
  - unfold all. apply Forall_rev. exact Hw1.
  - now symmetry.
Qed.

Lemma all_last (p : ascii -> bool) (s : str) :
  s <> [] -> all p s -> exists b z, s = b ++ [z] /\ p z = true.
Proof.
  intros Hs Hp. destruct (exists_last Hs) as (b & z & ->).
  exists b, z. split; [reflexivity|].
  apply all_app in Hp. destruct Hp as [_ Hz]. now inversion Hz.
Qed.

Lemma price_text_last (ip fp : str) :
  ip <> [] -> all is_digit ip -> all is_digit fp ->
  exists b z, price_text ip fp = b ++ [z] /\ is_digit z = true.
Proof.
  intros Hip Hdig Hfp. unfold price_text. destruct fp as [|f fp].
  - now apply all_last.
  - destruct (all_last is_digit (f :: fp)) as (b & z & E & Hz);
      [discriminate | assumption |].
    exists (ip ++ "."%char :: b), z. split; [|assumption].
    rewrite E, <- app_assoc. reflexivity.
Qed.

(** The match of a pattern on a line: the name group takes the name, the
    quantity group all the digits, and [R] goes on from there. *)
Lemma order_line_match (R : regex) (x : ascii) (ct body : str) (y : ascii)
    (w q rest : str) (m : mstate) :
  all name_char (x :: ct) -> x :: ct = body ++ [y] -> is_ws y = false ->
  w <> [] -> all is_ws w -> q <> [] -> all is_digit q ->
  head_is is_digit rest = false ->
  run R final rest [(2%nat, q); (1%nat, x :: ct)] = Some m ->
  match_here (Cat (Group 1 (PlusLazy is_word_or_ws)) (quantity_tail R))
             ((x :: ct) ++ w ++ q ++ rest) = Some m.
Proof.
  intros Hname Ebody Hy Hw Hws Hq Hdig Hrest HR.
  assert (Hyn : name_char y = true).
  { rewrite Ebody in Hname. apply all_app in Hname.
    destruct Hname as [_ H]. now inversion H. }
  inversion Hname as [|? ? Hx Hct]; subst.
  unfold match_here. apply name_then_quantity; try assumption.
  - now apply name_char_word_or_ws.
  - apply (all_impl name_char); [exact name_char_word_or_ws | exact Hct].
  - intros u1 u2 E Hne. destruct (exists_last Hne) as (u2' & y' & ->).
    assert (E' : (x :: u1 ++ u2') ++ [y'] = body ++ [y]).
    { rewrite <- Ebody, E. simpl. now rewrite <- app_assoc. }
    apply app_inj_tail in E'. destruct E' as [_ ->].
    apply no_quantity_in_name; [|assumption|assumption].
    rewrite E in Hct. apply all_app in Hct. destruct Hct as [_ H].
    apply all_app in H. tauto.
Qed.

Lemma parse_nonempty (s : str) :
  s <> [] -> parseOrderItemsEnhanced (VString s) = parseOrderText s.
Proof. destruct s; [congruence | reflexivity]. Qed.

Lemma attempt_single (r : regex) (mk : captures -> Item)
    (valid : Item -> bool) (t : str) (c : captures) :
  matchAll r t = [c] -> valid (mk c) = true ->
  attempt r mk valid t = Some [mk c].
Proof.
  intros E Hv. unfold attempt. rewrite E. simpl. now rewrite Hv.
Qed.

Lemma attempt_no_match (r : regex) (mk : captures -> Item)
    (valid : Item -> bool) (t : str) :
  matchAll r t = [] -> attempt r mk valid t = None.
Proof. intros E. unfold attempt. now rewrite E. Qed.

Lemma trim_fixed (x : ascii) (mid body : str) (z : ascii) :
  is_ws x = false -> x :: mid = body ++ [z] -> is_ws z = false ->
  trim (x :: mid) = x :: mid.
Proof. intros. now apply (trim_strip [] x mid body z); try constructor. Qed.

Lemma trim_name (w0 : str) (x : ascii) (ct w1 body : str) (y : ascii) :
  all is_ws w0 -> all is_ws w1 -> is_ws x = false ->
  x :: ct = body ++ [y] -> is_ws y = false ->
  trim (w0 ++ (x :: ct) ++ w1) = x :: ct.
Proof.
  intros Hw0 Hw1 Hx Ebody Hy. unfold trim.
  rewrite dropWhile_app by exact Hw0.
  cbn [app]. rewrite dropWhile_head by assumption.
  change (x :: ct ++ w1) with ((x :: ct) ++ w1).
  rewrite rev_app_distr, dropWhile_app by (apply Forall_rev; exact Hw1).
  rewrite Ebody, rev_app_distr. cbn [rev app].
  rewrite dropWhile_head by assumption.
  cbn [rev]. now rewrite rev_involutive.
Qed.

(** C3 (amended): a line made of a name of ASCII letters, underscores and
    white space with a character other than white space, one space, a
    quantity of digits with a positive value, the mark ['@'] and a price of
    digits, alone or followed by a point and exactly two digits, parses as
    an itemized order with exactly one item: the trimmed name, the double
    nearest to the value of the quantity and the double nearest to the
    value of the price.  A quantity below [2^53] is its own double, and so
    is a price without decimals; a quantity from [2^1024] on is
    [Infinity]. *)
Theorem itemized_line_parses (n q ip fp : str) :
  all name_char n -> Exists non_ws n ->
  q <> [] -> all is_digit q -> (0 < digits_value 0 q)%N ->
  ip <> [] -> all is_digit ip ->
  all is_digit fp -> (fp = [] \/ length fp = 2%nat) ->
  parseOrderItemsEnhanced
    (VString (n ++ " "%char :: q ++ "@"%char :: price_text ip fp))
  = parsed itemized
      [mkItem (trim n) (integer_number q) (decimal_number ip fp)]
  /\ ((digits_value 0 q < 2 ^ 53)%N ->
      integer_number q = num_of_N (digits_value 0 q))
  /\ ((2 ^ 1024 <= digits_value 0 q)%N -> integer_number q = PInf)
  /\ (fp = [] -> (digits_value 0 ip < 2 ^ 53)%N ->
      decimal_number ip fp = num_of_N (digits_value 0 ip)).
Proof.
  intros Hname Hn Hq Hdig Hpos Hip Hipd Hfp Hlen.
  split; [|split; [apply integer_number_exact
                  |split; [apply integer_number_overflow
                          | intros ->; apply decimal_number_exact]]].
  destruct (name_parts n Hn)
    as (w0 & x & ct & w1 & body & y & En & Hw0 & Hw1 & Hx & Ebody & Hy).
  destruct (price_text_last ip fp Hip Hipd Hfp) as (pb & z & Ep & Hz).
  set (rest := "@"%char :: price_text ip fp).
  set (w := w1 ++ [" "%char]).
  assert (Hw : all is_ws w).
  { apply all_app. split; [assumption | repeat constructor]. }
  assert (Hwne : w <> []) by (unfold w; now destruct w1).
  assert (Hcore : all name_char (x :: ct)).
  { rewrite En in Hname. apply all_app in Hname. destruct Hname as [_ H].
    apply all_app in H. tauto. }
  assert (Etext : n ++ " "%char :: q ++ rest
                  = w0 ++ x :: (ct ++ w ++ q ++ rest)).
  { rewrite En. unfold w. rewrite <- !app_assoc. reflexivity. }
  assert (Etrim : trim (n ++ " "%char :: q ++ rest)
                  = (x :: ct) ++ w ++ q ++ rest).
  { rewrite Etext.
    apply (trim_strip w0 x _ (x :: ct ++ w ++ q ++ "@"%char :: pb) z);
      try assumption; [|now apply digit_not_ws].
    unfold rest. rewrite Ep. simpl. now rewrite <- !app_assoc. }
  assert (Etn : trim n = x :: ct).
  { rewrite En. now apply (trim_name w0 x ct w1 body y). }
  assert (Hmatch : matchAll itemizedPattern ((x :: ct) ++ w ++ q ++ rest)
                   = [[(3%nat, price_text ip fp); (2%nat, q);
                       (1%nat, x :: ct)]]).
  { apply matchAll_whole; [discriminate | reflexivity |].
    rewrite itemizedPattern_parts.
    apply (order_line_match price_tail x ct body y); try assumption.
    - reflexivity.
    - now apply price_tail_match. }
  rewrite parse_nonempty by (rewrite Etext; now destruct w0).
  unfold parseOrderText. fold rest. rewrite Etrim.
  rewrite (attempt_single _ _ _ _ _ Hmatch).
  - unfold itemized_item. cbn [capture Nat.eqb].
    rewrite parseInt_digits, parseFloat_price by assumption.
    rewrite (trim_fixed x ct body y) by assumption.
    now rewrite Etn.
  - unfold itemized_item, itemized_valid. cbn [capture Nat.eqb name quantity price].
    rewrite parseInt_digits, parseFloat_price by assumption.
    rewrite (trim_fixed x ct body y) by assumption.
    rewrite integer_number_pos by assumption. cbn [str_truthy andb].
    apply decimal_number_nonneg.
Qed.

Lemma itemized_line_parses_witness :
  parseOrderItemsEnhanced (VString (lit " Big Burger 12@80.50"))
  = parsed itemized [mkItem (lit "Big Burger") (Fin 12) (Fin (161 # 2))].
Proof.
  apply (itemized_line_parses (lit " Big Burger") (lit "12") (lit "80")
           (lit "50")).
  - repeat constructor.
  - apply Exists_cons_tl, Exists_cons_hd. reflexivity.
  - discriminate.
  - repeat constructor.
  - reflexivity.
  - discriminate.
  - repeat constructor.
  - repeat constructor.
  - right. reflexivity.
Defined.

(** C3 (as stated) fails: a price with one decimal is a non-negative
    decimal, and the item of ["Burger 2@80.5"] has the price 80, not
    80.5. *)
Lemma itemized_price_one_decimal :
  parseOrderItemsEnhanced (VString (lit "Burger 2@80.5"))
  = parsed itemized [mkItem (lit "Burger") (Fin 2) (Fin 80)]
  /\ parseFloat (lit "80.5") = Fin (161 # 2)
  /\ parseOrderItemsEnhanced (VString (lit "Burger 2@80.5"))
     <> parsed itemized
          [mkItem (lit "Burger") (parseInt (lit "2"))
                  (parseFloat (lit "80.5"))].
Proof.
  split; [vm_compute; reflexivity|]. split; [vm_compute; reflexivity|].
  intros H. vm_compute in H. discriminate.
Qed.

(** C4 (amended): a line made of a name of ASCII letters, underscores and
    white space with a character other than white space, one space and a
    quantity of digits with a positive value parses as a prepaid order
    with exactly one item: the trimmed name, the double nearest to the
    value of the quantity and the price 0.  A quantity below [2^53] is its
    own double, and a quantity from [2^1024] on is [Infinity]. *)
Theorem prepaid_line_parses (n q : str) :
  all name_char n -> Exists non_ws n ->
  q <> [] -> all is_digit q -> (0 < digits_value 0 q)%N ->
  parseOrderItemsEnhanced (VString (n ++ " "%char :: q))
  = parsed prepaid [mkItem (trim n) (integer_number q) (Fin 0)]
  /\ ((digits_value 0 q < 2 ^ 53)%N ->
      integer_number q = num_of_N (digits_value 0 q))
  /\ ((2 ^ 1024 <= digits_value 0 q)%N -> integer_number q = PInf).
Proof.
  intros Hname Hn Hq Hdig Hpos.
  split; [|split; [apply integer_number_exact
                  | apply integer_number_overflow]].
  destruct (name_parts n Hn)
    as (w0 & x & ct & w1 & body & y & En & Hw0 & Hw1 & Hx & Ebody & Hy).
  destruct (all_last is_digit q Hq Hdig) as (qb & z & Eq & Hz).
  set (w := w1 ++ [" "%char]).
  assert (Hw : all is_ws w).
  { apply all_app. split; [assumption | repeat constructor]. }
  assert (Hwne : w <> []) by (unfold w; now destruct w1).
  assert (Hcore : all name_char (x :: ct)).
  { rewrite En in Hname. apply all_app in Hname. destruct Hname as [_ H].
    apply all_app in H. tauto. }
  assert (Etext : n ++ " "%char :: q = w0 ++ x :: (ct ++ w ++ q ++ [])).
  { rewrite En. unfold w. rewrite <- !app_assoc, app_nil_r. reflexivity. }
  assert (Etrim : trim (n ++ " "%char :: q) = (x :: ct) ++ w ++ q ++ []).
  { rewrite Etext.
    apply (trim_strip w0 x _ (x :: ct ++ w ++ qb) z);
      try assumption; [|now apply digit_not_ws].
    rewrite Eq, app_nil_r. simpl. now rewrite <- !app_assoc. }
  assert (Etn : trim n = x :: ct).
  { rewrite En. now apply (trim_name w0 x ct w1 body y). }
  assert (Hnomark : ~ In "@"%char ((x :: ct) ++ w ++ q ++ [])).
  { apply (all_not_in (fun a => negb (is_char "@" a))); [|reflexivity].
    apply all_app. split; [|apply all_app; split; [|apply all_app; split]].
    - apply (all_impl name_char); [|exact Hcore]. intros a. by_cases_on_char a.
    - apply (all_impl is_ws); [|exact Hw]. intros a. by_cases_on_char a.
    - apply (all_impl is_digit); [|exact Hdig]. intros a. by_cases_on_char a.
    - constructor. }
  assert (Hmatch : matchAll prepaidPattern ((x :: ct) ++ w ++ q ++ [])
                   = [[(2%nat, q); (1%nat, x :: ct)]]).
  { apply matchAll_whole; [discriminate | reflexivity |].
    rewrite prepaidPattern_parts.
    apply (order_line_match no_price_ahead x ct body y); try assumption;
      reflexivity. }
  rewrite parse_nonempty by (rewrite Etext; now destruct w0).
  unfold parseOrderText. rewrite Etrim.
  rewrite (attempt_no_match itemizedPattern)
    by now apply matchAll_none_without_mark.
  rewrite (attempt_single _ _ _ _ _ Hmatch).
  - unfold prepaid_item. cbn [capture Nat.eqb].
    rewrite parseInt_digits by assumption.
    rewrite (trim_fixed x ct body y) by assumption.
    now rewrite Etn.
  - unfold prepaid_item, prepaid_valid. cbn [capture Nat.eqb name quantity].
    rewrite parseInt_digits by assumption.
    rewrite (trim_fixed x ct body y) by assumption.
    now rewrite integer_number_pos by assumption.
Qed.

Lemma prepaid_line_parses_witness :
  parseOrderItemsEnhanced (VString (lit "Iced Tea  3"))
  = parsed prepaid [mkItem (lit "Iced Tea") (Fin 3) (Fin 0)].
Proof.
  apply (prepaid_line_parses (lit "Iced Tea ") (lit "3")).
  - repeat constructor.
  - apply Exists_cons_hd. reflexivity.
  - discriminate.
  - repeat constructor.
  - reflexivity.
Defined.

(** C4 (as stated) fails: ["Fries (large) 2"] is a non-empty name, a space
    and a positive quantity, with no ['@'], and the parser returns a
    failure for it; so it does for a name of white space only. *)
Lemma prepaid_name_with_brackets :
  ~ In "@"%char (lit "Fries (large) 2")
  /\ parseOrderItemsEnhanced (VString (lit "Fries (large) 2"))
     = failure invalid_prepaid_format
  /\ parseOrderItemsEnhanced (VString (lit "  " ++ lit " " ++ lit "2"))
     = failure invalid_prepaid_format.
Proof.
  split; [|split; vm_compute; reflexivity].
  apply (all_not_in (fun a => negb (is_char "@" a))); [|reflexivity].
  repeat constructor.
Qed.

(** * Further properties *)

(** ** The accumulation of the daily summary *)

Lemma process_row_row_order (summary : Summary) (row : Row) :
  process_row summary row =
  match row_order row with
  | None => summary
  | Some o =>
      mkSummary (totalOrders summary)
        (num_add (totalRevenue summary) (o_subtotal o))
        (num_add (totalDelivery summary) (o_deliveryFee o))
        (orders summary ++ [o])
        (group_push (o_store o) o (storeGroups summary))
  end.
Proof.
  unfold process_row, row_order.
  destruct (negb (truthy _)); [reflexivity|].
  destruct (negb (success _)); reflexivity.
Qed.

Lemma fold_process_row_orders (rows : list Row) (summary : Summary) :
  orders (fold_left process_row rows summary)
  = orders summary ++ orders_of_rows rows.
Proof.
  revert summary. induction rows as [|row rows IH]; intros summary; simpl.
  - now rewrite app_nil_r.
  - rewrite IH, process_row_row_order.
    destruct (row_order row) as [o|]; [|reflexivity].
    simpl. now rewrite <- app_assoc.
Qed.

Lemma fold_process_row_revenue (rows : list Row) (summary : Summary) :
  totalRevenue (fold_left process_row rows summary)
  = fold_left num_add (map o_subtotal (orders_of_rows rows))
      (totalRevenue summary).
Proof.
  revert summary. induction rows as [|row rows IH]; intros summary; simpl.
  - reflexivity.
  - rewrite IH, process_row_row_order.
    destruct (row_order row) as [o|]; reflexivity.
Qed.

Lemma fold_process_row_delivery (rows : list Row) (summary : Summary) :
  totalDelivery (fold_left process_row rows summary)
  = fold_left num_add (map o_deliveryFee (orders_of_rows rows))
      (totalDelivery summary).
Proof.
  revert summary. induction rows as [|row rows IH]; intros summary; simpl.
  - reflexivity.
  - rewrite IH, process_row_row_order.
    destruct (row_order row) as [o|]; reflexivity.
Qed.

Lemma daily_summary_sums (start end_ : Z) (rows : list Row) :
  totalRevenue (dailySummary start end_ rows)
  = sum_of (map o_subtotal (orders (dailySummary start end_ rows)))
  /\ totalDelivery (dailySummary start end_ rows)
     = sum_of (map o_deliveryFee (orders (dailySummary start end_ rows))).
Proof.
  unfold dailySummary, sum_of.
  rewrite fold_process_row_orders, fold_process_row_revenue,
    fold_process_row_delivery.
  split; reflexivity.
Qed.

(** ** Store groups *)

Lemma store_group_push (g : list (str * list OrderData)) (k k' : str)
    (o : OrderData) :
  store_group (group_push k o g) k' =
  if str_eqb k k'
  then Some (match store_group g k with
             | Some l => l ++ [o]
             | None => [o]
             end)
  else store_group g k'.
Proof.
  induction g as [|[k0 l0] g IH]; simpl.
  - destruct (str_eqb k k'); reflexivity.
  - destruct (str_eqb k0 k) eqn:E0; simpl.
    + apply str_eqb_eq in E0. subst k0.
      destruct (str_eqb k k'); reflexivity.
    + rewrite IH. destruct (str_eqb k k') eqn:E.
      * apply str_eqb_eq in E. subst k'. now rewrite E0.
      * reflexivity.
Qed.

Lemma str_eqb_refl (s : str) : str_eqb s s = true.
Proof. now apply str_eqb_eq. Qed.

Lemma str_eqb_sym (s t : str) : str_eqb s t = str_eqb t s.
Proof.
  destruct (str_eqb s t) eqn:E, (str_eqb t s) eqn:E'; try reflexivity.
  - apply str_eqb_eq in E. subst. now rewrite str_eqb_refl in E'.
  - apply str_eqb_eq in E'. subst. now rewrite str_eqb_refl in E.
Qed.

Lemma fold_process_row_groups (rows : list Row) (summary : Summary)
    (store : str) :
  store_group (storeGroups (fold_left process_row rows summary)) store =
  match filter (from_store store) (orders_of_rows rows) with
  | [] => store_group (storeGroups summary) store
  | o :: l =>
      Some (match store_group (storeGroups summary) store with
            | Some l0 => l0 ++ o :: l
            | None => o :: l
            end)
  end.
Proof.
  revert summary. induction rows as [|row rows IH]; intros summary.
  - reflexivity.
  - simpl fold_left. rewrite IH, process_row_row_order. simpl orders_of_rows.
    destruct (row_order row) as [o|]; [|reflexivity].
    simpl storeGroups. rewrite store_group_push. simpl filter.
    unfold from_store at 2.
    destruct (str_eqb (o_store o) store) eqn:E.
    + apply str_eqb_eq in E. subst store.
      destruct (filter _ (orders_of_rows rows)) as [|o1 l1];
        destruct (store_group (storeGroups summary) (o_store o));
        try reflexivity; now rewrite <- app_assoc.
    + reflexivity.
Qed.

Lemma dailySummary_orders (start end_ : Z) (rows : list Row) :
  orders (dailySummary start end_ rows)
  = orders_of_rows (filter (in_day start end_) rows).
Proof.
  unfold dailySummary. fold (in_day start end_).
  now rewrite fold_process_row_orders.
Qed.

(** ** The three dispatch views *)

Lemma sort_by_time_idempotent (l : list OrderData) :
  sort_by_time (sort_by_time l) = sort_by_time l.
Proof. apply sort_by_time_sorted_id, sort_by_time_sorted. Qed.

Lemma generator_runs (summary : Summary) :
  totalOrders summary <> 0%nat ->
  generateDispatchText summary
    = (sort_by_time (orders summary),
       with_orders summary (sort_by_time (orders summary)))
  /\ generateDispatchHTML summary = generateDispatchText summary
  /\ generateDispatchPDF summary = generateDispatchText summary.
Proof.
  intros Hn. apply Nat.eqb_neq in Hn.
  unfold generateDispatchText, generateDispatchHTML, generateDispatchPDF.
  rewrite Hn. repeat split.
Qed.

(** Whatever becomes of the PDF, the text and the HTML list the same
    orders in the same order, the stable sort by time stamp of the
    accumulated orders, and that is the list left in the summary; a PDF
    that is produced has the same rows. *)
Theorem dispatch_views_agree (run : PdfRun) (summary : Summary)
    (pdf : option (list OrderData)) (text html : list OrderData)
    (summary' : Summary) :
  totalOrders summary <> 0%nat ->
  dispatch_views run summary = (pdf, text, html, summary') ->
  text = sort_by_time (orders summary)
  /\ html = text
  /\ orders summary' = text
  /\ (run = pdf_done -> pdf = Some text).
Proof.
  intros Hn.
  destruct (generator_runs summary Hn) as (Et & Eh & Ep).
  assert (Hn' : totalOrders (with_orders summary
                               (sort_by_time (orders summary))) <> 0%nat)
    by exact Hn.
  destruct (generator_runs _ Hn') as (Et' & Eh' & _).
  cbn [with_orders orders] in Et'. rewrite sort_by_time_idempotent in Et'.
  assert (Hn'' : totalOrders (with_orders
                    (with_orders summary (sort_by_time (orders summary)))
                    (sort_by_time (orders summary))) <> 0%nat)
    by exact Hn.
  destruct (generator_runs _ Hn'') as (Et'' & Eh'' & _).
  cbn [with_orders orders] in Et''. rewrite sort_by_time_idempotent in Et''.
  unfold dispatch_views, generateDispatchPDFWithFallback.
  apply Nat.eqb_neq in Hn.
  destruct run; rewrite ?Hn, ?Ep, ?Et; cbn [fst snd];
    rewrite ?Et, ?Et'; rewrite ?Eh', ?Eh'', ?Eh, ?Et'', ?Et', ?Et;
    intros E; inversion E; subst; cbn [orders with_orders];
    (split; [reflexivity|]); (split; [reflexivity|]);
    (split; [reflexivity|]); intros H; (reflexivity || discriminate).
Qed.

Lemma dispatch_views_agree_witness :
  exists text,
    map o_timestamp text = [10; 30]%Z
    /\ dispatch_views pdf_throws_before_sort (dailySummary 0 100 day_rows)
       = (None, text, text,
          snd (generateDispatchText (dailySummary 0 100 day_rows))).
Proof.
  exists (sort_by_time (orders (dailySummary 0 100 day_rows))).
  assert (E : dispatch_views pdf_throws_before_sort
                (dailySummary 0 100 day_rows)
              = (None, sort_by_time (orders (dailySummary 0 100 day_rows)),
                 sort_by_time (orders (dailySummary 0 100 day_rows)),
                 snd (generateDispatchText (dailySummary 0 100 day_rows))))
    by (vm_compute; reflexivity).
  split; [|exact E].
  assert (Hn : totalOrders (dailySummary 0 100 day_rows) <> 0%nat)
    by (vm_compute; intros H; discriminate H).
  destruct (dispatch_views_agree _ _ _ _ _ _ Hn E) as (Ht & _).
  vm_compute. reflexivity.
Defined.

(** ** Fee classifier: letter case and surrounding text *)

Lemma lower_char_idempotent (a : ascii) :
  lower_char (lower_char a) = lower_char a.
Proof. destruct a as [[] [] [] [] [] [] [] []]; vm_compute; reflexivity. Qed.

Lemma toLowerCase_idempotent (s : str) :
  toLowerCase (toLowerCase s) = toLowerCase s.
Proof.
  unfold toLowerCase. rewrite map_map. apply map_ext.
  exact lower_char_idempotent.
Qed.

(** The fee does not depend on the letter case of the store name: two
    names that differ only in case have the same fee, and so have a name
    and its lower-case form. *)
Theorem fee_ignores_case (s t : str) :
  toLowerCase s = toLowerCase t ->
  calculateDeliveryFee (VString s) = calculateDeliveryFee (VString t)
  /\ calculateDeliveryFee (VString (toLowerCase s))
     = calculateDeliveryFee (VString s).
Proof.
  intros E. rewrite !fee_of_string, toLowerCase_idempotent, E.
  split; reflexivity.
Qed.

Lemma fee_ignores_case_witness :
  calculateDeliveryFee (VString (lit "MINI STOP"))
  = calculateDeliveryFee (VString (lit "mini stop")).
Proof.
  apply (fee_ignores_case (lit "MINI STOP") (lit "mini stop")). reflexivity.
Defined.

Lemma zone_match_extends (zones : list str) (pre s post : str) :
  zone_match zones (toLowerCase s) = true ->
  zone_match zones (toLowerCase (pre ++ s ++ post)) = true.
Proof.
  intros H. apply zone_match_spec in H. apply zone_match_spec.
  destruct H as (zone & a & b & Hin & E).
  exists zone, (toLowerCase pre ++ a), (b ++ toLowerCase post).
  split; [assumption|]. unfold toLowerCase in *.
  rewrite !map_app, E, <- !app_assoc. reflexivity.
Qed.

(** Text written around a store name never lowers its fee. *)
Theorem fee_never_lowered_by_more_text (pre s post : str) :
  exists f f',
    calculateDeliveryFee (VString s) = Fin f
    /\ calculateDeliveryFee (VString (pre ++ s ++ post)) = Fin f'
    /\ f <= f'.
Proof.
  rewrite !fee_of_string.
  pose proof (zone_match_extends veryFar pre s post) as Hv.
  pose proof (zone_match_extends far pre s post) as Hf.
  pose proof (zone_match_extends near pre s post) as Hn.
  destruct (zone_match veryFar (toLowerCase s)).
  { rewrite Hv by reflexivity. exists 199, 199. repeat split. apply Qle_refl. }
  destruct (zone_match far (toLowerCase s)).
  { rewrite Hf by reflexivity.
    destruct (zone_match veryFar _); [exists 99, 199|exists 99, 99];
      repeat split; discriminate. }
  destruct (zone_match near (toLowerCase s)).
  { rewrite Hn by reflexivity.
    destruct (zone_match veryFar _); [exists 69, 199; repeat split; discriminate|].
    destruct (zone_match far _); [exists 69, 99|exists 69, 69];
      repeat split; discriminate. }
  destruct (zone_match veryFar _); [exists 0, 199; repeat split; discriminate|].
  destruct (zone_match far _); [exists 0, 99; repeat split; discriminate|].
  destruct (zone_match near _); [exists 0, 69|exists 0, 0];
    repeat split; discriminate.
Qed.

(** ** Field selector: what is returned *)

Lemma truthy_some (v : option str) :
  truthy v = true -> exists a s, v = Some (a :: s).
Proof.
  destruct v as [[|a s]|]; simpl; try discriminate. intros _. now exists a, s.
Qed.

Lemma selection_cases (field1 field2 selectedType : option str) :
  (truthy field1 = false /\ truthy field2 = false /\
   determineOrderField field1 field2 selectedType = None)
  \/ (exists a r,
        determineOrderField field1 field2 selectedType = Some (a :: r)
        /\ (field1 = Some (a :: r) \/ field2 = Some (a :: r))
        /\ (truthy field1 = true \/ truthy field2 = true)).
Proof.
  unfold determineOrderField.
  destruct (truthy field1) eqn:E1, (truthy field2) eqn:E2; simpl.
  - right. destruct (truthy_some _ E1) as (a1 & s1 & ->).
    destruct (truthy_some _ E2) as (a2 & s2 & ->).
    destruct (type_hint _ _ _) as [chosen|] eqn:Eh.
    + unfold type_hint in Eh. destruct (truthy selectedType); [|discriminate].
      destruct (_ || _)%bool.
      * injection Eh as <-. exists a2, s2. auto.
      * destruct (includes _ _); [|discriminate].
        injection Eh as <-. exists a1, s1. auto.
    + destruct (Nat.ltb _ _); [exists a1, s1 | exists a2, s2]; auto.
  - right. destruct (truthy_some _ E1) as (a1 & s1 & ->).
    exists a1, s1. auto.
  - right. destruct (truthy_some _ E2) as (a2 & s2 & ->).
    exists a2, s2. auto.
  - left. auto.
Qed.



(** ** Order builder: outcomes *)

Lemma complete_test (data : Row) :
  (negb (str_truthy (r_termsAccepted data))
   || negb (includes (toLowerCase (r_termsAccepted data)) (lit "agree"))
   || negb (includes (r_email data) (lit "@")))%bool = false
  <-> complete data.
Proof.
  unfold complete. rewrite !orb_false_iff, !negb_false_iff.
  change (lit "@") with ["@"%char].
  rewrite includes_char, existsb_is_char, includes_spec.
  destruct (r_termsAccepted data); simpl; intuition congruence.
Qed.

Lemma raw_order_cases (data : Row) :
  let raw := determineOrderField (Some (r_orderField1 data))
               (Some (r_orderField2 data)) (Some (r_orderType data)) in
  (truthy raw = false /\ r_orderField1 data = [] /\ r_orderField2 data = [])
  \/ (truthy raw = true /\ text_of raw <> [] /\
      (text_of raw = r_orderField1 data \/ text_of raw = r_orderField2 data)).
Proof.
  cbv zeta.
  destruct (selection_cases (Some (r_orderField1 data))
              (Some (r_orderField2 data)) (Some (r_orderType data)))
    as [(H1 & H2 & E)|(a & r & E & Hf & _)]; rewrite E.
  - left. split; [reflexivity|]. simpl in H1, H2.
    destruct (r_orderField1 data), (r_orderField2 data); try discriminate.
    now split.
  - right. split; [reflexivity|]. split; [discriminate|].
    destruct Hf as [Hf|Hf]; injection Hf as Hf; simpl; auto.
Qed.



Lemma orderSource_field1 (raw f1 : str) :
  orderSource raw f1 = source_field1 <-> raw = f1.
Proof.
  unfold orderSource. destruct (str_eqb raw f1) eqn:E.
  - apply str_eqb_eq in E. tauto.
  - split; [discriminate|]. intros H. apply str_eqb_eq in H. congruence.
Qed.

(** The source tag of an accepted order names the field that was parsed:
    that field is not empty, the items, the type and the subtotal of the
    order are those of its parse, and the fee is the fee of the store. *)
Theorem accepted_order_provenance (data : Row) (o : OrderDetails) :
  onFormSubmit false data = Accepted o ->
  let text := tagged_field data (od_orderSource o) in
  text <> []
  /\ success (parseOrderItemsEnhanced (VString text)) = true
  /\ od_items o = items (parseOrderItemsEnhanced (VString text))
  /\ od_orderType o = type (parseOrderItemsEnhanced (VString text))
  /\ od_subtotal o = subtotal_of (od_items o)
  /\ od_deliveryFee o = calculateDeliveryFee (VString (r_store data))
  /\ complete data.
Proof.
  pose proof (complete_test data) as Hc.
  pose proof (raw_order_cases data) as Hr. cbv zeta in Hr.
  unfold onFormSubmit.
  destruct (_ || _)%bool eqn:Et; [discriminate|].
  destruct Hr as [(Hr & _)|(Hr & Hne & Hf)]; rewrite Hr; cbn [negb];
    [discriminate|].
  set (raw := text_of _) in *.
  destruct (success (parseOrderItemsEnhanced (VString raw))) eqn:Hs;
    cbn [negb]; [|discriminate].
  intros E. apply (f_equal (fun x => match x with Accepted d => d | _ => o end))
    in E. cbv beta iota in E. subst o.
  cbn [od_orderSource od_items od_orderType od_subtotal od_deliveryFee].
  assert (Etext : tagged_field data (orderSource raw (r_orderField1 data))
                  = raw).
  { destruct (orderSource raw (r_orderField1 data)) eqn:Eo; simpl.
    - now apply orderSource_field1 in Eo.
    - destruct Hf as [Hf|Hf]; [|now symmetry].
      apply orderSource_field1 in Hf. congruence. }
  cbv zeta. rewrite Etext.
  repeat split; try assumption; try reflexivity; now apply Hc.
Qed.

Lemma accepted_order_provenance_witness :
  tagged_field sample_row (od_orderSource sample_order) <> []
  /\ od_items sample_order
     = items (parseOrderItemsEnhanced
                (VString (tagged_field sample_row
                            (od_orderSource sample_order)))).
Proof.
  destruct (accepted_order_provenance sample_row sample_order
              sample_order_built) as (H1 & _ & H3 & _).
  split; [exact H1 | exact H3].
Defined.

(** ** Format help *)

Lemma parse_error_content (s : str) :
  s <> [] ->
  success (parseOrderItemsEnhanced (VString s)) = false ->
  error (parseOrderItemsEnhanced (VString s))
  = Some (classify_failure s).
Proof.
  intros Hne Hf. rewrite parse_nonempty in * by assumption.
  destruct (parseOrderText_cases s)
    as [(its & _ & E)|[(its & _ & _ & E)|(_ & _ & E)]];
    rewrite E in *; try discriminate.
  now rewrite classify_failure_trim.
Qed.

(** When a submission is answered with format help, the help is mailed
    (the address is not empty), it quotes a text that is not empty, and its
    kind follows the text: the help on prices when the text has an ['@'],
    else the help on quantities when it has a digit, else the general
    help; the help for an empty order is never sent. *)
Theorem format_help_follows_text (data : Row) (e : option ParseError)
    (originalOrder : str) :
  onFormSubmit false data = FormatCorrection e originalOrder ->
  originalOrder <> []
  /\ sendFormatCorrectionEmail (r_email data) e originalOrder
     = Some (if includes originalOrder (lit "@") then help_prices
             else if existsb is_digit originalOrder then help_quantities
             else help_any_format, originalOrder).
Proof.
  pose proof (complete_test data) as Hc.
  pose proof (raw_order_cases data) as Hr. cbv zeta in Hr.
  unfold onFormSubmit.
  destruct (_ || _)%bool eqn:Et; [discriminate|].
  destruct Hr as [(Hr & _)|(Hr & Hne & Hf)]; rewrite Hr; cbn [negb];
    [discriminate|].
  set (raw := text_of _) in *.
  destruct (success (parseOrderItemsEnhanced (VString raw))) eqn:Hs;
    cbn [negb]; [discriminate|].
  remember (error (parseOrderItemsEnhanced (VString raw))) as er eqn:Eer.
  intros E. injection E as <- <-.
  split; [assumption|].
  rewrite Eer, (parse_error_content raw Hne Hs).
  assert (Hmail : str_truthy (r_email data) = true).
  { destruct (proj1 Hc eq_refl) as (_ & _ & Hat).
    destruct (r_email data); [contradiction | reflexivity]. }
  unfold sendFormatCorrectionEmail. rewrite Hmail. cbn [negb].
  unfold classify_failure.
  destruct (includes raw (lit "@")); [reflexivity|].
  destruct (existsb is_digit raw); reflexivity.
Qed.

Lemma format_help_follows_text_witness :
  sendFormatCorrectionEmail (lit "student@aup.edu")
    (Some invalid_itemized_format) (lit "Burger @80")
  = Some (help_prices, lit "Burger @80").
Proof.
  apply (format_help_follows_text
           (mkRow 0 (lit "Ana") (lit "student@aup.edu") (lit "0917")
              (lit "Dorm A") (lit "101") (lit "Order") (lit "Burger @80")
              (lit "") (lit "Paseo") (lit "COD") (lit "") (lit "I agree"))).
  vm_compute. reflexivity.
Defined.

(** ** Receipt *)

Lemma fold_add_map (f : Item -> num) (l : list Item) (a : num) :
  fold_left num_add (map f l) a
  = fold_left (fun sum item => num_add sum (f item)) l a.
Proof.
  revert a. induction l as [|x l IH]; intros a; simpl; [reflexivity|].
  apply IH.
Qed.

Lemma receipt_item_total_valid (item : Item) :
  num_gt0 (quantity item) = true ->
  receipt_item_total item
  = num_mul (quantity item) (num_or (price item) (Fin 0)).
Proof.
  intros H. unfold receipt_item_total. f_equal.
  unfold num_or. now rewrite (num_gt0_truthy _ H).
Qed.

Lemma receipt_fold (l : list Item) (a : num) :
  forallb (fun it => num_gt0 (quantity it)) l = true ->
  fold_left (fun sum item => num_add sum (receipt_item_total item)) l a
  = fold_left
      (fun sum item =>
         num_add sum (num_mul (quantity item) (num_or (price item) (Fin 0))))
      l a.
Proof.
  revert a. induction l as [|it l IH]; intros a Hq; [reflexivity|].
  simpl in Hq. apply andb_true_iff in Hq. destruct Hq as [Hit Hq].
  simpl. rewrite (receipt_item_total_valid it Hit). now apply IH.
Qed.

Lemma accepted_order_facts (data : Row) (o : OrderDetails) :
  onFormSubmit false data = Accepted o ->
  exists text,
    success (parseOrderItemsEnhanced (VString text)) = true
    /\ od_items o = items (parseOrderItemsEnhanced (VString text))
    /\ od_subtotal o = subtotal_of (od_items o).
Proof.
  unfold onFormSubmit.
  destruct (_ || _)%bool; [discriminate|].
  destruct (negb (truthy _)); [discriminate|].
  set (raw := text_of _).
  destruct (success (parseOrderItemsEnhanced (VString raw))) eqn:Hs;
    cbn [negb]; [|discriminate].
  intros E. apply (f_equal (fun x => match x with Accepted d => d | _ => o end))
    in E. cbv beta iota in E. subst o.
  exists raw. cbn [od_items od_subtotal]. repeat split. exact Hs.
Qed.

(** The totals on the item lines of the receipt of an accepted order add
    up, in the order of the lines, to the subtotal of the order. *)
Theorem receipt_lines_add_up (data : Row) (o : OrderDetails) :
  onFormSubmit false data = Accepted o ->
  sum_of (map receipt_item_total (od_items o)) = od_subtotal o.
Proof.
  intros H.
  destruct (accepted_order_facts data o H) as (text & Hs & Hi & Hsub).
  rewrite Hsub. unfold sum_of, subtotal_of. rewrite fold_add_map.
  assert (Hq : forallb (fun it => num_gt0 (quantity it)) (od_items o) = true).
  { rewrite Hi. destruct (parse_success_inv _ Hs) as (s & _ & Hcases).
    destruct Hcases as [(_ & _ & Hv)|(_ & _ & _ & Hv)];
      rewrite forallb_forall in *; intros it Hit; specialize (Hv it Hit).
    - unfold itemized_valid in Hv. apply andb_true_iff in Hv.
      destruct Hv as [Hv _]. apply andb_true_iff in Hv. tauto.
    - unfold prepaid_valid in Hv. apply andb_true_iff in Hv. tauto. }
  now apply receipt_fold.
Qed.

Lemma receipt_lines_add_up_witness :
  sum_of (map receipt_item_total (od_items sample_order))
  = od_subtotal sample_order.
Proof.
  exact (receipt_lines_add_up sample_row sample_order sample_order_built).
Defined.

(** ** Texts that cannot be an order *)

Section FailsWithout.
Variable p : ascii -> bool.

Lemma star_greedy_fails_without (p' : ascii -> bool) (K : cont) :
  fails_without p K -> fails_without p (star_greedy p' K).
Proof.
  intros HK s. induction s as [|a s IH]; intros c Hs; simpl.
  - now apply HK.
  - rewrite (HK _ c Hs).
    simpl in Hs. apply orb_false_elim in Hs. destruct Hs as [_ Hs].
    rewrite (IH c Hs). now destruct (p' a).
Qed.

Lemma star_lazy_fails_without (p' : ascii -> bool) (K : cont) :
  fails_without p K -> fails_without p (star_lazy p' K).
Proof.
  intros HK s. induction s as [|a s IH]; intros c Hs; simpl.
  - now rewrite (HK _ c Hs).
  - rewrite (HK _ c Hs).
    simpl in Hs. apply orb_false_elim in Hs. destruct Hs as [_ Hs].
    rewrite (IH c Hs). now destruct (p' a).
Qed.

Lemma run_fails_without (r : regex) :
  forall K, fails_without p K -> fails_without p (run r K).
Proof.
  induction r as [p'|r1 IH1 r2 IH2|p'|p'|p'|r IH|i r IH|r IH]; intros K HK.
  - intros [|a s] c Hs; simpl; [reflexivity|].
    destruct (p' a); [|reflexivity]. apply HK.
    simpl in Hs. now apply orb_false_elim in Hs.
  - simpl. apply IH1. now apply IH2.
  - intros [|a s] c Hs; simpl; [reflexivity|].
    destruct (p' a); [|reflexivity].
    apply star_greedy_fails_without; [assumption|].
    simpl in Hs. now apply orb_false_elim in Hs.
  - intros [|a s] c Hs; simpl; [reflexivity|].
    destruct (p' a); [|reflexivity].
    apply star_lazy_fails_without; [assumption|].
    simpl in Hs. now apply orb_false_elim in Hs.
  - simpl. now apply star_greedy_fails_without.
  - intros s c Hs. simpl. rewrite (IH K HK s c Hs). now apply HK.
  - intros s c Hs. simpl. apply IH; [|assumption].
    intros s' c' Hs'. now apply HK.
  - intros s c Hs. simpl. destruct (run r _ s c); [reflexivity|].
    now apply HK.
Qed.

Lemma cat_fails_without (r1 r2 : regex) (k : cont) :
  fails_without p (run r2 k) -> fails_without p (run (Cat r1 r2) k).
Proof. intros H. exact (run_fails_without r1 _ H). Qed.

Lemma search_fails_without (r : regex) :
  fails_without p (run r final) ->
  forall s, existsb p s = false -> search r s = None.
Proof.
  intros Hr. induction s as [|a s IH]; intros Hs; simpl;
    unfold match_here; fold final; rewrite (Hr _ _ Hs); [reflexivity|].
  apply IH. simpl in Hs. now apply orb_false_elim in Hs.
Qed.
End FailsWithout.

Lemma quantity_fails_without_digit (R : regex) (k : cont) :
  fails_without is_digit (run (Cat (Group 2 (PlusGreedy is_digit)) R) k).
Proof.
  intros s c Hs. apply run_digits_group_here.
  destruct s as [|a s]; [reflexivity|]. simpl in *.
  now apply orb_false_elim in Hs.
Qed.

Lemma matchAll_without_digit (s : str) :
  existsb is_digit s = false ->
  matchAll itemizedPattern s = [] /\ matchAll prepaidPattern s = [].
Proof.
  intros Hs. unfold matchAll. cbn [matchAll_from].
  rewrite !search_fails_without with (p := is_digit); try assumption;
    [split; reflexivity | |];
    do 2 apply cat_fails_without; apply quantity_fails_without_digit.
Qed.

(** A text without a digit never parses: the result is a failure, of the
    kind [empty_order] for the empty text, [invalid_itemized_format] for a
    text with an ['@'] and [unrecognizable_format] otherwise. *)
Theorem no_digit_no_order (s : str) :
  existsb is_digit s = false ->
  parseOrderItemsEnhanced (VString s)
  = failure (match s with
             | [] => empty_order
             | _ :: _ =>
                 if includes s (lit "@") then invalid_itemized_format
                 else unrecognizable_format
             end).
Proof.
  intros Hs. destruct s as [|a s]; [reflexivity|].
  rewrite parse_nonempty by discriminate.
  unfold parseOrderText.
  assert (Ht : existsb is_digit (trim (a :: s)) = false)
    by now rewrite (existsb_trim _ _ digit_not_ws).
  destruct (matchAll_without_digit _ Ht) as [E1 E2].
  rewrite !attempt_no_match by assumption.
  rewrite classify_failure_trim. unfold classify_failure. now rewrite Hs.
Qed.

Lemma no_digit_no_order_witness :
  parseOrderItemsEnhanced (VString (lit "two burgers @ eighty"))
  = failure invalid_itemized_format.
Proof.
  apply (no_digit_no_order (lit "two burgers @ eighty")). reflexivity.
Defined.

(** A text without an ['@'] never parses as an itemized order: when it
    parses, the order is prepaid and every price is zero. *)
Theorem no_mark_no_prices (s : str) :
  ~ In "@"%char s ->
  success (parseOrderItemsEnhanced (VString s)) = true ->
  type (parseOrderItemsEnhanced (VString s)) = Some prepaid
  /\ Forall (fun it => price it = Fin 0)
       (items (parseOrderItemsEnhanced (VString s))).
Proof.
  intros Hs Hok.
  assert (Ht : ~ In "@"%char (trim s)).
  { intros H. apply Hs. apply existsb_is_char.
    rewrite <- (existsb_trim _ s at_not_ws). now apply existsb_is_char. }
  destruct (parse_success_inv _ Hok) as (s' & Es & Hcases).
  injection Es as <-.
  destruct Hcases as [(_ & Hi & _)|(Hty & _ & Hi & _)].
  - exfalso. rewrite (matchAll_none_without_mark _ Ht) in Hi.
    destruct s as [|a s]; [discriminate|].
    simpl in Hok, Hi. unfold parseOrderText in Hok, Hi.
    rewrite (attempt_no_match itemizedPattern) in Hok, Hi
      by now apply matchAll_none_without_mark.
    destruct (attempt prepaidPattern _ _ _) as [its|] eqn:E.
    + apply attempt_some in E. destruct E as [[Hne _] ->]. simpl in Hi.
      destruct (matchAll prepaidPattern _); [now apply Hne | discriminate].
    + discriminate.
  - split; [exact Hty|]. rewrite Hi. apply Forall_forall.
    intros it Hit. apply in_map_iff in Hit. now destruct Hit as (c & <- & _).
Qed.

Lemma no_mark_no_prices_witness :
  type (parseOrderItemsEnhanced (VString (lit "Burger 2, Fries 1")))
  = Some prepaid.
Proof.
  apply (no_mark_no_prices (lit "Burger 2, Fries 1")).
  - apply (all_not_in (fun a => negb (is_char "@" a))); [|reflexivity].
    repeat constructor.
  - vm_compute. reflexivity.
Defined.

(** ** What a match captures *)

Lemma star_lazy_inv (p : ascii -> bool) (K : cont) (s : str) (c : captures)
    (m : mstate) :
  star_lazy p K s c = Some m ->
  exists u s', s = u ++ s' /\ all p u /\ K s' c = Some m.
Proof.
  revert m. induction s as [|a s IH]; intros m H; simpl in H.
  - destruct (K [] c) eqn:E; [|discriminate]. injection H as <-.
    exists [], []. repeat split; [constructor | exact E].
  - destruct (K (a :: s) c) eqn:E.
    + injection H as <-. exists [], (a :: s).
      repeat split; [constructor | exact E].
    + destruct (p a) eqn:Ea; [|discriminate].
      destruct (IH _ H) as (u & s' & -> & Hu & HK).
      exists (a :: u), s'. repeat split; [now constructor | exact HK].
Qed.

Lemma star_greedy_inv (p : ascii -> bool) (K : cont) (s : str) (c : captures)
    (m : mstate) :
  star_greedy p K s c = Some m ->
  exists u s', s = u ++ s' /\ all p u /\ K s' c = Some m.
Proof.
  revert m. induction s as [|a s IH]; intros m H; simpl in H.
  - exists [], []. repeat split; [constructor | exact H].
  - destruct (p a) eqn:Ea.
    + destruct (star_greedy p K s c) eqn:E.
      * injection H as <-. destruct (IH _ eq_refl) as (u & s' & -> & Hu & HK).
        exists (a :: u), s'. repeat split; [now constructor | exact HK].
      * exists [], (a :: s). repeat split; [constructor | exact H].
    + exists [], (a :: s). repeat split; [constructor | exact H].
Qed.

Lemma run_group_plus_lazy_inv (i : nat) (p : ascii -> bool) (r : regex)
    (k : cont) (s : str) (c : captures) (m : mstate) :
  run (Cat (Group i (PlusLazy p)) r) k s c = Some m ->
  exists u s', s = u ++ s' /\ u <> [] /\ all p u /\
               run r k s' ((i, u) :: c) = Some m.
Proof.
  rewrite run_group_plus_lazy_then.
  destruct s as [|a s]; [discriminate|].
  destruct (p a) eqn:Ea; [|discriminate]. intros H.
  apply star_lazy_inv in H. destruct H as (u & s' & -> & Hu & HK).
  exists (a :: u), s'. split; [reflexivity|]. split; [discriminate|].
  split; [now constructor|].
  pose proof (firstn_consumed (a :: u) s') as E. cbn [app] in E.
  now rewrite E in HK.
Qed.

Lemma run_group_plus_greedy_inv (i : nat) (p : ascii -> bool) (r : regex)
    (k : cont) (s : str) (c : captures) (m : mstate) :
  run (Cat (Group i (PlusGreedy p)) r) k s c = Some m ->
  exists u s', s = u ++ s' /\ u <> [] /\ all p u /\
               run r k s' ((i, u) :: c) = Some m.
Proof.
  rewrite run_group_plus_greedy_then.
  destruct s as [|a s]; [discriminate|].
  destruct (p a) eqn:Ea; [|discriminate]. intros H.
  apply star_greedy_inv in H. destruct H as (u & s' & -> & Hu & HK).
  exists (a :: u), s'. split; [reflexivity|]. split; [discriminate|].
  split; [now constructor|].
  pose proof (firstn_consumed (a :: u) s') as E. cbn [app] in E.
  now rewrite E in HK.
Qed.

Lemma fraction_inv (kk : cont) (s : str) (c : captures) (m : mstate) :
  run (Cat (Cls (is_char ".")) (Cat (Cls is_digit) (Cls is_digit))) kk s c
  = Some m ->
  exists d1 d2 s',
    s = "."%char :: d1 :: d2 :: s' /\ is_digit d1 = true /\
    is_digit d2 = true /\ kk s' c = Some m.
Proof.
  cbn [run]. destruct s as [|b s]; [discriminate|].
  destruct (is_char "." b) eqn:Eb; [|discriminate].
  apply is_char_eq in Eb. subst b.
  destruct s as [|d1 s]; [discriminate|].
  destruct (is_digit d1) eqn:E1; [|discriminate].
  destruct s as [|d2 s]; [discriminate|].
  destruct (is_digit d2) eqn:E2; [|discriminate].
  intros H. now exists d1, d2, s.
Qed.

Lemma opt_fraction_inv (kk : cont) (s : str) (c : captures) (m : mstate) :
  run (Opt (Cat (Cls (is_char "."))
                (Cat (Cls is_digit) (Cls is_digit)))) kk s c = Some m ->
  (exists d1 d2 s',
      s = "."%char :: d1 :: d2 :: s' /\ is_digit d1 = true /\
      is_digit d2 = true /\ kk s' c = Some m)
  \/ kk s c = Some m.
Proof.
  change (run (Opt ?r) kk s c)
    with (match run r kk s c with Some m => Some m | None => kk s c end).
  destruct (run _ kk s c) eqn:E.
  - intros [= <-]. left. now apply fraction_inv.
  - intros H. now right.
Qed.

Lemma price_group_inv (s : str) (c : captures) (m : mstate) :
  run (Group 3 (Cat (PlusGreedy is_digit)
                    (Opt (Cat (Cls (is_char "."))
                         (Cat (Cls is_digit) (Cls is_digit))))))
      final s c = Some m ->
  exists p s', s = p ++ s' /\ price_shaped p /\ m = (s', (3%nat, p) :: c).
Proof.
  rewrite run_price_group.
  destruct s as [|a s]; [discriminate|].
  destruct (is_digit a) eqn:Ea; [|discriminate]. intros H.
  apply star_greedy_inv in H. destruct H as (u & s1 & -> & Hu & H).
  assert (Hip : all is_digit (a :: u)) by now constructor.
  apply opt_fraction_inv in H.
  destruct H as [(d1 & d2 & s2 & -> & H1 & H2 & H)|H];
    unfold final in H;
    apply (f_equal (fun o => match o with Some x => x | None => m end)) in H;
    cbv beta iota in H; subst m.
  - exists (a :: u ++ ["."%char; d1; d2]), s2.
    split; [cbn [app]; now rewrite <- app_assoc|]. split.
    + exists (a :: u), [d1; d2].
      split; [reflexivity|]. split; [discriminate|]. split; [assumption|].
      split; [repeat constructor; assumption | now right].
    + pose proof (firstn_consumed (a :: u ++ ["."%char; d1; d2]) s2) as E.
      cbn [app] in E. rewrite <- app_assoc in E. cbn [app] in E.
      now rewrite E.
  - exists (a :: u), s1. split; [reflexivity|]. split.
    + exists (a :: u), [].
      split; [reflexivity|]. split; [discriminate|]. split; [assumption|].
      split; [constructor | now left].
    + pose proof (firstn_consumed (a :: u) s1) as E.
      cbn [app] in E. now rewrite E.
Qed.

Lemma run_plus_greedy_inv (p : ascii -> bool) (r : regex) (k : cont)
    (s : str) (c : captures) (m : mstate) :
  run (Cat (PlusGreedy p) r) k s c = Some m ->
  exists u s', s = u ++ s' /\ u <> [] /\ all p u /\ run r k s' c = Some m.
Proof.
  rewrite run_plus_greedy_then.
  destruct s as [|a s]; [discriminate|].
  destruct (p a) eqn:Ea; [|discriminate]. intros H.
  apply star_greedy_inv in H. destruct H as (u & s' & -> & Hu & HK).
  exists (a :: u), s'. split; [reflexivity|]. split; [discriminate|].
  split; [now constructor | exact HK].
Qed.

Lemma run_star_greedy_inv (p : ascii -> bool) (r : regex) (k : cont)
    (s : str) (c : captures) (m : mstate) :
  run (Cat (StarGreedy p) r) k s c = Some m ->
  exists u s', s = u ++ s' /\ all p u /\ run r k s' c = Some m.
Proof. rewrite run_star_greedy_then. apply star_greedy_inv. Qed.

Lemma price_tail_inv (s : str) (c : captures) (m : mstate) :
  run price_tail final s c = Some m ->
  exists pre p rest,
    s = pre ++ p ++ rest /\ price_shaped p /\ m = (rest, (3%nat, p) :: c).
Proof.
  unfold price_tail. intros H.
  apply run_star_greedy_inv in H. destruct H as (w2 & s1 & -> & _ & H).
  rewrite run_cls_then in H. destruct s1 as [|b s1]; [discriminate|].
  destruct (is_char "@" b); [|discriminate].
  apply run_star_greedy_inv in H. destruct H as (w3 & s2 & -> & _ & H).
  apply price_group_inv in H. destruct H as (p & rest & -> & Hp & ->).
  exists (w2 ++ b :: w3), p, rest. split; [|now split].
  rewrite <- app_assoc. reflexivity.
Qed.

Lemma no_price_ahead_inv (s : str) (c : captures) (m : mstate) :
  run no_price_ahead final s c = Some m -> m = (s, c).
Proof.
  unfold no_price_ahead. cbn [run].
  destruct (star_greedy _ _ s c); [discriminate|].
  unfold final. now intros [= <-].
Qed.

(** A match of either pattern captures a run of name characters and a run
    of digits, and consumes at least two characters. *)
Lemma itemized_match_inv (s rest : str) (c : captures) :
  match_here itemizedPattern s = Some (rest, c) ->
  line_captures true c /\ (length rest < length s)%nat.
Proof.
  rewrite itemizedPattern_parts. unfold match_here, quantity_tail.
  fold final. intros H.
  apply run_group_plus_lazy_inv in H.
  destruct H as (u & s1 & -> & Hu & Hup & H).
  apply run_plus_greedy_inv in H. destruct H as (w & s2 & -> & _ & _ & H).
  apply run_group_plus_greedy_inv in H.
  destruct H as (q & s3 & -> & Hq & Hqd & H).
  apply price_tail_inv in H. destruct H as (pre & p & r & -> & Hp & E).
  injection E as -> ->. split.
  - exists u, q. repeat split; try assumption. now exists p.
  - rewrite !length_app. destruct u; [congruence | simpl; lia].
Qed.

Lemma prepaid_match_inv (s rest : str) (c : captures) :
  match_here prepaidPattern s = Some (rest, c) ->
  line_captures false c /\ (length rest < length s)%nat.
Proof.
  rewrite prepaidPattern_parts. unfold match_here, quantity_tail.
  fold final. intros H.
  apply run_group_plus_lazy_inv in H.
  destruct H as (u & s1 & -> & Hu & Hup & H).
  apply run_plus_greedy_inv in H. destruct H as (w & s2 & -> & _ & _ & H).
  apply run_group_plus_greedy_inv in H.
  destruct H as (q & s3 & -> & Hq & Hqd & H).
  apply no_price_ahead_inv in H. injection H as -> ->. split.
  - exists u, q. repeat split; assumption.
  - rewrite !length_app. destruct u; [congruence | simpl; lia].
Qed.

Lemma search_inv (r : regex) (s : str) (m : mstate) :
  search r s = Some m ->
  exists pre s', s = pre ++ s' /\ match_here r s' = Some m.
Proof.
  induction s as [|a s IH]; simpl.
  - destruct (match_here r []) eqn:E; [|discriminate].
    intros [= <-]. now exists [], [].
  - destruct (match_here r (a :: s)) eqn:E.
    + intros [= <-]. now exists [], (a :: s).
    + intros H. destruct (IH H) as (pre & s' & -> & Hm).
      now exists (a :: pre), s'.
Qed.

Lemma matchAll_from_Forall (r : regex) (P : captures -> Prop) :
  (forall s rest c, match_here r s = Some (rest, c) -> P c) ->
  forall n s, Forall P (matchAll_from n r s).
Proof.
  intros HP. induction n as [|n IH]; intros s; simpl; [constructor|].
  destruct (search r s) as [[rest c]|] eqn:E; [|constructor].
  destruct (search_inv _ _ _ E) as (pre & s' & _ & Hm).
  constructor; [exact (HP _ _ _ Hm)|].
  destruct (Nat.ltb _ _); [apply IH|].
  destruct rest; [constructor | apply IH].
Qed.

(** ** Trimmed texts *)

Lemma all_dropWhile (p q : ascii -> bool) (s : str) :
  all p s -> all p (dropWhile q s).
Proof.
  induction 1 as [|a s Ha Hs IH]; simpl; [constructor|].
  destruct (q a); [exact IH | now constructor].
Qed.

Lemma all_trim (p : ascii -> bool) (s : str) : all p s -> all p (trim s).
Proof.
  intros H. unfold trim, all. apply Forall_rev.
  apply all_dropWhile. apply Forall_rev. now apply all_dropWhile.
Qed.

Lemma ws_or_not (s : str) : all is_ws s \/ Exists non_ws s.
Proof.
  induction s as [|a s [IH|IH]].
  - left. constructor.
  - destruct (is_ws a) eqn:E; [left; now constructor | right; now left].
  - right. now right.
Qed.

Lemma trim_idempotent (s : str) : trim (trim s) = trim s.
Proof.
  destruct (ws_or_not s) as [H|H].
  - now rewrite (trim_all_ws _ H).
  - destruct (name_parts s H)
      as (w0 & x & ct & w1 & body & y & -> & Hw0 & Hw1 & Hx & Eb & Hy).
    rewrite (trim_name w0 x ct w1 body y) by assumption.
    now apply (trim_fixed x ct body y).
Qed.

(** ** Line items *)

Lemma integer_number_cases (q : str) :
  num_gt0 (integer_number q) = true ->
  integer_number q = PInf
  \/ exists n, (0 < n)%N /\ integer_number q = num_of_N n.
Proof.
  unfold integer_number. intros H.
  destruct (N.eq_dec (digits_value 0 q) 0) as [E|E].
  - rewrite E in H. discriminate.
  - destruct (round_double_integer (Z.of_N (digits_value 0 q)))
      as [Hi|(z & Hz & Hi)]; [lia | now left|].
    right. exists (Z.to_N z). split; [lia|].
    rewrite Hi. unfold num_of_N. now rewrite Z2N.id by lia.
Qed.

Lemma str_truthy_nonempty (s : str) : str_truthy s = true -> s <> [].
Proof. destruct s; [discriminate | discriminate]. Qed.

Lemma item_of_line (priced : bool) (c : captures) :
  line_captures priced c ->
  let it := if priced then itemized_item c else prepaid_item c in
  (if priced then itemized_valid it else prepaid_valid it) = true ->
  well_formed_item it.
Proof.
  intros (u & q & Hu & Hup & Hq & Hqd & Hc). destruct priced.
  - destruct Hc as (p & (ip & fp & -> & Hip & Hipd & Hfp & _) & ->).
    cbv zeta. unfold itemized_item, itemized_valid, well_formed_item.
    cbn [capture Nat.eqb name quantity price].
    rewrite parseInt_digits, parseFloat_price by assumption.
    intros Hv. apply andb_true_iff in Hv. destruct Hv as [Hv _].
    apply andb_true_iff in Hv. destruct Hv as [Hn Hg].
    split; [|split].
    + split; [now apply str_truthy_nonempty|].
      split; [now apply all_trim | apply trim_idempotent].
    + now apply integer_number_cases.
    + destruct (round_double_nonneg _ (decimal_value_nonneg ip fp))
        as [E|(p & E & Hp)]; [now left|].
      right. now exists p.
  - subst c. cbv zeta. unfold prepaid_item, prepaid_valid, well_formed_item.
    cbn [capture Nat.eqb name quantity price].
    rewrite parseInt_digits by assumption.
    intros Hv. apply andb_true_iff in Hv. destruct Hv as [Hn Hg].
    split; [|split].
    + split; [now apply str_truthy_nonempty|].
      split; [now apply all_trim | apply trim_idempotent].
    + now apply integer_number_cases.
    + right. exists 0. split; [apply Qle_refl | reflexivity].
Qed.

(** Every item of a successful parse has a name that is not empty, made of
    ASCII letters, digits, underscores and white space, with no white space
    at either end; a quantity that is a positive integer or [Infinity];
    and a price that is a number not negative or [Infinity]. *)
Theorem parsed_items_well_formed (v : value) :
  success (parseOrderItemsEnhanced v) = true ->
  Forall well_formed_item (items (parseOrderItemsEnhanced v)).
Proof.
  intros Hok. destruct (parse_success_inv _ Hok) as (s & _ & Hcases).
  destruct Hcases as [(_ & Hi & Hv)|(_ & _ & Hi & Hv)];
    rewrite Hi in *; rewrite forallb_forall in Hv;
    apply Forall_forall; intros it Hit; specialize (Hv it Hit);
    apply in_map_iff in Hit; destruct Hit as (c & <- & Hc).
  - apply (item_of_line true); [|exact Hv].
    pose proof (matchAll_from_Forall itemizedPattern (line_captures true)
                  (fun s0 rest c0 H => proj1 (itemized_match_inv s0 rest c0 H))
                  (S (length (trim s))) (trim s)) as HF.
    rewrite Forall_forall in HF. now apply HF.
  - apply (item_of_line false); [|exact Hv].
    pose proof (matchAll_from_Forall prepaidPattern (line_captures false)
                  (fun s0 rest c0 H => proj1 (prepaid_match_inv s0 rest c0 H))
                  (S (length (trim s))) (trim s)) as HF.
    rewrite Forall_forall in HF. now apply HF.
Qed.

Lemma parsed_items_well_formed_witness :
  Forall well_formed_item
    (items (parseOrderItemsEnhanced
              (VString (lit "  big_mac 2 @ 99.50 , Fries 10 @45")))).
Proof.
  apply parsed_items_well_formed. vm_compute. reflexivity.
Defined.

(** ** Successive matches *)

Lemma search_shrinks_strictly (r : regex) :
  (forall s rest c, match_here r s = Some (rest, c) ->
                    (length rest < length s)%nat) ->
  forall s rest c, search r s = Some (rest, c) ->
                   (length rest < length s)%nat.
Proof.
  intros NE s rest c H. destruct (search_inv _ _ _ H) as (pre & s' & -> & Hm).
  apply NE in Hm. rewrite length_app. lia.
Qed.

Lemma matchAll_from_step (n : nat) (r : regex) (s : str) :
  matchAll_from (S n) r s =
  match search r s with
  | None => []
  | Some (rest, c) =>
      c :: (if Nat.ltb (length rest) (length s)
            then matchAll_from n r rest
            else match rest with
                 | _ :: rest' => matchAll_from n r rest'
                 | [] => []
                 end)
  end.
Proof. reflexivity. Qed.

Lemma matchAll_cons (r : regex) (s rest : str) (c : captures) :
  search r s = Some (rest, c) -> (length rest < length s)%nat ->
  matchAll r s = c :: matchAll r rest.
Proof.
  intros H Hlt. unfold matchAll.
  rewrite (matchAll_from_step (length s)), H.
  apply Nat.ltb_lt in Hlt. rewrite Hlt. f_equal.
  apply Nat.ltb_lt in Hlt. apply matchAll_from_enough; lia.
Qed.

Section Lines.
Variable r : regex.
Hypothesis NE :
  forall s rest c, match_here r s = Some (rest, c) ->
                   (length rest < length s)%nat.

Lemma matchAll_nil : matchAll r [] = [].
Proof.
  unfold matchAll. rewrite matchAll_from_step. cbn [search].
  destruct (match_here r []) as [[rest c]|] eqn:E; [|reflexivity].
  apply NE in E. simpl in E. lia.
Qed.

Lemma matchAll_skip (a : ascii) (s : str) :
  match_here r (a :: s) = None -> matchAll r (a :: s) = matchAll r s.
Proof.
  intros H. unfold matchAll.
  rewrite (matchAll_from_step (length (a :: s))),
    (matchAll_from_step (length s)).
  assert (E : search r (a :: s) = search r s) by (simpl; now rewrite H).
  rewrite E.
  destruct (search r s) as [[rest c]|] eqn:Es; [|reflexivity].
  pose proof (search_shrinks_strictly r NE _ _ _ Es) as Hlt.
  f_equal.
  assert (H1 : Nat.ltb (length rest) (length (a :: s)) = true)
    by (apply Nat.ltb_lt; simpl; lia).
  assert (H2 : Nat.ltb (length rest) (length s) = true)
    by now apply Nat.ltb_lt.
  rewrite H1, H2. apply matchAll_from_enough; simpl; lia.
Qed.

Variable E : Type.
Variable text : E -> str.
Variable item : E -> Item.
Variable mk : captures -> Item.
Variable ok : E -> Prop.

Hypothesis comma_starts_no_match :
  forall s, match_here r (","%char :: s) = None.
Hypothesis text_has_name : forall e, ok e -> Exists non_ws (text e).
Hypothesis line_matches :
  forall e T more,
    ok e -> T = text e \/ T = dropWhile is_ws (text e) -> line_end more ->
    exists c, match_here r (T ++ more) = Some (more, c) /\ mk c = item e.

Lemma dropWhile_app_non_ws (t s : str) :
  Exists non_ws t -> dropWhile is_ws (t ++ s) = dropWhile is_ws t ++ s.
Proof.
  induction 1 as [a t Ha|a t _ IH]; simpl.
  - unfold non_ws in Ha. now rewrite Ha.
  - destruct (is_ws a); [exact IH | reflexivity].
Qed.

Lemma dropWhile_non_ws_nonempty (t : str) :
  Exists non_ws t -> dropWhile is_ws t <> [].
Proof.
  induction 1 as [a t Ha|a t _ IH]; simpl.
  - unfold non_ws in Ha. rewrite Ha. discriminate.
  - destruct (is_ws a); [exact IH | discriminate].
Qed.

(** One match per line, in the order of the lines. *)
Lemma matchAll_lines (es : list E) :
  es <> [] -> Forall ok es ->
  forall T,
    T = join_lines (map text es)
    \/ T = dropWhile is_ws (join_lines (map text es)) ->
    map mk (matchAll r T) = map item es.
Proof.
  induction es as [|e es IH]; intros Hne Hok T HT; [congruence|].
  inversion Hok as [|? ? He Hes]; subst.
  pose proof (text_has_name e He) as Hnm.
  destruct es as [|e' es'].
  - assert (HT' : T = text e \/ T = dropWhile is_ws (text e)) by exact HT.
    destruct (line_matches e T [] He HT' (or_introl eq_refl))
      as (c & Hm & Hc).
    rewrite app_nil_r in Hm.
    assert (HTne : T <> []).
    { destruct HT' as [->| ->].
      - destruct Hnm; discriminate.
      - now apply dropWhile_non_ws_nonempty. }
    rewrite (matchAll_cons r T [] c (search_here _ _ _ Hm)).
    + rewrite matchAll_nil. simpl. now rewrite Hc.
    + destruct T; [congruence | simpl; lia].
  - set (J := join_lines (map text (e' :: es'))) in *.
    assert (EJ : join_lines (map text (e :: e' :: es'))
                 = text e ++ ","%char :: J) by reflexivity.
    rewrite EJ in HT.
    assert (HT' : exists T1, (T1 = text e \/ T1 = dropWhile is_ws (text e))
                             /\ T = T1 ++ ","%char :: J).
    { destruct HT as [->| ->].
      - exists (text e). split; [now left | reflexivity].
      - exists (dropWhile is_ws (text e)). split; [now right|].
        now apply dropWhile_app_non_ws. }
    destruct HT' as (T1 & HT1 & ->).
    destruct (line_matches e T1 (","%char :: J) He HT1
                (or_intror (ex_intro _ J eq_refl))) as (c & Hm & Hc).
    rewrite (matchAll_cons r _ _ c (search_here _ _ _ Hm)).
    + rewrite (matchAll_skip _ _ (comma_starts_no_match J)).
      cbn [map]. rewrite Hc. f_equal.
      apply IH; [discriminate | assumption | now left].
    + rewrite length_app.
      assert (T1 <> []).
      { destruct HT1 as [->| ->].
        - destruct Hnm; discriminate.
        - now apply dropWhile_non_ws_nonempty. }
      destruct T1; [congruence | simpl; lia].
Qed.
End Lines.

(** ** Lists of lines *)

Lemma ws_name_char (a : ascii) : is_ws a = true -> name_char a = true.
Proof. by_cases_on_char a. Qed.

Lemma order_line_match_name (R : regex) (nm body : str) (y : ascii)
    (w q rest : str) (m : mstate) :
  all name_char nm -> nm = body ++ [y] -> is_ws y = false ->
  w <> [] -> all is_ws w -> q <> [] -> all is_digit q ->
  head_is is_digit rest = false ->
  run R final rest [(2%nat, q); (1%nat, nm)] = Some m ->
  match_here (Cat (Group 1 (PlusLazy is_word_or_ws)) (quantity_tail R))
             (nm ++ w ++ q ++ rest) = Some m.
Proof.
  intros Hnm Eb. destruct nm as [|x ct]; [now destruct body|].
  intros. now apply (order_line_match R x ct body y).
Qed.

Lemma fraction_none (kk : cont) (more : str) (c : captures) :
  head_is (is_char ".") more = false ->
  run (Cat (Cls (is_char ".")) (Cat (Cls is_digit) (Cls is_digit)))
      kk more c = None.
Proof.
  destruct more as [|b more]; [reflexivity|]. simpl. now intros ->.
Qed.

(** The price part of the itemized pattern, with white space around the
    mark and text after the price. *)
Lemma price_tail_match_more (before after ip fp more : str) (c : captures) :
  all is_ws before -> all is_ws after ->
  ip <> [] -> all is_digit ip -> all is_digit fp ->
  (fp = [] \/ length fp = 2%nat) ->
  head_is is_digit more = false -> head_is (is_char ".") more = false ->
  run price_tail final
      (before ++ "@"%char :: after ++ price_text ip fp ++ more) c
  = Some (more, (3%nat, price_text ip fp) :: c).
Proof.
  intros Hb Ha Hip Hdig Hfp Hlen Hm1 Hm2. unfold price_tail.
  rewrite run_star_greedy_then.
  apply star_greedy_all; [assumption | reflexivity |].
  rewrite run_cls_then. change (is_char "@" "@") with true. cbv iota.
  destruct ip as [|d ip]; [congruence|].
  inversion Hdig as [|? ? Hd Hdig']; subst.
  set (point := match fp with [] => [] | _ :: _ => "."%char :: fp end).
  assert (E : price_text (d :: ip) fp = (d :: ip) ++ point).
  { unfold price_text, point. destruct fp; [now rewrite app_nil_r|].
    reflexivity. }
  rewrite run_star_greedy_then.
  apply star_greedy_all; [assumption | |].
  { rewrite E. simpl. now apply digit_not_ws. }
  rewrite run_price_group.
  rewrite E at 1. cbn [app]. rewrite Hd. rewrite <- app_assoc.
  apply star_greedy_all; [assumption | |].
  { unfold point. destruct fp; [exact Hm1 | reflexivity]. }
  pose proof (firstn_consumed (price_text (d :: ip) fp) more) as Ecap.
  change (run (Opt ?r0) ?kk ?s ?c0)
    with (match run r0 kk s c0 with Some m => Some m | None => kk s c0 end).
  destruct Hlen as [Hnil|Hlen].
  - subst fp. unfold point. cbn [app].
    rewrite fraction_none by assumption. now rewrite Ecap.
  - destruct fp as [|d1 [|d2 [|? ?]]]; try discriminate.
    inversion Hfp as [|? ? Hd1 Hfp']; subst.
    inversion Hfp' as [|? ? Hd2 _]; subst.
    unfold point. cbn [app run].
    change (is_char "." ".") with true. cbv iota.
    rewrite Hd1, Hd2. now rewrite Ecap.
Qed.

Lemma line_end_heads (more : str) :
  line_end more ->
  head_is is_digit more = false /\ head_is (is_char ".") more = false
  /\ run no_price_ahead final more = fun c => Some (more, c).
Proof.
  intros [->|[m' ->]]; repeat split; reflexivity.
Qed.

Lemma name_variants (n : str) :
  all name_char n -> Exists non_ws n ->
  exists w0 nm1 w1 body y,
    n = w0 ++ nm1 ++ w1 /\ dropWhile is_ws n = nm1 ++ w1
    /\ all is_ws w0 /\ all is_ws w1
    /\ all name_char nm1 /\ nm1 = body ++ [y] /\ is_ws y = false
    /\ trim n = nm1 /\ trim nm1 = nm1 /\ trim (w0 ++ nm1) = nm1.
Proof.
  intros Hname Hn.
  destruct (name_parts n Hn)
    as (w0 & x & ct & w1 & body & y & -> & Hw0 & Hw1 & Hx & Eb & Hy).
  exists w0, (x :: ct), w1, body, y.
  split; [reflexivity|]. split.
  { rewrite dropWhile_app by exact Hw0. cbn [app].
    now rewrite dropWhile_head. }
  split; [assumption|]. split; [assumption|]. split.
  { apply all_app in Hname. destruct Hname as [_ H].
    apply all_app in H. tauto. }
  split; [assumption|]. split; [assumption|]. split.
  { now apply (trim_name w0 x ct w1 body y). }
  split.
  { now apply (trim_fixed x ct body y). }
  pose proof (trim_name w0 x ct [] body y Hw0 (Forall_nil _) Hx Eb Hy) as E.
  now rewrite app_nil_r in E.
Qed.

Lemma head_before_mark (before rest : str) :
  all is_ws before ->
  head_is is_digit (before ++ "@"%char :: rest) = false.
Proof.
  intros H. destruct H as [|a u Ha _]; [reflexivity|]. simpl.
  destruct (is_digit a) eqn:E; [|reflexivity].
  apply digit_not_ws in E. congruence.
Qed.

Lemma priced_line_matches (e : PricedLine) (T more : str) :
  priced_ok e ->
  T = priced_text e \/ T = dropWhile is_ws (priced_text e) ->
  line_end more ->
  exists c, match_here itemizedPattern (T ++ more) = Some (more, c)
            /\ itemized_item c = priced_item e.
Proof.
  intros (Hname & Hn & Hg & Hgw & Hq & Hqd & _ & Hb & Ha & Hip & Hipd
          & Hfp & Hlen) HT Hmore.
  destruct (line_end_heads more Hmore) as (Hm1 & Hm2 & _).
  destruct (name_variants _ Hname Hn)
    as (w0 & nm1 & w1 & body & y & En & Ed & Hw0 & Hw1 & Hnm1 & Eb & Hy
        & Et & Et1 & Et0).
  assert (Hw : all is_ws (w1 ++ pl_gap e)) by (apply all_app; now split).
  assert (Hwne : w1 ++ pl_gap e <> [])
    by (destruct w1; [exact Hg | discriminate]).
  assert (Hshape : exists nm b,
             T ++ more
             = nm ++ (w1 ++ pl_gap e) ++ pl_qty e
               ++ (pl_before e ++ "@"%char :: pl_after e
                   ++ price_text (pl_int e) (pl_frac e) ++ more)
             /\ all name_char nm /\ nm = b ++ [y] /\ trim nm = nm1).
  { destruct HT as [->| ->]; unfold priced_text.
    - exists (w0 ++ nm1), (w0 ++ body). split; [|split; [|split]].
      + rewrite En, <- !app_assoc. cbn [app]. now rewrite <- !app_assoc.
      + apply all_app. split; [|assumption].
        apply (all_impl is_ws); [exact ws_name_char | assumption].
      + now rewrite Eb, app_assoc.
      + exact Et0.
    - exists nm1, body. split; [|split; [|split]]; try assumption.
      rewrite dropWhile_app_non_ws by exact Hn.
      rewrite Ed, <- !app_assoc. cbn [app]. now rewrite <- !app_assoc. }
  destruct Hshape as (nm & b & -> & Hnm & Enm & Etrim).
  eexists. split.
  - rewrite itemizedPattern_parts.
    apply (order_line_match_name price_tail nm b y); try assumption.
    + now apply head_before_mark.
    + now apply price_tail_match_more.
  - unfold itemized_item, priced_item. cbn [capture Nat.eqb].
    rewrite parseInt_digits, parseFloat_price by assumption.
    now rewrite Etrim, Et.
Qed.

Lemma plain_line_matches (e : PlainLine) (T more : str) :
  plain_ok e ->
  T = plain_text e \/ T = dropWhile is_ws (plain_text e) ->
  line_end more ->
  exists c, match_here prepaidPattern (T ++ more) = Some (more, c)
            /\ prepaid_item c = plain_item e.
Proof.
  intros (Hname & Hn & Hg & Hgw & Hq & Hqd & _) HT Hmore.
  destruct (line_end_heads more Hmore) as (Hm1 & _ & Hrun).
  destruct (name_variants _ Hname Hn)
    as (w0 & nm1 & w1 & body & y & En & Ed & Hw0 & Hw1 & Hnm1 & Eb & Hy
        & Et & Et1 & Et0).
  assert (Hw : all is_ws (w1 ++ ql_gap e)) by (apply all_app; now split).
  assert (Hwne : w1 ++ ql_gap e <> [])
    by (destruct w1; [exact Hg | discriminate]).
  assert (Hshape : exists nm b,
             T ++ more = nm ++ (w1 ++ ql_gap e) ++ ql_qty e ++ more
             /\ all name_char nm /\ nm = b ++ [y] /\ trim nm = nm1).
  { destruct HT as [->| ->]; unfold plain_text.
    - exists (w0 ++ nm1), (w0 ++ body). split; [|split; [|split]].
      + rewrite En, <- !app_assoc. reflexivity.
      + apply all_app. split; [|assumption].
        apply (all_impl is_ws); [exact ws_name_char | assumption].
      + now rewrite Eb, app_assoc.
      + exact Et0.
    - exists nm1, body. split; [|split; [|split]]; try assumption.
      rewrite dropWhile_app_non_ws by exact Hn.
      rewrite Ed, <- !app_assoc. reflexivity. }
  destruct Hshape as (nm & b & -> & Hnm & Enm & Etrim).
  eexists. split.
  - rewrite prepaidPattern_parts.
    apply (order_line_match_name no_price_ahead nm b y); try assumption.
    now rewrite Hrun.
  - unfold prepaid_item, plain_item. cbn [capture Nat.eqb].
    rewrite parseInt_digits by assumption.
    now rewrite Etrim, Et.
Qed.

Lemma dropWhile_keeps_last (b : str) (z : ascii) :
  is_ws z = false -> exists b', dropWhile is_ws (b ++ [z]) = b' ++ [z].
Proof.
  intros Hz. induction b as [|a b IH]; simpl.
  - rewrite Hz. now exists [].
  - destruct (is_ws a); [exact IH | now exists (a :: b)].
Qed.

Lemma trim_ends_non_ws (b : str) (z : ascii) :
  is_ws z = false -> trim (b ++ [z]) = dropWhile is_ws (b ++ [z]).
Proof.
  intros Hz. unfold trim.
  destruct (dropWhile_keeps_last b z Hz) as [b' E]. rewrite E.
  rewrite rev_app_distr. cbn [rev app].
  rewrite dropWhile_head by assumption.
  cbn [rev]. now rewrite rev_involutive.
Qed.

Lemma join_lines_last (texts : list str) :
  texts <> [] ->
  Forall (fun t => exists b z, t = b ++ [z] /\ is_ws z = false) texts ->
  exists b z, join_lines texts = b ++ [z] /\ is_ws z = false.
Proof.
  induction texts as [|t ts IH]; intros Hne Hall; [congruence|].
  inversion Hall as [|? ? Ht Hts]; subst.
  destruct ts as [|t' ts'].
  - exact Ht.
  - destruct (IH ltac:(discriminate) Hts) as (b & z & E & Hz).
    exists (t ++ ","%char :: b), z. split; [|exact Hz].
    change (join_lines (t :: t' :: ts'))
      with (t ++ ","%char :: join_lines (t' :: ts')).
    rewrite E, <- app_assoc. reflexivity.
Qed.

Lemma attempt_all (r : regex) (mk : captures -> Item)
    (valid : Item -> bool) (t : str) (its : list Item) :
  map mk (matchAll r t) = its -> its <> [] ->
  forallb valid its = true ->
  attempt r mk valid t = Some its.
Proof.
  intros E Hne Hv. unfold attempt. rewrite E.
  destruct (matchAll r t) as [|c cs]; [simpl in E; congruence|].
  cbn [length Nat.ltb Nat.leb].
  rewrite (filter_id _ _ Hv), Nat.eqb_refl. reflexivity.
Qed.

Lemma priced_text_last (e : PricedLine) :
  priced_ok e ->
  exists b z, priced_text e = b ++ [z] /\ is_ws z = false.
Proof.
  intros (_ & _ & _ & _ & _ & _ & _ & _ & _ & Hip & Hipd & Hfp & _).
  destruct (price_text_last _ _ Hip Hipd Hfp) as (b & z & E & Hz).
  exists (pl_name e ++ pl_gap e ++ pl_qty e ++ pl_before e
          ++ "@"%char :: pl_after e ++ b), z.
  split; [|now apply digit_not_ws].
  unfold priced_text. rewrite E, <- !app_assoc. cbn [app].
  now rewrite <- !app_assoc.
Qed.

Lemma plain_text_last (e : PlainLine) :
  plain_ok e ->
  exists b z, plain_text e = b ++ [z] /\ is_ws z = false.
Proof.
  intros (_ & _ & _ & _ & Hq & Hqd & _).
  destruct (all_last _ _ Hq Hqd) as (b & z & E & Hz).
  exists (ql_name e ++ ql_gap e ++ b), z.
  split; [|now apply digit_not_ws].
  unfold plain_text. rewrite E, <- !app_assoc. reflexivity.
Qed.

Lemma map_nonempty {A B : Type} (f : A -> B) (l : list A) :
  l <> [] -> map f l <> [].
Proof. destruct l; [congruence | discriminate]. Qed.

Lemma trim_nonempty (n : str) : Exists non_ws n -> trim n <> [].
Proof.
  intros Hn. destruct (name_parts n Hn)
    as (w0 & x & ct & w1 & body & y & -> & Hw0 & Hw1 & Hx & Eb & Hy).
  rewrite (trim_name w0 x ct w1 body y) by assumption. discriminate.
Qed.

Lemma priced_item_valid (e : PricedLine) :
  priced_ok e -> itemized_valid (priced_item e) = true.
Proof.
  intros (_ & Hn & _ & _ & _ & _ & Hpos & _).
  unfold itemized_valid, priced_item. cbn [name quantity price].
  rewrite integer_number_pos by assumption.
  pose proof (trim_nonempty _ Hn) as Ht.
  destruct (trim (pl_name e)); [congruence|]. cbn [str_truthy andb].
  apply decimal_number_nonneg.
Qed.

Lemma plain_item_valid (e : PlainLine) :
  plain_ok e -> prepaid_valid (plain_item e) = true.
Proof.
  intros (_ & Hn & _ & _ & _ & _ & Hpos).
  unfold prepaid_valid, plain_item. cbn [name quantity].
  rewrite integer_number_pos by assumption.
  pose proof (trim_nonempty _ Hn) as Ht.
  now destruct (trim (ql_name e)).
Qed.

Lemma forallb_map_valid {A : Type} (valid : Item -> bool) (f : A -> Item)
    (ok : A -> Prop) (l : list A) :
  (forall e, ok e -> valid (f e) = true) -> Forall ok l ->
  forallb valid (map f l) = true.
Proof.
  intros H. induction 1 as [|e l He _ IH]; simpl; [reflexivity|].
  now rewrite (H e He), IH.
Qed.

(** A comma-separated list of priced lines, each a name of ASCII letters,
    underscores and white space, a positive quantity, the mark ['@'] with
    optional white space around it and a price of digits with no or two
    decimals, parses as an itemized order with one item per line, in the
    order of the lines: the trimmed name, and the doubles nearest to the
    values of the quantity and of the price. *)
Theorem priced_lines_parse (es : list PricedLine) :
  es <> [] -> Forall priced_ok es ->
  parseOrderItemsEnhanced (VString (join_lines (map priced_text es)))
  = parsed itemized (map priced_item es).
Proof.
  intros Hne Hok.
  destruct (join_lines_last (map priced_text es)) as (b & z & E & Hz).
  { now apply map_nonempty. }
  { apply Forall_map. revert Hok. apply Forall_impl.
    exact priced_text_last. }
  rewrite parse_nonempty by (rewrite E; now destruct b).
  unfold parseOrderText. rewrite E, trim_ends_non_ws, <- E by assumption.
  rewrite (attempt_all itemizedPattern itemized_item itemized_valid _
             (map priced_item es)).
  - reflexivity.
  - apply (matchAll_lines itemizedPattern
             (fun s rest c H => proj2 (itemized_match_inv s rest c H))
             PricedLine priced_text priced_item itemized_item priced_ok);
      try assumption.
    + intros s. reflexivity.
    + intros e (_ & Hn & _). unfold priced_text.
      apply Exists_app. now left.
    + exact priced_line_matches.
    + now right.
  - now apply map_nonempty.
  - apply (forallb_map_valid _ _ priced_ok); [exact priced_item_valid|].
    assumption.
Qed.

Lemma priced_lines_parse_witness :
  parseOrderItemsEnhanced (VString (lit "Burger 2 @ 80, Fries 1 @45.50"))
  = parsed itemized
      [mkItem (lit "Burger") (Fin 2) (Fin 80);
       mkItem (lit "Fries") (Fin 1) (Fin (91 # 2))].
Proof.
  apply (priced_lines_parse
           [mkPricedLine (lit "Burger") (lit " ") (lit "2") (lit " ")
              (lit " ") (lit "80") (lit "");
            mkPricedLine (lit " Fries") (lit " ") (lit "1") (lit " ")
              (lit "") (lit "45") (lit "50")]).
  - discriminate.
  - constructor; [|constructor; [|constructor]].
    + split; [repeat constructor|].
      split; [apply Exists_cons_hd; reflexivity|].
      split; [discriminate|]. split; [repeat constructor|].
      split; [discriminate|]. split; [repeat constructor|].
      split; [reflexivity|]. split; [repeat constructor|].
      split; [repeat constructor|]. split; [discriminate|].
      split; [repeat constructor|]. split; [repeat constructor|].
      now left.
    + split; [repeat constructor|].
      split; [apply Exists_cons_tl, Exists_cons_hd; reflexivity|].
      split; [discriminate|]. split; [repeat constructor|].
      split; [discriminate|]. split; [repeat constructor|].
      split; [reflexivity|]. split; [repeat constructor|].
      split; [repeat constructor|]. split; [discriminate|].
      split; [repeat constructor|]. split; [repeat constructor|].
      now right.
Defined.

Lemma plain_no_mark (es : list PlainLine) :
  Forall plain_ok es ->
  existsb (is_char "@") (join_lines (map plain_text es)) = false.
Proof.
  assert (Hone : forall e, plain_ok e ->
                   existsb (is_char "@") (plain_text e) = false).
  { intros e (Hname & _ & _ & Hgw & _ & Hqd & _). unfold plain_text.
    rewrite !existsb_app. apply orb_false_iff. split.
    - destruct (existsb _ (ql_name e)) eqn:E; [|reflexivity].
      apply existsb_is_char in E.
      apply (all_not_in name_char "@"%char _ Hname) in E;
        [contradiction | reflexivity].
    - apply orb_false_iff. split.
      + destruct (existsb _ (ql_gap e)) eqn:E; [|reflexivity].
        apply existsb_is_char in E.
        apply (all_not_in is_ws "@"%char _ Hgw) in E;
          [contradiction | reflexivity].
      + destruct (existsb _ (ql_qty e)) eqn:E; [|reflexivity].
        apply existsb_is_char in E.
        apply (all_not_in is_digit "@"%char _ Hqd) in E;
          [contradiction | reflexivity]. }
  induction 1 as [|e es He Hes IH]; [reflexivity|].
  destruct es as [|e' es'].
  - now apply Hone.
  - change (join_lines (map plain_text (e :: e' :: es')))
      with (plain_text e ++ ","%char
              :: join_lines (map plain_text (e' :: es'))).
    rewrite existsb_app, (Hone e He). simpl existsb at 1.
    exact IH.
Qed.

(** A comma-separated list of plain lines, each a name of ASCII letters,
    underscores and white space and a positive quantity, parses as a
    prepaid order with one item per line, in the order of the lines: the
    trimmed name, the double nearest to the value of the quantity, and the
    price zero. *)
Theorem plain_lines_parse (es : list PlainLine) :
  es <> [] -> Forall plain_ok es ->
  parseOrderItemsEnhanced (VString (join_lines (map plain_text es)))
  = parsed prepaid (map plain_item es).
Proof.
  intros Hne Hok.
  destruct (join_lines_last (map plain_text es)) as (b & z & E & Hz).
  { now apply map_nonempty. }
  { apply Forall_map. revert Hok. apply Forall_impl.
    exact plain_text_last. }
  rewrite parse_nonempty by (rewrite E; now destruct b).
  unfold parseOrderText.
  rewrite (attempt_no_match itemizedPattern).
  2:{ apply matchAll_none_without_mark. intros H.
      apply existsb_is_char in H.
      rewrite (existsb_trim _ _ at_not_ws), plain_no_mark in H
        by assumption.
      discriminate. }
  rewrite E, trim_ends_non_ws, <- E by assumption.
  rewrite (attempt_all prepaidPattern prepaid_item prepaid_valid _
             (map plain_item es)).
  - reflexivity.
  - apply (matchAll_lines prepaidPattern
             (fun s rest c H => proj2 (prepaid_match_inv s rest c H))
             PlainLine plain_text plain_item prepaid_item plain_ok);
      try assumption.
    + intros s. reflexivity.
    + intros e (_ & Hn & _). unfold plain_text.
      apply Exists_app. now left.
    + exact plain_line_matches.
    + now right.
  - now apply map_nonempty.
  - apply (forallb_map_valid _ _ plain_ok); [exact plain_item_valid|].
    assumption.
Qed.

Lemma plain_lines_parse_witness :
  parseOrderItemsEnhanced (VString (lit "Burger 2, Fries 1"))
  = parsed prepaid
      [mkItem (lit "Burger") (Fin 2) (Fin 0);
       mkItem (lit "Fries") (Fin 1) (Fin 0)].
Proof.
  apply (plain_lines_parse
           [mkPlainLine (lit "Burger") (lit " ") (lit "2");
            mkPlainLine (lit " Fries") (lit " ") (lit "1")]).
  - discriminate.
  - constructor; [|constructor; [|constructor]].
    + split; [repeat constructor|].
      split; [apply Exists_cons_hd; reflexivity|].
      split; [discriminate|]. split; [repeat constructor|].
      split; [discriminate|]. split; [repeat constructor | reflexivity].
    + split; [repeat constructor|].
      split; [apply Exists_cons_tl, Exists_cons_hd; reflexivity|].
      split; [discriminate|]. split; [repeat constructor|].
      split; [discriminate|]. split; [repeat constructor | reflexivity].
Defined.

(** ** The daily run on the cells of the sheet *)

Lemma fee_values (v : value) :
  calculateDeliveryFee v = Fin 199 \/ calculateDeliveryFee v = Fin 99 \/
  calculateDeliveryFee v = Fin 69 \/ calculateDeliveryFee v = Fin 0.
Proof.
  destruct v as [| | | |s|]; try (right; right; right; reflexivity).
  rewrite fee_of_string.
  destruct (zone_match veryFar _); [now left|].
  destruct (zone_match far _); [right; now left|].
  destruct (zone_match near _); [right; right; now left|].
  right; right; right; reflexivity.
Qed.

Lemma push_cases (key : str) (o : Sheet.OrderData) (g : Sheet.object) :
  own_ok g ->
  Sheet.push key o g =
  if Sheet.inherited key then Sheet.Threw
  else Sheet.Returned
         (Sheet.set g key (match g key with
                           | Some l => l ++ [o]
                           | None => [o]
                           end)).
Proof.
  intros Hg. unfold Sheet.push, Sheet.get.
  destruct (g key) as [l|] eqn:E.
  - now rewrite (Hg key l E).
  - now destruct (Sheet.inherited key).
Qed.

Lemma set_own_ok (g : Sheet.object) (key : str) (l : list Sheet.OrderData) :
  own_ok g -> Sheet.inherited key = false -> own_ok (Sheet.set g key l).
Proof.
  intros Hg Hk k l'. unfold Sheet.set.
  destruct (str_eqb k key) eqn:E.
  - apply str_eqb_eq in E. now subst.
  - apply Hg.
Qed.

Lemma process_cells (P : Sheet.Platform) (summary : Sheet.Summary)
    (row : Sheet.Row) :
  own_ok (Sheet.storeGroups summary) ->
  Sheet.process_row P summary row =
  if row_throws P row then Sheet.Threw
  else
    match cells_order row with
    | None => Sheet.Returned summary
    | Some o =>
        let key := Sheet.to_key P (Sheet.o_store o) in
        Sheet.Returned
          (Sheet.mkSummary (Sheet.totalOrders summary)
             (num_add (Sheet.totalRevenue summary) (Sheet.o_subtotal o))
             (num_add (Sheet.totalDelivery summary) (Sheet.o_deliveryFee o))
             (Sheet.orders summary ++ [o])
             (Sheet.set (Sheet.storeGroups summary) key
                (match Sheet.storeGroups summary key with
                 | Some l => l ++ [o]
                 | None => [o]
                 end)))
    end.
Proof.
  intros Hg. unfold Sheet.process_row, row_throws, cells_order.
  destruct (Sheet.determineOrderField _ _ _) as [rawOrder|]; [|reflexivity].
  destruct (negb (Sheet.truthy rawOrder)); [reflexivity|].
  destruct (negb (success (parseOrderItemsEnhanced rawOrder)));
    [reflexivity|].
  cbv zeta. cbn [Sheet.o_store Sheet.o_subtotal Sheet.o_deliveryFee].
  rewrite (push_cases _ _ _ Hg).
  now destruct (Sheet.inherited _).
Qed.

Lemma run_from_throw (P : Sheet.Platform) (rows : list Sheet.Row) :
  fold_left (Sheet.step P) rows Sheet.Threw = Sheet.Threw.
Proof. induction rows as [|row rows IH]; [reflexivity | exact IH]. Qed.

(** The loop over rows of cells: it throws when a row throws, and
    otherwise accumulates the orders of the rows. *)
Lemma run_cells (P : Sheet.Platform) (rows : list Sheet.Row)
    (summary : Sheet.Summary) :
  own_ok (Sheet.storeGroups summary) ->
  if existsb (row_throws P) rows
  then fold_left (Sheet.step P) rows (Sheet.Returned summary) = Sheet.Threw
  else
    exists s,
      fold_left (Sheet.step P) rows (Sheet.Returned summary)
      = Sheet.Returned s
      /\ Sheet.totalOrders s = Sheet.totalOrders summary
      /\ Sheet.totalRevenue s
         = fold_left num_add (map Sheet.o_subtotal (orders_of_cells rows))
             (Sheet.totalRevenue summary)
      /\ Sheet.totalDelivery s
         = fold_left num_add (map Sheet.o_deliveryFee (orders_of_cells rows))
             (Sheet.totalDelivery summary)
      /\ Sheet.orders s = Sheet.orders summary ++ orders_of_cells rows
      /\ forall key,
           Sheet.storeGroups s key =
           match filter (under_key P key) (orders_of_cells rows) with
           | [] => Sheet.storeGroups summary key
           | o :: l =>
               Some (match Sheet.storeGroups summary key with
                     | Some l0 => l0 ++ o :: l
                     | None => o :: l
                     end)
           end.
Proof.
  revert summary. induction rows as [|row rows IH]; intros summary Hg.
  - cbn [existsb]. exists summary. cbn [fold_left orders_of_cells map filter].
    rewrite app_nil_r. repeat split.
  - cbn [existsb fold_left Sheet.step]. rewrite (process_cells P _ _ Hg).
    destruct (row_throws P row) eqn:Et; cbn [orb].
    { apply run_from_throw. }
    cbn [orders_of_cells].
    destruct (cells_order row) as [o|] eqn:Eo; [|now apply IH].
    cbv zeta.
    set (key := Sheet.to_key P (Sheet.o_store o)).
    set (s1 := Sheet.mkSummary _ _ _ _ _).
    assert (Hk : Sheet.inherited key = false).
    { unfold row_throws in Et. rewrite Eo in Et.
      now destruct (Sheet.determineOrderField _ _ _). }
    assert (H1 : own_ok (Sheet.storeGroups s1))
      by now apply set_own_ok.
    specialize (IH s1 H1).
    destruct (existsb (row_throws P) rows); [exact IH|].
    destruct IH as (s & E & Ht & Hr & Hd & Ho & Hgk).
    exists s. split; [exact E|]. split; [exact Ht|].
    split; [exact Hr|]. split; [exact Hd|].
    split; [rewrite Ho; cbn [s1 Sheet.orders]; now rewrite <- app_assoc|].
    intros k. rewrite Hgk. cbn [s1 Sheet.storeGroups filter].
    unfold Sheet.set, under_key at 2. fold key.
    rewrite (str_eqb_sym key k).
    destruct (str_eqb k key) eqn:Ek.
    + apply str_eqb_eq in Ek. subst k.
      destruct (filter _ (orders_of_cells rows)) as [|o1 l1];
        destruct (Sheet.storeGroups summary key);
        try reflexivity; now rewrite <- app_assoc.
    + reflexivity.
Qed.

Lemma orders_of_cells_length (rows : list Sheet.Row) :
  (length (orders_of_cells rows) <= length rows)%nat.
Proof.
  induction rows as [|row rows IH]; simpl; [lia|].
  destruct (cells_order row); simpl; lia.
Qed.

Lemma orders_of_cells_in (rows : list Sheet.Row) (o : Sheet.OrderData) :
  In o (orders_of_cells rows) ->
  exists row, In row rows /\ cells_order row = Some o.
Proof.
  induction rows as [|row rows IH]; simpl; [contradiction|].
  destruct (cells_order row) as [o'|] eqn:E.
  - intros [->|H].
    + exists row. split; [now left | exact E].
    + destruct (IH H) as (r & Hr & Er). exists r. split; [now right | exact Er].
  - intros H. destruct (IH H) as (r & Hr & Er).
    exists r. split; [now right | exact Er].
Qed.

(** What an order keeps of the row it comes from. *)
Lemma cells_order_facts (row : Sheet.Row) (o : Sheet.OrderData) :
  cells_order row = Some o ->
  Sheet.o_timestamp o = Sheet.r_timestamp row
  /\ Sheet.o_store o = Sheet.r_store row
  /\ Sheet.o_deliveryFee o = calculateDeliveryFee (Sheet.r_store row)
  /\ exists text,
       success (parseOrderItemsEnhanced (VString text)) = true
       /\ Sheet.o_items o = items (parseOrderItemsEnhanced (VString text))
       /\ Sheet.o_orderType o = type (parseOrderItemsEnhanced (VString text))
       /\ Sheet.o_subtotal o = subtotal_of (Sheet.o_items o).
Proof.
  unfold cells_order.
  destruct (Sheet.determineOrderField _ _ _) as [rawOrder|]; [|discriminate].
  destruct (negb (Sheet.truthy rawOrder)); [discriminate|].
  destruct (success (parseOrderItemsEnhanced rawOrder)) eqn:Hs;
    cbn [negb]; [|discriminate].
  intros E.
  apply (f_equal (fun x => match x with Some d => d | None => o end)) in E.
  cbv beta iota in E. subst o.
  cbn [Sheet.o_timestamp Sheet.o_store Sheet.o_deliveryFee Sheet.o_items
       Sheet.o_orderType Sheet.o_subtotal].
  split; [reflexivity|]. split; [reflexivity|]. split; [reflexivity|].
  destruct (parse_success_inv _ Hs) as (text & -> & _).
  exists text. repeat split. exact Hs.
Qed.

Lemma daily_run (P : Sheet.Platform) (start end_ : Z)
    (rows : list Sheet.Row) :
  let today := filter (Sheet.in_day P start end_) rows in
  if existsb (row_throws P) today
  then Sheet.sendDailySummary P start end_ rows = Sheet.Threw
  else
    exists s,
      Sheet.sendDailySummary P start end_ rows = Sheet.Returned s
      /\ Sheet.totalOrders s = length today
      /\ Sheet.totalRevenue s
         = sum_of (map Sheet.o_subtotal (orders_of_cells today))
      /\ Sheet.totalDelivery s
         = sum_of (map Sheet.o_deliveryFee (orders_of_cells today))
      /\ Sheet.orders s = orders_of_cells today
      /\ forall key,
           Sheet.storeGroups s key =
           match filter (under_key P key) (orders_of_cells today) with
           | [] => None
           | l => Some l
           end.
Proof.
  cbv zeta. unfold Sheet.sendDailySummary.
  set (today := filter (Sheet.in_day P start end_) rows).
  set (s0 := Sheet.mkSummary _ _ _ _ _).
  assert (H0 : own_ok (Sheet.storeGroups s0)) by (intros k l; discriminate).
  pose proof (run_cells P today s0 H0) as H.
  destruct (existsb (row_throws P) today); [exact H|].
  destruct H as (s & E & Ht & Hr & Hd & Ho & Hg).
  exists s. split; [exact E|]. split; [exact Ht|].
  split; [exact Hr|]. split; [exact Hd|]. split; [exact Ho|].
  intros key. rewrite Hg. cbn [s0 Sheet.storeGroups Sheet.empty].
  unfold Sheet.empty. now destruct (filter _ _).
Qed.

(** When the run completes, the orders of the daily summary are the
    orders of the rows of the day that select and parse, in the order of
    the rows; the revenue and the fee total are the sums of their
    subtotals and fees, taken in that order; [totalOrders] is the number
    of rows of the day, never less than the number of orders; and every
    order bears a time stamp of the day. *)
Theorem daily_summary_accounts (P : Sheet.Platform) (start end_ : Z)
    (rows : list Sheet.Row) (summary : Sheet.Summary) :
  Sheet.sendDailySummary P start end_ rows = Sheet.Returned summary ->
  Sheet.orders summary
  = orders_of_cells (filter (Sheet.in_day P start end_) rows)
  /\ Sheet.totalRevenue summary
     = sum_of (map Sheet.o_subtotal (Sheet.orders summary))
  /\ Sheet.totalDelivery summary
     = sum_of (map Sheet.o_deliveryFee (Sheet.orders summary))
  /\ Sheet.totalOrders summary
     = length (filter (Sheet.in_day P start end_) rows)
  /\ (length (Sheet.orders summary) <= Sheet.totalOrders summary)%nat
  /\ (forall o, In o (Sheet.orders summary) ->
        exists time,
          Sheet.new_Date P (Sheet.o_timestamp o) = Some time
          /\ (start <= time <= end_)%Z).
Proof.
  intros Hrun. pose proof (daily_run P start end_ rows) as H.
  cbv zeta in H.
  destruct (existsb _ _); [congruence|].
  destruct H as (s & E & Ht & Hr & Hd & Ho & _).
  assert (s = summary) by congruence. subst s.
  rewrite Ho, Ht. split; [reflexivity|]. split; [exact Hr|].
  split; [exact Hd|]. split; [reflexivity|].
  split; [apply orders_of_cells_length|].
  intros o Hin. destruct (orders_of_cells_in _ _ Hin) as (row & Hrow & Er).
  destruct (cells_order_facts _ _ Er) as (Etime & _). rewrite Etime.
  apply filter_In in Hrow. destruct Hrow as [_ Hd'].
  unfold Sheet.in_day in Hd'.
  destruct (Sheet.new_Date P (Sheet.r_timestamp row)) as [time|];
    [|discriminate].
  exists time. split; [reflexivity|].
  apply andb_true_iff in Hd'. destruct Hd' as [H1 H2].
  apply Z.leb_le in H1, H2. lia.
Qed.

Lemma day_cells_run :
  exists summary,
    Sheet.sendDailySummary sample_platform 0 100 day_cells
    = Sheet.Returned summary
    /\ Sheet.orders summary
       = orders_of_cells
           (filter (Sheet.in_day sample_platform 0 100) day_cells).
Proof.
  pose proof (daily_run sample_platform 0 100 day_cells) as H.
  cbv zeta in H.
  assert (Hn : existsb (row_throws sample_platform)
                 (filter (Sheet.in_day sample_platform 0 100) day_cells)
               = false) by (vm_compute; reflexivity).
  rewrite Hn in H. destruct H as (s & E & _ & _ & _ & Ho & _).
  exists s. split; [exact E | exact Ho].
Qed.

Lemma daily_summary_accounts_witness :
  exists summary,
    Sheet.sendDailySummary sample_platform 0 100 day_cells
    = Sheet.Returned summary
    /\ Sheet.totalOrders summary = 3%nat
    /\ length (Sheet.orders summary) = 2%nat.
Proof.
  destruct day_cells_run as (s & E & _).
  exists s. split; [exact E|].
  destruct (daily_summary_accounts sample_platform 0 100 day_cells s E)
    as (Ho & _ & _ & Ht & _).
  split.
  - rewrite Ht. vm_compute. reflexivity.
  - rewrite Ho. vm_compute. reflexivity.
Defined.

(** The selector throws exactly when both fields are filled and the
    selected type is truthy and not a text. *)
Lemma selector_throws (field1 field2 selectedType : value) :
  Sheet.determineOrderField field1 field2 selectedType = Sheet.Threw
  <-> Sheet.truthy field1 = true /\ Sheet.truthy field2 = true
      /\ Sheet.truthy selectedType = true
      /\ forall s, selectedType <> VString s.
Proof.
  unfold Sheet.determineOrderField.
  destruct (Sheet.truthy field1), (Sheet.truthy field2); cbn [negb andb];
    try (split; [discriminate | intros (H1 & H2 & _); discriminate]).
  destruct (Sheet.truthy selectedType) eqn:Et.
  - destruct selectedType as [| |b|n|s|t];
      try (split; [intros _; repeat split; discriminate | reflexivity]).
    split.
    + destruct (_ || _)%bool; [discriminate|].
      destruct (includes _ _); discriminate.
    + intros (_ & _ & _ & H). now destruct (H s).
  - split; [discriminate | intros (_ & _ & H & _); discriminate].
Qed.

(** The run is aborted by a [TypeError] exactly when a row of the day has
    both order fields filled and a selected type that is truthy and not a
    text, or gives an order whose store, as a property key, names a member
    of [Object.prototype]. *)
Theorem daily_run_aborts (P : Sheet.Platform) (start end_ : Z)
    (rows : list Sheet.Row) :
  Sheet.sendDailySummary P start end_ rows = Sheet.Threw
  <-> exists row,
        In row rows /\ Sheet.in_day P start end_ row = true
        /\ ((Sheet.truthy (Sheet.r_orderField1 row) = true
             /\ Sheet.truthy (Sheet.r_orderField2 row) = true
             /\ Sheet.truthy (Sheet.r_orderType row) = true
             /\ forall s, Sheet.r_orderType row <> VString s)
            \/ (cells_order row <> None
                /\ Sheet.inherited (Sheet.to_key P (Sheet.r_store row))
                   = true)).
Proof.
  pose proof (daily_run P start end_ rows) as H. cbv zeta in H.
  assert (Hex : existsb (row_throws P)
                  (filter (Sheet.in_day P start end_) rows) = true
                <-> exists row,
                      In row rows /\ Sheet.in_day P start end_ row = true
                      /\ row_throws P row = true).
  { rewrite existsb_exists. split.
    - intros (row & Hin & Ht). apply filter_In in Hin.
      exists row. tauto.
    - intros (row & Hin & Hd & Ht). exists row.
      split; [apply filter_In; tauto | exact Ht]. }
  assert (Hrow : forall row,
             row_throws P row = true
             <-> ((Sheet.truthy (Sheet.r_orderField1 row) = true
                   /\ Sheet.truthy (Sheet.r_orderField2 row) = true
                   /\ Sheet.truthy (Sheet.r_orderType row) = true
                   /\ forall s, Sheet.r_orderType row <> VString s)
                  \/ (cells_order row <> None
                      /\ Sheet.inherited
                           (Sheet.to_key P (Sheet.r_store row)) = true))).
  { intros row. rewrite <- selector_throws. unfold row_throws.
    destruct (cells_order row) as [o|] eqn:Eo.
    - destruct (cells_order_facts _ _ Eo) as (_ & Es & _). rewrite Es.
      destruct (Sheet.determineOrderField _ _ _) eqn:Ed.
      + split; [intros Hi; right; split; [discriminate | exact Hi]|].
        intros [Hd|[_ Hi]]; [discriminate | exact Hi].
      + unfold cells_order in Eo. rewrite Ed in Eo. discriminate.
    - destruct (Sheet.determineOrderField _ _ _) eqn:Ed.
      + split; [discriminate|]. intros [Hd|[Hn _]]; [discriminate|].
        now destruct Hn.
      + split; [intros _; now left | reflexivity]. }
  destruct (existsb _ _) eqn:Ee.
  - split; [intros _|intros _; exact H].
    destruct (proj1 Hex eq_refl) as (row & Hin & Hd & Ht).
    exists row. split; [exact Hin|]. split; [exact Hd|].
    now apply Hrow.
  - destruct H as (s & E & _).
    split; [intros Ht; congruence|].
    intros (row & Hin & Hd & Ht). apply Hrow in Ht.
    assert (false = true); [|discriminate].
    apply Hex. exists row. tauto.
Qed.

Lemma daily_run_aborts_witness :
  Sheet.sendDailySummary sample_platform 0 100 (map cells_of prototype_rows)
  = Sheet.Threw.
Proof.
  apply (proj2 (daily_run_aborts sample_platform 0 100
                  (map cells_of prototype_rows))).
  exists (cells_of (day_row 20 "Ben" "Fries 1" "constructor")).
  split; [right; left; reflexivity|].
  split; [reflexivity|].
  right. split; [vm_compute; discriminate | reflexivity].
Defined.

(** In the summary of a completed run, the property of [storeGroups]
    under a key is: the array of the orders whose store gives that key, in
    the order of their accumulation, when there are some; and, when there
    are none, the member of [Object.prototype] of that name if there is
    one, [undefined] otherwise. *)
Theorem store_groups_partition (P : Sheet.Platform) (start end_ : Z)
    (rows : list Sheet.Row) (summary : Sheet.Summary) (key : str) :
  Sheet.sendDailySummary P start end_ rows = Sheet.Returned summary ->
  Sheet.get (Sheet.storeGroups summary) key =
  match filter (under_key P key) (Sheet.orders summary) with
  | [] => if Sheet.inherited key then Sheet.prototype_member
          else Sheet.undefined
  | l => Sheet.array l
  end.
Proof.
  intros Hrun. pose proof (daily_run P start end_ rows) as H.
  cbv zeta in H.
  destruct (existsb _ _); [congruence|].
  destruct H as (s & E & _ & _ & _ & Ho & Hg).
  assert (s = summary) by congruence. subst s.
  unfold Sheet.get. rewrite Hg, Ho.
  now destruct (filter (under_key P key) _).
Qed.

Lemma store_groups_partition_witness :
  exists summary,
    Sheet.sendDailySummary sample_platform 0 100 day_cells
    = Sheet.Returned summary
    /\ (exists o, Sheet.get (Sheet.storeGroups summary) (lit "Mini Stop")
                  = Sheet.array [o])
    /\ Sheet.get (Sheet.storeGroups summary) (lit "Paseo") = Sheet.undefined
    /\ Sheet.get (Sheet.storeGroups summary) (lit "toString")
       = Sheet.prototype_member.
Proof.
  destruct day_cells_run as (s & E & Ho).
  exists s. split; [exact E|].
  rewrite !(store_groups_partition sample_platform 0 100 day_cells s _ E).
  rewrite Ho. vm_compute. repeat split. eexists. reflexivity.
Defined.

Lemma order_amounts (row : Sheet.Row) (o : Sheet.OrderData) :
  cells_order row = Some o ->
  Sheet.html_collect o = Sheet.text_collect o
  /\ (Sheet.o_subtotal o <> NaN -> Sheet.pdf_total o = Sheet.text_collect o)
  /\ (Sheet.o_subtotal o = NaN <-> Exists overflowed (Sheet.o_items o)).
Proof.
  intros Er.
  destruct (cells_order_facts _ _ Er)
    as (_ & _ & Ef & text & Hs & Hi & Ht & Hsub).
  destruct (parsed_subtotal _ Hs) as (Hnan & _ & Htype). cbv zeta in *.
  rewrite <- Hi, <- Hsub in *. rewrite <- Ht in Htype.
  split; [reflexivity|]. split; [|exact Hnan].
  intros Hn. unfold Sheet.pdf_total, Sheet.text_collect.
  destruct Htype as [->|(-> & [E|E])]; [reflexivity| |contradiction].
  rewrite E, Ef.
  destruct (fee_values (Sheet.r_store row)) as [E1|[E1|[E1|E1]]];
    rewrite E1; reflexivity.
Qed.

(** On every order of a completed run the amount to collect of the HTML
    is the one of the text, and the total of the PDF row is that amount
    too unless the subtotal is not a number, which happens exactly when an
    item has a quantity that reads as [Infinity] and a price of zero: the
    views differ in their formulas only for prepaid orders, whose subtotal
    is otherwise zero. *)
Theorem view_amounts_agree (P : Sheet.Platform) (start end_ : Z)
    (rows : list Sheet.Row) (summary : Sheet.Summary)
    (o : Sheet.OrderData) :
  Sheet.sendDailySummary P start end_ rows = Sheet.Returned summary ->
  In o (Sheet.orders summary) ->
  Sheet.html_collect o = Sheet.text_collect o
  /\ (Sheet.o_subtotal o <> NaN -> Sheet.pdf_total o = Sheet.text_collect o)
  /\ (Sheet.o_subtotal o = NaN <-> Exists overflowed (Sheet.o_items o)).
Proof.
  intros Hrun Hin. pose proof (daily_run P start end_ rows) as H.
  cbv zeta in H.
  destruct (existsb _ _); [congruence|].
  destruct H as (s & E & _ & _ & _ & Ho & _).
  assert (s = summary) by congruence. subst s.
  rewrite Ho in Hin.
  destruct (orders_of_cells_in _ _ Hin) as (row & _ & Er).
  now apply (order_amounts row).
Qed.

Lemma view_amounts_agree_witness :
  exists summary,
    Sheet.sendDailySummary sample_platform 0 100 day_cells
    = Sheet.Returned summary
    /\ Forall (fun o => Sheet.pdf_total o = Sheet.text_collect o)
         (Sheet.orders summary).
Proof.
  destruct day_cells_run as (s & E & Ho).
  exists s. split; [exact E|].
  apply Forall_forall. intros o Hin.
  destruct (view_amounts_agree sample_platform 0 100 day_cells s o E Hin)
    as (_ & H & _).
  apply H. rewrite Ho in Hin. vm_compute in Hin.
  destruct Hin as [<-|[<-|[]]]; discriminate.
Defined.

(** ** Rows of texts as rows of cells *)

Lemma selector_on_texts (field1 field2 selectedType : str) :
  Sheet.determineOrderField (VString field1) (VString field2)
    (VString selectedType)
  = Sheet.Returned
      (match determineOrderField (Some field1) (Some field2)
               (Some selectedType) with
       | Some s => VString s
       | None => VNull
       end).
Proof.
  unfold Sheet.determineOrderField, determineOrderField, type_hint.
  cbn [Sheet.truthy truthy text_of Sheet.longer].
  destruct (str_truthy field1), (str_truthy field2); cbn [negb andb];
    try reflexivity.
  destruct (str_truthy selectedType).
  - destruct (_ || _)%bool; [reflexivity|].
    destruct (includes _ _); [reflexivity|].
    now destruct (Nat.ltb _ _).
  - now destruct (Nat.ltb _ _).
Qed.

Lemma cells_order_of_texts (row : Row) :
  cells_order (cells_of row) = option_map cells_of_order (row_order row).
Proof.
  unfold cells_order, row_order, cells_of.
  cbn [Sheet.r_orderField1 Sheet.r_orderField2 Sheet.r_orderType
       Sheet.r_timestamp Sheet.r_name Sheet.r_email Sheet.r_phone
       Sheet.r_location Sheet.r_room Sheet.r_store Sheet.r_paymentMethod
       Sheet.r_gcashRef].
  rewrite selector_on_texts.
  destruct (determineOrderField _ _ _) as [s|]; [|reflexivity].
  cbn [Sheet.truthy truthy text_of].
  destruct (negb (str_truthy s)); [reflexivity|].
  destruct (negb (success _)); reflexivity.
Qed.

Lemma in_day_of_texts (P : Sheet.Platform) (start end_ : Z) (row : Row) :
  Sheet.in_day P start end_ (cells_of row) = in_day start end_ row.
Proof. reflexivity. Qed.

Lemma filter_cells (P : Sheet.Platform) (start end_ : Z) (rows : list Row) :
  filter (Sheet.in_day P start end_) (map cells_of rows)
  = map cells_of (filter (in_day start end_) rows).
Proof.
  induction rows as [|row rows IH]; [reflexivity|].
  cbn [map filter]. rewrite in_day_of_texts, IH.
  now destruct (in_day start end_ row).
Qed.

Lemma orders_of_cells_of_texts (rows : list Row) :
  orders_of_cells (map cells_of rows)
  = map cells_of_order (orders_of_rows rows).
Proof.
  induction rows as [|row rows IH]; [reflexivity|].
  cbn [map orders_of_cells orders_of_rows].
  rewrite cells_order_of_texts, IH.
  now destruct (row_order row).
Qed.

Lemma row_throws_of_texts (P : Sheet.Platform) (row : Row) :
  row_throws P (cells_of row) =
  match row_order row with
  | Some o => Sheet.inherited (o_store o)
  | None => false
  end.
Proof.
  unfold row_throws. rewrite cells_order_of_texts.
  unfold cells_of at 1 2 3.
  cbn [Sheet.r_orderField1 Sheet.r_orderField2 Sheet.r_orderType].
  rewrite selector_on_texts.
  now destruct (row_order row).
Qed.

Lemma throws_of_texts (P : Sheet.Platform) (rows : list Row) :
  existsb (row_throws P) (map cells_of rows)
  = existsb (fun o => Sheet.inherited (o_store o)) (orders_of_rows rows).
Proof.
  induction rows as [|row rows IH]; [reflexivity|].
  cbn [map existsb orders_of_rows]. rewrite row_throws_of_texts, IH.
  now destruct (row_order row).
Qed.

Lemma filter_under_key (P : Sheet.Platform) (key : str)
    (os : list OrderData) :
  filter (under_key P key) (map cells_of_order os)
  = map cells_of_order (filter (from_store key) os).
Proof.
  induction os as [|o os IH]; [reflexivity|].
  cbn [map filter]. rewrite IH.
  change (under_key P key (cells_of_order o)) with (from_store key o).
  now destruct (from_store key o).
Qed.

(** The summary of rows of texts is the summary of the run on their
    cells: when no order of the day comes from a store named as a member
    of [Object.prototype], the run completes with the same counters, the
    same orders in the same order and the same arrays under the same
    keys; when one does, the run throws. *)
Theorem text_rows_run (P : Sheet.Platform) (start end_ : Z)
    (rows : list Row) :
  let summary := dailySummary start end_ rows in
  (Forall (fun o => Sheet.inherited (o_store o) = false) (orders summary) ->
   exists s,
     Sheet.sendDailySummary P start end_ (map cells_of rows)
     = Sheet.Returned s
     /\ Sheet.totalOrders s = totalOrders summary
     /\ Sheet.totalRevenue s = totalRevenue summary
     /\ Sheet.totalDelivery s = totalDelivery summary
     /\ Sheet.orders s = map cells_of_order (orders summary)
     /\ forall key,
          Sheet.get (Sheet.storeGroups s) key =
          match store_group (storeGroups summary) key with
          | Some l => Sheet.array (map cells_of_order l)
          | None => if Sheet.inherited key then Sheet.prototype_member
                    else Sheet.undefined
          end)
  /\ (Exists (fun o => Sheet.inherited (o_store o) = true) (orders summary) ->
      Sheet.sendDailySummary P start end_ (map cells_of rows)
      = Sheet.Threw).
Proof.
  cbv zeta. rewrite dailySummary_orders.
  pose proof (daily_run P start end_ (map cells_of rows)) as H.
  cbv zeta in H. rewrite filter_cells, throws_of_texts in H.
  set (today := filter (in_day start end_) rows) in *.
  split.
  - intros Hall.
    assert (He : existsb (fun o => Sheet.inherited (o_store o))
                   (orders_of_rows today) = false).
    { destruct (existsb _ _) eqn:E; [|reflexivity].
      apply existsb_exists in E. destruct E as (o & Hin & Hi).
      rewrite Forall_forall in Hall. rewrite (Hall o Hin) in Hi.
      discriminate. }
    rewrite He in H. destruct H as (s & E & Ht & Hr & Hd & Ho & Hg).
    exists s. split; [exact E|].
    destruct (daily_summary_sums start end_ rows) as (Er & Ed).
    rewrite dailySummary_orders in Er, Ed. fold today in Er, Ed.
    rewrite orders_of_cells_of_texts in Hr, Hd, Ho.
    split.
    { rewrite Ht, length_map. unfold dailySummary.
      fold (in_day start end_). fold today.
      now rewrite fold_process_row_totalOrders. }
    split; [rewrite Hr, Er, map_map; reflexivity|].
    split; [rewrite Hd, Ed, map_map; reflexivity|].
    split; [exact Ho|].
    intros key. unfold Sheet.get. rewrite Hg.
    rewrite orders_of_cells_of_texts, filter_under_key.
    unfold dailySummary. fold (in_day start end_). fold today.
    rewrite fold_process_row_groups. cbn [storeGroups store_group].
    now destruct (filter (from_store key) _).
  - intros Hex.
    assert (He : existsb (fun o => Sheet.inherited (o_store o))
                   (orders_of_rows today) = true).
    { apply existsb_exists. apply Exists_exists in Hex.
      destruct Hex as (o & Hin & Hi). now exists o. }
    now rewrite He in H.
Qed.

Lemma text_rows_run_witness :
  exists s,
    Sheet.sendDailySummary sample_platform 0 100 day_cells
    = Sheet.Returned s
    /\ Sheet.totalOrders s = 3%nat
    /\ Sheet.totalRevenue s = Fin 160.
Proof.
  destruct (proj1 (text_rows_run sample_platform 0 100 day_rows))
    as (s & E & Ht & Hr & _).
  - repeat constructor.
  - exists s. split; [exact E|]. split.
    + rewrite Ht. vm_compute. reflexivity.
    + rewrite Hr. vm_compute. reflexivity.
Defined.

(** ** The total collection *)

Lemma num_add_whole (a b : N) :
  (a + b < 2 ^ 53)%N ->
  num_add (num_of_N a) (num_of_N b) = num_of_N (a + b).
Proof.
  intros H. unfold num_of_N. cbn [num_add].
  rewrite (round_double_comp _ (inject_Z (Z.of_N (a + b)))).
  - apply round_double_small_integer. split; [lia|].
    change (2 ^ 53)%Z with (Z.of_N (2 ^ 53)). lia.
  - rewrite N2Z.inj_add, inject_Z_plus. reflexivity.
Qed.

Lemma sum_whole (l : list N) (a : N) :
  (a + total_of l < 2 ^ 53)%N ->
  fold_left num_add (map num_of_N l) (num_of_N a)
  = num_of_N (a + total_of l).
Proof.
  unfold total_of. revert a.
  induction l as [|n l IH]; intros a H; cbn [map fold_left fold_right] in *.
  - now rewrite N.add_0_r.
  - rewrite num_add_whole by lia. rewrite IH by lia. f_equal. lia.
Qed.

Lemma rows_whole (os : list Sheet.OrderData) (subs fees : list N) (a : N) :
  map Sheet.o_subtotal os = map num_of_N subs ->
  map Sheet.o_deliveryFee os = map num_of_N fees ->
  (a + total_of subs + total_of fees < 2 ^ 53)%N ->
  fold_left num_add (map Sheet.pdf_total os) (num_of_N a)
  = num_of_N (a + total_of subs + total_of fees).
Proof.
  unfold total_of. revert subs fees a.
  induction os as [|o os IH]; intros [|s subs] [|f fees] a Hs Hf H;
    try discriminate; cbn [map fold_left fold_right] in *.
  - now rewrite !N.add_0_r.
  - apply (f_equal (fun l => match l with x :: l' => (x, l') | [] => (NaN, []) end))
      in Hs, Hf. cbv beta iota in Hs, Hf.
    apply pair_equal_spec in Hs, Hf.
    destruct Hs as [Es Hs], Hf as [Ef Hf].
    change (Sheet.pdf_total o)
      with (num_add (Sheet.o_subtotal o) (Sheet.o_deliveryFee o)).
    rewrite Es, Ef.
    rewrite (num_add_whole s f) by lia.
    rewrite (num_add_whole a (s + f)) by lia.
    rewrite (IH subs fees (a + (s + f))%N Hs Hf) by lia.
    f_equal. lia.
Qed.

(** While the subtotals and the fees of the orders are whole numbers of
    a sum below [2^53], no addition rounds: the total collection of the
    header, [totalRevenue + totalDelivery], is the sum of the totals of the
    rows of the PDF, and both are the sum of the subtotals and the fees.
    With decimals the additions round and the two can differ: they do
    for two orders of one item at 0.10, from stores of fee 0 and 69. *)
Theorem whole_totals_add_up :
  (forall (P : Sheet.Platform) (start end_ : Z) (rows : list Sheet.Row)
          (summary : Sheet.Summary) (subs fees : list N),
      Sheet.sendDailySummary P start end_ rows = Sheet.Returned summary ->
      map Sheet.o_subtotal (Sheet.orders summary) = map num_of_N subs ->
      map Sheet.o_deliveryFee (Sheet.orders summary) = map num_of_N fees ->
      (total_of subs + total_of fees < 2 ^ 53)%N ->
      Sheet.total_collection summary
      = num_of_N (total_of subs + total_of fees)
      /\ sum_of (map Sheet.pdf_total (Sheet.orders summary))
         = Sheet.total_collection summary)
  /\ (exists summary,
        Sheet.sendDailySummary sample_platform 0 100 (map cells_of dime_rows)
        = Sheet.Returned summary
        /\ Sheet.total_collection summary = round_double (692 # 10)
        /\ sum_of (map Sheet.pdf_total (Sheet.orders summary))
           <> Sheet.total_collection summary).
Proof.
  split.
  - intros P start end_ rows summary subs fees Hrun Hs Hf Hb.
    pose proof (daily_run P start end_ rows) as H. cbv zeta in H.
    destruct (existsb _ _); [congruence|].
    destruct H as (s & E & _ & Hr & Hd & Ho & _).
    assert (s = summary) by congruence. subst s.
    rewrite <- Ho in Hr, Hd. rewrite Hs in Hr. rewrite Hf in Hd.
    unfold sum_of in Hr, Hd.
    change (Fin 0) with (num_of_N 0%N) in Hr, Hd.
    rewrite sum_whole in Hr, Hd by lia. rewrite N.add_0_l in Hr, Hd.
    assert (Et : Sheet.total_collection summary
                 = num_of_N (total_of subs
                             + total_of fees)).
    { unfold Sheet.total_collection. rewrite Hr, Hd.
      now apply num_add_whole. }
    split; [exact Et|]. rewrite Et. unfold sum_of.
    change (Fin 0) with (num_of_N 0%N).
    rewrite (rows_whole _ subs fees 0%N Hs Hf) by lia.
    now rewrite N.add_0_l.
  - pose proof (daily_run sample_platform 0 100 (map cells_of dime_rows))
      as H. cbv zeta in H.
    assert (Hn : existsb (row_throws sample_platform)
                   (filter (Sheet.in_day sample_platform 0 100)
                      (map cells_of dime_rows)) = false)
      by (vm_compute; reflexivity).
    rewrite Hn in H. destruct H as (s & E & _ & Hr & Hd & Ho & _).
    exists s. split; [exact E|].
    unfold Sheet.total_collection. rewrite Hr, Hd, Ho.
    split; [vm_compute; reflexivity|].
    intros Hne. vm_compute in Hne. discriminate.
Qed.

Lemma whole_totals_add_up_witness :
  exists summary,
    Sheet.sendDailySummary sample_platform 0 100 day_cells
    = Sheet.Returned summary
    /\ Sheet.total_collection summary = Fin 328
    /\ sum_of (map Sheet.pdf_total (Sheet.orders summary)) = Fin 328.
Proof.
  destruct day_cells_run as (s & E & Ho).
  exists s. split; [exact E|].
  destruct (proj1 whole_totals_add_up sample_platform 0%Z 100%Z day_cells s
              [160; 0]%N [69; 99]%N E) as (Ht & Hs).
  - rewrite Ho. vm_compute. reflexivity.
  - rewrite Ho. vm_compute. reflexivity.
  - vm_compute. reflexivity.
  - split; [exact Ht|]. rewrite Hs. exact Ht.
Defined.
